(** * Adjacency-list traversal and the FromList forest

    A shallow embedding of the breadth-first and depth-first traversals of
    [adj_RO.go], of [IsUndirected] of [adj.go], and of the [FromList]
    operations the examples of [fromlist_test.go] exercise.

    Conventions of the embedding:
    - a node number [NI] (Go [int32]) and a Go [int] are integers of [Z];
      the one conversion the code performs, [NI(len(g))], is written out
      with its wrap-around ([toNI]);
    - a slice is a list; indexing outside of it is a run-time panic, so every
      indexed read goes through [at_] and every indexed write through [upd],
      both partial;
    - the closures a caller passes as visitors may carry state of their own:
      a visitor is a function on a caller-chosen state type [V];
    - [*rand.Rand] is a generator state [R] with its [Perm] method;
    - a run records the callback invocations and the writes to the path list
      in a chronological trace of [event]s. *)

From stdpp Require Import base numbers list option relations sorting gmap.

Local Open Scope Z_scope.

(** ** Data model *)

(** [type NI int32]. *)
Abbreviation NI := Z.

(** The conversion [NI(x)] of an [int] to [int32]: two's complement
    wrap-around. *)
Definition toNI (x : Z) : NI := (x + 2 ^ 31) `mod` 2 ^ 32 - 2 ^ 31.

(** [type AdjacencyList [][]NI]. *)
Abbreviation AdjacencyList := (list (list NI)).

(** [l[i]] for a signed index: [None] is the index-out-of-range panic. *)
Definition at_ {A} (l : list A) (i : Z) : option A :=
  if decide (0 ≤ i) then l !! Z.to_nat i else None.

(** [l[i] = x] for a signed index: [None] is the index-out-of-range panic. *)
Definition upd {A} (l : list A) (i : Z) (x : A) : option (list A) :=
  if decide (0 ≤ i < Z.of_nat (length l)) then Some (<[Z.to_nat i := x]> l)
  else None.

(** [type PathEnd struct { From NI; Len int }]. *)
Record PathEnd := mkPathEnd { From : NI; Len : Z }.

Global Instance PathEnd_eq_dec : EqDecision PathEnd.
Proof. solve_decision. Defined.

(** Modelled from the spec: the bitset of package [bits], an external
    collaborator: "a dense, fixed-size mutable set of node indices",
    "a fixed-size word-packed bit array with explicit capacity equal to node
    count; expose test/set/clear/set-all/clear-all".  A bit number outside
    the capacity is a precondition violation, which "should fail loudly":
    [None]. *)
Abbreviation Bits := (list bool).

Module bits.
Definition New (n : nat) : Bits := replicate n false.
Definition Bit (b : Bits) (n : Z) : option Z :=
  x ← at_ b n; Some (if x : bool then 1 else 0).
Definition SetBit (b : Bits) (n : Z) (v : Z) : option Bits :=
  upd b n (negb (v =? 0)).
Definition ClearAll (b : Bits) : Bits := replicate (length b) false.
Definition SetAll (b : Bits) : Bits := replicate (length b) true.
End bits.

(** [type FromList struct { Paths []PathEnd; Leaves bits.Bits; MaxLen int }].
    [Paths] is a slice that may be nil. *)
Record FromList := mkFromList {
  Paths : option (list PathEnd);
  Leaves : Bits;
  MaxLen : Z
}.

(** Modelled from the spec: [NewFromList] is not among the sources.  "A
    FromList is created [...] empty (all entries zeroed, meaning no path
    found yet)": [n] zero-valued entries, and the other fields zero. *)
Definition NewFromList (n : nat) : FromList :=
  {| Paths := Some (replicate n (mkPathEnd 0 0)); Leaves := []; MaxLen := 0 |}.

(** What a run leaves behind for an observer: visitor invocations, and the
    two kinds of step of the breadth-first loop. *)
Inductive event :=
  | CallNodeVisitor (n : NI)
  | CallOkNodeVisitor (n : NI) (ok : bool)
  | CallArcVisitor (n : NI) (x : nat)
  | CallOkArcVisitor (n : NI) (x : nat) (ok : bool)
  (** [frontier] is taken up at [level] (top of the [for] loop) *)
  | TakeFrontier (level : Z) (frontier : list NI)
  (** [rp[nb] = p], for the start node or together with
      [next = append(next, nb)] *)
  | SetPath (nb : NI) (p : PathEnd).

(** How a piece of code ends. *)
Inductive result (A : Type) :=
  | Ok (a : A)        (** control goes on *)
  | Stop (a : A)      (** a conditional visitor answered false *)
  | Panic (a : A)     (** run-time panic, with the state reached *)
  | Diverge.          (** the fuel of the model ran out *)
Arguments Ok {A} a.
Arguments Stop {A} a.
Arguments Panic {A} a.
Arguments Diverge {A}.

(** Sequencing: only [Ok] goes on. *)
Definition bind {A} (r : result A) (k : A → result A) : result A :=
  match r with
  | Ok a => k a
  | _ => r
  end.

Notation "x ←! r ; k" := (bind r (λ x, k))
  (at level 20, r at level 100, k at level 200, right associativity,
   format "x  ←!  r ;  '/' k").

Section Traverse.
(** The state the caller's closures close over, the state of the random
    generator, and the generator's method [Perm]. *)
Context {V R : Type}.
Variable Perm : R → nat → list nat * R.

(** [type config struct], the record the options fill in. *)
Record config := mkConfig {
  start : NI;
  fromList : option FromList;
  nodeVisitor : option (NI → V → V);
  okNodeVisitor : option (NI → V → bool * V);
  arcVisitor : option (NI → nat → V → V);
  okArcVisitor : option (NI → nat → V → bool * V);
  visBits : option Bits;
  pathBits : option Bits;
  rand : option R
}.

(** The part of the store both traversals share: the state of the
    caller's closures, the generator [cf.rand] points to (if any), and the
    trace. *)
Record world := mkWorld {
  w_vis : V;
  w_rand : option R;
  w_trace : list event
}.

Definition log (e : event) (w : world) : world :=
  {| w_vis := w_vis w; w_rand := w_rand w; w_trace := w_trace w ++ [e] |}.

(** [if cf.nodeVisitor != nil { cf.nodeVisitor(n) }] *)
Definition visitNode (cf : config) (n : NI) (w : world) : world :=
  match nodeVisitor cf with
  | None => w
  | Some f =>
      log (CallNodeVisitor n)
        {| w_vis := f n (w_vis w); w_rand := w_rand w;
           w_trace := w_trace w |}
  end.

(** [if cf.okNodeVisitor != nil { if !cf.okNodeVisitor(n) { return } }]:
    the boolean is whether control goes on. *)
Definition visitOkNode (cf : config) (n : NI) (w : world) : bool * world :=
  match okNodeVisitor cf with
  | None => (true, w)
  | Some f =>
      let '(ok, v) := f n (w_vis w) in
      (ok, log (CallOkNodeVisitor n ok)
             {| w_vis := v; w_rand := w_rand w; w_trace := w_trace w |})
  end.

(** [cf.rand.Perm(n)] *)
Definition callPerm (r : R) (n : nat) (w : world) : list nat * world :=
  let '(p, r') := Perm r n in
  (p, {| w_vis := w_vis w; w_rand := Some r'; w_trace := w_trace w |}).

(** *** BreadthFirst *)

(** The variables of [BreadthFirst] that change: the path list [rp] (the
    backing array of [f.Paths]), [f.MaxLen], [next], and the world. *)
Record bfs_state := mkBfs {
  rp : list PathEnd;
  maxLen : Z;
  next : list NI;
  bw : world
}.

Definition bfs_world (f : world → world) (st : bfs_state) : bfs_state :=
  {| rp := rp st; maxLen := maxLen st; next := next st; bw := f (bw st) |}.

(** [if rp[nb].Len == 0 { next = append(next, nb);
                          rp[nb] = PathEnd{From: n, Len: level} }] *)
Definition bfs_arc (n : NI) (level : Z) (nb : NI) (st : bfs_state)
  : result bfs_state :=
  match at_ (rp st) nb with
  | None => Panic st
  | Some p =>
      if decide (Len p = 0) then
        let e := mkPathEnd n level in
        Ok {| rp := <[Z.to_nat nb := e]> (rp st); maxLen := maxLen st;
              next := next st ++ [nb]; bw := log (SetPath nb e) (bw st) |}
      else Ok st
  end.

(** [for _, nb := range g[n] { ... }] *)
Fixpoint bfs_arcs (n : NI) (level : Z) (to : list NI) (st : bfs_state)
  : result bfs_state :=
  match to with
  | [] => Ok st
  | nb :: to' => st' ←! bfs_arc n level nb st; bfs_arcs n level to' st'
  end.

(** The body both frontier loops share: visit [n], then scan [g[n]]. *)
Definition bfs_node (g : AdjacencyList) (cf : config) (level : Z) (n : NI)
    (st : bfs_state) : result bfs_state :=
  let st1 := bfs_world (visitNode cf n) st in
  let '(ok, w2) := visitOkNode cf n (bw st1) in
  let st2 := bfs_world (λ _, w2) st1 in
  if ok then
    match at_ g n with
    | None => Panic st2
    | Some to => bfs_arcs n level to st2
    end
  else Stop st2.

(** [for _, n := range frontier { ... }] *)
Fixpoint bfs_frontier (g : AdjacencyList) (cf : config) (level : Z)
    (frontier : list NI) (st : bfs_state) : result bfs_state :=
  match frontier with
  | [] => Ok st
  | n :: rest =>
      st' ←! bfs_node g cf level n st; bfs_frontier g cf level rest st'
  end.

(** [for _, i := range cf.rand.Perm(len(frontier)) { n := frontier[i]; ... }] *)
Fixpoint bfs_frontier_perm (g : AdjacencyList) (cf : config) (level : Z)
    (frontier : list NI) (p : list nat) (st : bfs_state)
  : result bfs_state :=
  match p with
  | [] => Ok st
  | i :: rest =>
      match frontier !! i with
      | None => Panic st
      | Some n =>
          st' ←! bfs_node g cf level n st;
          bfs_frontier_perm g cf level frontier rest st'
      end
  end.

(** The top of the outer [for]: [f.MaxLen = level; level++; var next]. *)
Definition bfs_take (level : Z) (frontier : list NI) (st : bfs_state)
  : bfs_state :=
  {| rp := rp st; maxLen := level; next := [];
     bw := log (TakeFrontier level frontier) (bw st) |}.

(** One turn of the outer [for]: its top, then one of the two frontier
    loops. *)
Definition bfs_level (g : AdjacencyList) (cf : config) (level : Z)
    (frontier : list NI) (st : bfs_state) : result bfs_state :=
  let st0 := bfs_take level frontier st in
  match w_rand (bw st0) with
  | None => bfs_frontier g cf (level + 1) frontier st0
  | Some r =>
      let '(p, w) := callPerm r (length frontier) (bw st0) in
      bfs_frontier_perm g cf (level + 1) frontier p (bfs_world (λ _, w) st0)
  end.

(** The outer [for], which ends at [len(next) == 0]. *)
Fixpoint bfs_loop (fuel : nat) (g : AdjacencyList) (cf : config)
    (level : Z) (frontier : list NI) (st : bfs_state) : result bfs_state :=
  match fuel with
  | O => Diverge
  | S fuel' =>
      st' ←! bfs_level g cf level frontier st;
      match next st' with
      | [] => Ok st'
      | _ => bfs_loop fuel' g cf (level + 1) (next st') st'
      end
  end.

(** The tree [BreadthFirst] works on, after the [switch]. *)
Definition bfs_tree (g : AdjacencyList) (cf : config) : FromList :=
  match fromList cf with
  | None => NewFromList (length g)
  | Some f =>
      match Paths f with
      | None => NewFromList (length g)
      | Some _ => f
      end
  end.

Definition tree_paths (f : FromList) : list PathEnd :=
  default [] (Paths f).

(** The tree as the state of a run has it. *)
Definition bfs_result (f : FromList) (st : bfs_state) : FromList :=
  {| Paths := Some (rp st); Leaves := Leaves f; MaxLen := maxLen st |}.

(** [func (g AdjacencyList) BreadthFirst(start NI, opt ...TraverseOption)],
    from the configuration the options built and the initial state [v] of
    the caller's closures.  Every turn of the outer loop but the last
    gives a length to an entry of [rp] that had none, so one more turn
    than [rp] has entries is fuel enough ([BreadthFirst_terminates]). *)
Definition BreadthFirst (g : AdjacencyList) (cf : config) (v : V)
  : result bfs_state :=
  let f := bfs_tree g cf in
  let p := tree_paths f in
  let w := {| w_vis := v; w_rand := rand cf; w_trace := [] |} in
  let st := {| rp := p; maxLen := MaxLen f; next := []; bw := w |} in
  let e := mkPathEnd (-1) 1 in
  match upd p (start cf) e with
  | None => Panic st
  | Some p' =>
      bfs_loop (S (length p)) g cf 1 [start cf]
        {| rp := p'; maxLen := MaxLen f; next := [];
           bw := log (SetPath (start cf) e) w |}
  end.

(** *** DepthFirst *)

(** [if cf.arcVisitor != nil { cf.arcVisitor(n, x) }] *)
Definition visitArc (cf : config) (n : NI) (x : nat) (w : world) : world :=
  match arcVisitor cf with
  | None => w
  | Some f =>
      log (CallArcVisitor n x)
        {| w_vis := f n x (w_vis w); w_rand := w_rand w;
           w_trace := w_trace w |}
  end.

(** [if cf.okArcVisitor != nil { if !cf.okArcVisitor(n, x) { return false } }]:
    the boolean is whether control goes on. *)
Definition visitOkArc (cf : config) (n : NI) (x : nat) (w : world)
  : bool * world :=
  match okArcVisitor cf with
  | None => (true, w)
  | Some f =>
      let '(ok, v) := f n x (w_vis w) in
      (ok, log (CallOkArcVisitor n x ok)
             {| w_vis := v; w_rand := w_rand w; w_trace := w_trace w |})
  end.

(** The variables of [DepthFirst] that change: the bitset [b] of visited
    nodes, the bitset [cf.pathBits] points to (if any), and the world. *)
Record dfs_state := mkDfs {
  vis : Bits;
  path : option Bits;
  dw : world
}.

Definition dfs_world (f : world → world) (st : dfs_state) : dfs_state :=
  {| vis := vis st; path := path st; dw := f (dw st) |}.

(** [if cf.pathBits != nil { cf.pathBits.SetBit(int(n), v) }] *)
Definition setPathBit (n : NI) (v : Z) (st : dfs_state) : option dfs_state :=
  match path st with
  | None => Some st
  | Some pb =>
      pb' ← bits.SetBit pb n v;
      Some {| vis := vis st; path := Some pb'; dw := dw st |}
  end.

(** The body both arc loops share, for the arc of index [x] of node [n];
    [to] is its end ([None] when [to[x]] is out of range, which the code
    finds out only after the visitors ran); [df] is the recursive call. *)
Definition dfs_arc (df : NI → dfs_state → result dfs_state) (cf : config)
    (n : NI) (x : nat) (to : option NI) (st : dfs_state)
  : result dfs_state :=
  let st1 := dfs_world (visitArc cf n x) st in
  let '(ok, w2) := visitOkArc cf n x (dw st1) in
  let st2 := dfs_world (λ _, w2) st1 in
  if ok then
    match to with
    | None => Panic st2
    | Some t =>
        match bits.Bit (vis st2) t with
        | None => Panic st2
        | Some v => if decide (v ≠ 0) then Ok st2 else df t st2
        end
    end
  else Stop st2.

(** [for x, to := range g[n] { ... }] *)
Fixpoint dfs_arcs (df : NI → dfs_state → result dfs_state) (cf : config)
    (n : NI) (x : nat) (to : list NI) (st : dfs_state)
  : result dfs_state :=
  match to with
  | [] => Ok st
  | t :: rest =>
      st' ←! dfs_arc df cf n x (Some t) st;
      dfs_arcs df cf n (S x) rest st'
  end.

(** [for _, x := range cf.rand.Perm(len(to)) { ... to[x] ... }] *)
Fixpoint dfs_arcs_perm (df : NI → dfs_state → result dfs_state)
    (cf : config) (n : NI) (to : list NI) (p : list nat) (st : dfs_state)
  : result dfs_state :=
  match p with
  | [] => Ok st
  | x :: rest =>
      st' ←! dfs_arc df cf n x (to !! x) st;
      dfs_arcs_perm df cf n to rest st'
  end.

(** The closure [df]; [Ok] is its [return true], [Stop] its
    [return false]. *)
Fixpoint df (fuel : nat) (g : AdjacencyList) (cf : config) (n : NI)
    (st : dfs_state) : result dfs_state :=
  match fuel with
  | O => Diverge
  | S fuel' =>
      match bits.SetBit (vis st) n 1 with
      | None => Panic st
      | Some b =>
          let st1 := {| vis := b; path := path st; dw := dw st |} in
          match setPathBit n 1 st1 with
          | None => Panic st1
          | Some st2 =>
              let st3 := dfs_world (visitNode cf n) st2 in
              let '(ok, w) := visitOkNode cf n (dw st3) in
              let st4 := dfs_world (λ _, w) st3 in
              if ok then
                match at_ g n with
                | None => Panic st4
                | Some to =>
                    st5 ←! match w_rand (dw st4) with
                           | None => dfs_arcs (df fuel' g cf) cf n 0 to st4
                           | Some r =>
                               let '(p, w') :=
                                 callPerm r (length to) (dw st4) in
                               dfs_arcs_perm (df fuel' g cf) cf n to p
                                 (dfs_world (λ _, w') st4)
                           end;
                    match setPathBit n 0 st5 with
                    | None => Panic st5
                    | Some st6 => Ok st6
                    end
                end
              else Stop st4
          end
      end
  end.

(** [func (g AdjacencyList) DepthFirst(start NI, options ...TraverseOption)],
    from the configuration the options built and the initial state [v] of
    the caller's closures.  [df] sets a bit of [b] that was clear before it
    calls itself, so one more level of calls than [b] has bits is fuel
    enough ([DepthFirst_terminates]).  The result of [df(cf.start)] is
    dropped by the code; the model keeps it, to tell a traversal a visitor
    stopped from one that ran to its end. *)
Definition DepthFirst (g : AdjacencyList) (cf : config) (v : V)
  : result dfs_state :=
  let w := {| w_vis := v; w_rand := rand cf; w_trace := [] |} in
  let run (b : Bits) :=
    df (S (length b)) g cf (start cf)
      {| vis := b; path := bits.ClearAll <$> pathBits cf; dw := w |} in
  match visBits cf with
  | None => run (bits.New (length g))
  | Some b =>
      let st := {| vis := b; path := pathBits cf; dw := w |} in
      match bits.Bit b (start cf) with
      | None => Panic st
      | Some x => if decide (x ≠ 0) then Ok st else run b
      end
  end.

End Traverse.

Arguments config : clear implicits.
Arguments world : clear implicits.
Arguments bfs_state : clear implicits.
Arguments dfs_state : clear implicits.

(** *** The options *)

(** Modelled from the spec: the option constructors ([From], [NodeVisitor],
    [OkNodeVisitor], [ArcVisitor], [OkArcVisitor], [Visited], [PathBits],
    [Rand]) are not among the sources.  The configuration is "a flat option
    set", "an immutable, mergeable record of optional fields (each
    independently absent/present)": an option sets the field of its name,
    and nothing else.  An argument may be nil. *)
Inductive TraverseOption (V R : Type) :=
  | OptFrom (f : option FromList)
  | OptNodeVisitor (v : option (NI → V → V))
  | OptOkNodeVisitor (v : option (NI → V → bool * V))
  | OptArcVisitor (v : option (NI → nat → V → V))
  | OptOkArcVisitor (v : option (NI → nat → V → bool * V))
  | OptVisited (b : option Bits)
  | OptPathBits (b : option Bits)
  | OptRand (r : option R).
Arguments OptFrom {V R} f.
Arguments OptNodeVisitor {V R} v.
Arguments OptOkNodeVisitor {V R} v.
Arguments OptArcVisitor {V R} v.
Arguments OptOkArcVisitor {V R} v.
Arguments OptVisited {V R} b.
Arguments OptPathBits {V R} b.
Arguments OptRand {V R} r.

(** [o(cf)] *)
Definition applyOption {V R} (cf : config V R) (o : TraverseOption V R)
  : config V R :=
  match o with
  | OptFrom f =>
      mkConfig (start cf) f (nodeVisitor cf) (okNodeVisitor cf)
        (arcVisitor cf) (okArcVisitor cf) (visBits cf) (pathBits cf) (rand cf)
  | OptNodeVisitor v =>
      mkConfig (start cf) (fromList cf) v (okNodeVisitor cf)
        (arcVisitor cf) (okArcVisitor cf) (visBits cf) (pathBits cf) (rand cf)
  | OptOkNodeVisitor v =>
      mkConfig (start cf) (fromList cf) (nodeVisitor cf) v
        (arcVisitor cf) (okArcVisitor cf) (visBits cf) (pathBits cf) (rand cf)
  | OptArcVisitor v =>
      mkConfig (start cf) (fromList cf) (nodeVisitor cf) (okNodeVisitor cf)
        v (okArcVisitor cf) (visBits cf) (pathBits cf) (rand cf)
  | OptOkArcVisitor v =>
      mkConfig (start cf) (fromList cf) (nodeVisitor cf) (okNodeVisitor cf)
        (arcVisitor cf) v (visBits cf) (pathBits cf) (rand cf)
  | OptVisited b =>
      mkConfig (start cf) (fromList cf) (nodeVisitor cf) (okNodeVisitor cf)
        (arcVisitor cf) (okArcVisitor cf) b (pathBits cf) (rand cf)
  | OptPathBits b =>
      mkConfig (start cf) (fromList cf) (nodeVisitor cf) (okNodeVisitor cf)
        (arcVisitor cf) (okArcVisitor cf) (visBits cf) b (rand cf)
  | OptRand r =>
      mkConfig (start cf) (fromList cf) (nodeVisitor cf) (okNodeVisitor cf)
        (arcVisitor cf) (okArcVisitor cf) (visBits cf) (pathBits cf) r
  end.

(** [cf := &config{start: start}; for _, o := range opt { o(cf) }], the
    opening lines of both traversals. *)
Definition configure {V R} (start : NI) (opt : list (TraverseOption V R))
  : config V R :=
  foldl applyOption
    (mkConfig start None None None None None None None None) opt.

(** The options the doc comment of [BreadthFirst] lists as supported. *)
Definition bfs_supported {V R} (o : TraverseOption V R) : bool :=
  match o with
  | OptFrom _ | OptNodeVisitor _ | OptOkNodeVisitor _ | OptRand _ => true
  | OptArcVisitor _ | OptOkArcVisitor _ | OptVisited _ | OptPathBits _ => false
  end.

(** ** The graph utilities the claims use *)

(** The inner loop of [BoundsOk]: the first arc end outside of [0, n). *)
Fixpoint BoundsOk_arcs (n : NI) (to : list NI) : option NI :=
  match to with
  | [] => None
  | t :: rest =>
      if decide (t < 0 ∨ n ≤ t) then Some t else BoundsOk_arcs n rest
  end.

(** The outer loop of [BoundsOk], at node [fr] with the lists [g] left. *)
Fixpoint BoundsOk_from (n : NI) (fr : Z) (g : list (list NI))
  : bool * NI * NI :=
  match g with
  | [] => (true, -1, 0)
  | to :: rest =>
      match BoundsOk_arcs n to with
      | Some t => (false, toNI fr, t)
      | None => BoundsOk_from n (fr + 1) rest
      end
  end.

(** [func (g AdjacencyList) BoundsOk() (ok bool, fr NI, to NI)] *)
Definition BoundsOk (g : AdjacencyList) : bool * NI * NI :=
  BoundsOk_from (toNI (Z.of_nat (length g))) 0 g.

(** [last := len(ut) - 1; ut[i] = ut[last]; ... ut[:last]], inside the
    loop over [ut], where [ut] is not empty. *)
Definition swap_remove (ut : list NI) (i : nat) : list NI :=
  let last := (length ut - 1)%nat in
  match ut !! last with
  | None => ut
  | Some u => take last (<[i := u]> ut)
  end.

(** [for i, u := range ut { if u == NI(fr) { ... continue arc } }]: the
    index of the first [fr] in [ut]. *)
Fixpoint find_reciprocal (fr : NI) (i : nat) (ut : list NI) : option nat :=
  match ut with
  | [] => None
  | u :: rest =>
      if decide (u = fr) then Some i else find_reciprocal fr (S i) rest
  end.

(** The body of the loop [arc] of [IsUndirected]; [None] is a panic. *)
Definition IsUndirected_arc (fr : Z) (to : NI) (unpaired : AdjacencyList)
  : option AdjacencyList :=
  if decide (to = toNI fr) then Some unpaired
  else
    ut ← at_ unpaired to;
    match find_reciprocal (toNI fr) 0 ut with
    | Some i => Some (<[Z.to_nat to := swap_remove ut i]> unpaired)
    | None =>
        ufr ← at_ unpaired fr;
        Some (<[Z.to_nat fr := ufr ++ [to]]> unpaired)
    end.

(** [for _, to := range to { ... }] *)
Fixpoint IsUndirected_arcs (fr : Z) (to : list NI) (unpaired : AdjacencyList)
  : option AdjacencyList :=
  match to with
  | [] => Some unpaired
  | t :: rest =>
      unpaired' ← IsUndirected_arc fr t unpaired;
      IsUndirected_arcs fr rest unpaired'
  end.

(** [for fr, to := range g { ... }] *)
Fixpoint IsUndirected_nodes (fr : Z) (g : list (list NI))
    (unpaired : AdjacencyList) : option AdjacencyList :=
  match g with
  | [] => Some unpaired
  | to :: rest =>
      unpaired' ← IsUndirected_arcs fr to unpaired;
      IsUndirected_nodes (fr + 1) rest unpaired'
  end.

(** [for fr, to := range unpaired { if len(to) > 0 { return false, ... } }] *)
Fixpoint first_unpaired (fr : Z) (unpaired : list (list NI))
  : bool * NI * NI :=
  match unpaired with
  | [] => (true, -1, -1)
  | [] :: rest => first_unpaired (fr + 1) rest
  | (t :: _) :: _ => (false, toNI fr, t)
  end.

(** [func (g AdjacencyList) IsUndirected() (u bool, from, to NI)];
    [None] is a panic. *)
Definition IsUndirected (g : AdjacencyList) : option (bool * NI * NI) :=
  unpaired ← IsUndirected_nodes 0 g (replicate (length g) []);
  Some (first_unpaired 0 unpaired).

(** ** The FromList operations

    [fromlist.go] is not among the sources; its examples
    ([fromlist_test.go]) are.  The operations the claims are about are
    modelled from section 4.2 of the specification, and agree with the
    examples. *)

(** Modelled from the spec: [FromList.BoundsOk], "verify every non-root
    entry's parent is a valid node identifier within range; returns the
    offending node on failure".  The loop, at node [n] with the entries
    [paths] left, for a list of [len] entries. *)
Fixpoint FromList_BoundsOk_from (len : Z) (n : Z) (paths : list PathEnd)
  : bool * NI :=
  match paths with
  | [] => (true, -1)
  | e :: rest =>
      if decide (From e = -1 ∨ 0 ≤ From e < len)
      then FromList_BoundsOk_from len (n + 1) rest
      else (false, toNI n)
  end.

Definition FromList_BoundsOk (paths : list PathEnd) : bool * NI :=
  FromList_BoundsOk_from (Z.of_nat (length paths)) 0 paths.

(** Modelled from the spec: the loop of [PathTo], "walk parent pointers from
    the target back to its root", into a buffer of the "recorded path
    length", filled from its end so that it reads "in root-to-target
    order".  [n] places of [p] are left to fill; [None] is a panic. *)
Fixpoint PathTo_fill (paths : list PathEnd) (n : nat) (end_ : NI)
    (p : list NI) : option (list NI) :=
  match n with
  | O => Some p
  | S n' =>
      let p' := <[n' := end_]> p in
      if decide (n' = O) then Some p'
      else e ← at_ paths end_; PathTo_fill paths n' (From e) p'
  end.

(** Modelled from the spec: [PathTo], "given a target node and an optional
    reusable output buffer [...].  If the buffer is undersized or absent,
    allocate one sized to the node's recorded path length." *)
Definition PathTo (paths : list PathEnd) (end_ : NI) (p : option (list NI))
  : option (list NI) :=
  e ← at_ paths end_;
  if decide (Len e < 0) then None
  else
    let n := Z.to_nat (Len e) in
    let buf :=
      match p with
      | Some b => if decide (n ≤ length b)%nat then take n b
                  else replicate n 0
      | None => replicate n 0
      end in
    PathTo_fill paths n end_ buf.

(** Modelled from the spec: the first loop of [CommonAncestor], "walk the
    deeper node up until both are at equal depth (using recorded
    lengths)". *)
Fixpoint walk_up (fuel : nat) (paths : list PathEnd) (a : NI) (depth : Z)
  : option NI :=
  match fuel with
  | O => None
  | S fuel' =>
      e ← at_ paths a;
      if decide (Len e ≤ depth) then Some a
      else walk_up fuel' paths (From e) depth
  end.

(** Modelled from the spec: the second loop of [CommonAncestor], "walk both
    up in lockstep comparing node identifiers until they match or both reach
    a root; if no match, there is no common ancestor", which is the
    sentinel -1. *)
Fixpoint lockstep (fuel : nat) (paths : list PathEnd) (a b : NI)
  : option NI :=
  match fuel with
  | O => None
  | S fuel' =>
      if decide (a = b) then Some a
      else
        ea ← at_ paths a;
        eb ← at_ paths b;
        if decide (From ea = -1 ∧ From eb = -1) then Some (-1)
        else lockstep fuel' paths (From ea) (From eb)
  end.

(** Modelled from the spec: [CommonAncestor].  Each turn of either loop moves
    to a parent, whose recorded length is smaller in a valid tree: the
    recorded lengths are fuel enough ([CommonAncestor_lca]). *)
Definition CommonAncestor (paths : list PathEnd) (a b : NI) : option NI :=
  ea ← at_ paths a;
  eb ← at_ paths b;
  let fuel := S (Z.to_nat (Len ea) + Z.to_nat (Len eb)) in
  if decide (Len ea < Len eb) then
    b' ← walk_up fuel paths b (Len ea); lockstep fuel paths a b'
  else
    a' ← walk_up fuel paths a (Len eb); lockstep fuel paths a' b.

(** Modelled from the spec: the loop of [RecalcLeaves], "for every node with
    a non-root parent, clear the parent's bit". *)
Fixpoint RecalcLeaves_from (paths : list PathEnd) (lv : Bits) : option Bits :=
  match paths with
  | [] => Some lv
  | e :: rest =>
      if decide (From e = -1) then RecalcLeaves_from rest lv
      else lv' ← bits.SetBit lv (From e) 0; RecalcLeaves_from rest lv'
  end.

(** Modelled from the spec: [RecalcLeaves], "reset the Leaves bitset to all
    set, then [...]", on a bitset of the capacity of the node count. *)
Definition RecalcLeaves (paths : list PathEnd) : option Bits :=
  RecalcLeaves_from paths (bits.SetAll (bits.New (length paths))).

(** Modelled from the spec: "walk up through parents" from [n] to "the
    leaf's own root-most ancestor": [n] first, the root last. *)
Fixpoint chain_up (fuel : nat) (paths : list PathEnd) (n : NI)
  : option (list NI) :=
  match fuel with
  | O => None
  | S fuel' =>
      e ← at_ paths n;
      if decide (From e = -1) then Some [n]
      else c ← chain_up fuel' paths (From e); Some (n :: c)
  end.

(** Modelled from the spec: "recording length = 1 at the leaf's own
    root-most ancestor and incrementing outward", along a chain given root
    first. *)
Fixpoint record_lens (paths : list PathEnd) (chain : list NI) (l : Z)
  : option (list PathEnd) :=
  match chain with
  | [] => Some paths
  | n :: rest =>
      e ← at_ paths n;
      paths' ← upd paths n (mkPathEnd (From e) l);
      record_lens paths' rest (l + 1)
  end.

(** Modelled from the spec: the loop of [RecalcLen], "for every leaf", at
    node [n] with the bits [lv] left; "also recomputes MaxLen as the maximum
    length seen".  A walk that finds no root within as many steps as there
    are nodes is in a cycle: [None]. *)
Fixpoint RecalcLen_from (n : Z) (lv : list bool) (paths : list PathEnd)
    (maxlen : Z) : option (list PathEnd * Z) :=
  match lv with
  | [] => Some (paths, maxlen)
  | false :: rest => RecalcLen_from (n + 1) rest paths maxlen
  | true :: rest =>
      c ← chain_up (length paths) paths n;
      paths' ← record_lens paths (rev c) 1;
      RecalcLen_from (n + 1) rest paths' (Z.max maxlen (Z.of_nat (length c)))
  end.

(** Modelled from the spec: [RecalcLen], which "requires Leaves to be
    current". *)
Definition RecalcLen (f : FromList) : option FromList :=
  paths ← Paths f;
  '(paths', maxlen) ← RecalcLen_from 0 (Leaves f) paths 0;
  Some {| Paths := Some paths'; Leaves := Leaves f; MaxLen := maxlen |}.

(** [RecalcLeaves] as the method on the tree. *)
Definition FromList_RecalcLeaves (f : FromList) : option FromList :=
  paths ← Paths f;
  lv ← RecalcLeaves paths;
  Some {| Paths := Paths f; Leaves := lv; MaxLen := MaxLen f |}.

(** [g[n] = append(g[n], to)] *)
Definition add_arc (g : AdjacencyList) (n : Z) (to : NI)
  : option AdjacencyList :=
  l ← at_ g n; upd g n (l ++ [to]).

(** Modelled from the spec: the loop of [Undirected], at node [n] with the
    entries [paths] left: "for every non-root node, both the forward arc
    (parent→child) and its reciprocal (child→parent) are present; a node that
    is its own root (from == node, a self-loop root marker) still yields one
    loop arc".  The order of the two arcs is the one of
    [ExampleFromList_Undirected]. *)
Fixpoint Undirected_from (n : Z) (paths : list PathEnd) (g : AdjacencyList)
  : option AdjacencyList :=
  match paths with
  | [] => Some g
  | e :: rest =>
      if decide (From e = -1) then Undirected_from (n + 1) rest g
      else
        g1 ← (if decide (From e = toNI n) then Some g
              else add_arc g n (From e));
        g2 ← add_arc g1 (From e) (toNI n);
        Undirected_from (n + 1) rest g2
  end.

(** Modelled from the spec: [Undirected], "conversion to undirected
    graph". *)
Definition Undirected (paths : list PathEnd) : option AdjacencyList :=
  Undirected_from 0 paths (replicate (length paths) []).
(** ** The other utilities of [adj_RO.go] and [adj.go]

    The arc lists of a graph are taken to be separate arrays: no two of
    them share memory.  Where a method writes to the arc lists in place,
    the model gives the graph the method leaves. *)

(** [for _, to := range g { m += len(to) }], with [m] so far.  The sum of
    the lengths of slices in memory is within a Go [int]. *)
Fixpoint ArcSize_from (m : Z) (g : list (list NI)) : Z :=
  match g with
  | [] => m
  | to :: rest => ArcSize_from (m + Z.of_nat (length to)) rest
  end.

(** [func (g AdjacencyList) ArcSize() int] *)
Definition ArcSize (g : AdjacencyList) : Z := ArcSize_from 0 g.

(** [for n, to := range g { c[n] = append([]NI{}, to...); ma += len(to) }],
    at node [n] with the lists [g] left. *)
Fixpoint Copy_from (n : Z) (g : list (list NI)) (c : AdjacencyList) (ma : Z)
  : option (AdjacencyList * Z) :=
  match g with
  | [] => Some (c, ma)
  | to :: rest =>
      c' ← upd c n ([] ++ to);
      Copy_from (n + 1) rest c' (ma + Z.of_nat (length to))
  end.

(** [func (g AdjacencyList) Copy() (c AdjacencyList, ma int)] *)
Definition Copy (g : AdjacencyList) : option (AdjacencyList * Z) :=
  Copy_from 0 g (replicate (length g) []) 0.

(** [for x, h := range g[fr] { if h == to { return true, x } }] *)
Fixpoint HasArc_from (x : Z) (l : list NI) (to : NI) : bool * Z :=
  match l with
  | [] => (false, -1)
  | h :: rest => if decide (h = to) then (true, x) else HasArc_from (x + 1) rest to
  end.

(** [func (g AdjacencyList) HasArc(fr, to NI) (bool, int)]; [None] is the
    panic of [g[fr]]. *)
Definition HasArc (g : AdjacencyList) (fr to : NI) : option (bool * Z) :=
  l ← at_ g fr; Some (HasArc_from 0 l to).

(** [for x, h := range g[fr] { if h == to { p = append(p, x) } }] *)
Fixpoint ParallelArcs_from (x : Z) (l : list NI) (to : NI) (p : list Z)
  : list Z :=
  match l with
  | [] => p
  | h :: rest =>
      ParallelArcs_from (x + 1) rest to (if decide (h = to) then p ++ [x] else p)
  end.

(** [func (g AdjacencyList) ParallelArcs(fr, to NI) (p []int)] *)
Definition ParallelArcs (g : AdjacencyList) (fr to : NI) : option (list Z) :=
  l ← at_ g fr; Some (ParallelArcs_from 0 l to []).

(** [for _, to := range to { if NI(fr) == to { return true, to } }] *)
Fixpoint AnyLoop_arcs (fr : Z) (to : list NI) : option NI :=
  match to with
  | [] => None
  | t :: rest => if decide (toNI fr = t) then Some t else AnyLoop_arcs fr rest
  end.

(** [for fr, to := range g { ... }] *)
Fixpoint AnyLoop_from (fr : Z) (g : list (list NI)) : bool * NI :=
  match g with
  | [] => (false, -1)
  | to :: rest =>
      match AnyLoop_arcs fr to with
      | Some t => (true, t)
      | None => AnyLoop_from (fr + 1) rest
      end
  end.

(** [func (g AdjacencyList) AnyLoop() (bool, NI)] *)
Definition AnyLoop (g : AdjacencyList) : bool * NI := AnyLoop_from 0 g.

(** [for _, to := range to { if _, ok := m[to]; ok { return ... };
    m[to] = struct{}{} }]: the map [m] is a set of nodes. *)
Fixpoint AnyParallelMap_arcs (m : gset NI) (to : list NI) : option NI :=
  match to with
  | [] => None
  | t :: rest =>
      if decide (t ∈ m) then Some t else AnyParallelMap_arcs ({[t]} ∪ m) rest
  end.

(** [for n, to := range g { if len(to) == 0 { continue }; m := ...; ... }] *)
Fixpoint AnyParallelMap_from (n : Z) (g : list (list NI)) : bool * NI * NI :=
  match g with
  | [] => (false, -1, -1)
  | to :: rest =>
      if decide (length to = 0%nat) then AnyParallelMap_from (n + 1) rest
      else
        match AnyParallelMap_arcs ∅ to with
        | Some t => (true, toNI n, t)
        | None => AnyParallelMap_from (n + 1) rest
        end
  end.

(** [func (g AdjacencyList) AnyParallelMap() (has bool, fr, to NI)] *)
Definition AnyParallelMap (g : AdjacencyList) : bool * NI * NI :=
  AnyParallelMap_from 0 g.

(** [sort.Sort(t)] on a [nodeList], whose [Less] is [l[i] < l[j]]: the
    package [sort] is not among the sources.  Whichever way it sorts, what
    it leaves is the one ascending arrangement of the numbers of [t]. *)
Definition sort_Sort (t : list NI) : list NI := merge_sort (≤) t.

(** [for _, to := range t[1:] { if to == t0 { return true, NI(n), t0 };
    t0 = to }] *)
Fixpoint AnyParallelSort_scan (t0 : NI) (t : list NI) : option NI :=
  match t with
  | [] => None
  | to :: rest =>
      if decide (to = t0) then Some t0 else AnyParallelSort_scan to rest
  end.

(** [for n, to := range g { if len(to) == 0 { continue };
    t = append(t[:0], to...); sort.Sort(t); t0 := t[0]; ... }];
    [None] is the panic of [t[0]]. *)
Fixpoint AnyParallelSort_from (n : Z) (g : list (list NI))
  : option (bool * NI * NI) :=
  match g with
  | [] => Some (false, -1, -1)
  | to :: rest =>
      if decide (length to = 0%nat) then AnyParallelSort_from (n + 1) rest
      else
        let t := sort_Sort ([] ++ to) in
        t0 ← at_ t 0;
        match AnyParallelSort_scan t0 (drop 1 t) with
        | Some d => Some (true, toNI n, d)
        | None => AnyParallelSort_from (n + 1) rest
        end
  end.

(** [func (g AdjacencyList) AnyParallelSort() (has bool, fr, to NI)] *)
Definition AnyParallelSort (g : AdjacencyList) : option (bool * NI * NI) :=
  AnyParallelSort_from 0 g.

(** [func (g AdjacencyList) IsSimple() (ok bool, n NI)] *)
Definition IsSimple (g : AdjacencyList) : option (bool * NI) :=
  let '(lp, n) := AnyLoop g in
  if lp then Some (false, n)
  else
    '(pa, n, _) ← AnyParallelSort g;
    if pa : bool then Some (false, n) else Some (true, -1).

(** [for _, to := range to { i.SetBit(int(to), 0) }] *)
Fixpoint IsolatedNodes_arcs (to : list NI) (i : Bits) : option Bits :=
  match to with
  | [] => Some i
  | t :: rest => i' ← bits.SetBit i t 0; IsolatedNodes_arcs rest i'
  end.

(** [for fr, to := range g { if len(to) > 0 { i.SetBit(fr, 0); ... } }] *)
Fixpoint IsolatedNodes_from (fr : Z) (g : list (list NI)) (i : Bits)
  : option Bits :=
  match g with
  | [] => Some i
  | to :: rest =>
      i' ← (if decide (0 < length to)%nat
            then i1 ← bits.SetBit i fr 0; IsolatedNodes_arcs to i1
            else Some i);
      IsolatedNodes_from (fr + 1) rest i'
  end.

(** [func (g AdjacencyList) IsolatedNodes() (i bits.Bits)]; [None] is a
    panic of [SetBit]. *)
Definition IsolatedNodes (g : AdjacencyList) : option Bits :=
  IsolatedNodes_from 0 g (bits.SetAll (bits.New (length g))).

(** [func (g AdjacencyList) Order() int] *)
Definition Order (g : AdjacencyList) : Z := Z.of_nat (length g).

(** [for i, to := range arcs { arcs[i] = NI(p[to]) }]: every entry is read
    before it is written, and no other.  [None] is the panic of [p[to]]. *)
Fixpoint Permute_arcs (p : list Z) (arcs : list NI) : option (list NI) :=
  match arcs with
  | [] => Some []
  | to :: rest =>
      x ← at_ p to; rest' ← Permute_arcs p rest; Some (toNI x :: rest')
  end.

(** The loop of [Permute], [for fr, arcs := range old { ...;
    g[p[fr]] = arcs }].  [old], the shallow copy, and [g] hold slices of
    the same arrays: [rows] are the arrays, [old] (what is left of it) and
    [g] tell which array the arc list of a node is. *)
Fixpoint Permute_from (p : list Z) (old : list nat) (fr : Z)
    (rows : list (list NI)) (g : list nat)
  : option (list (list NI) * list nat) :=
  match old with
  | [] => Some (rows, g)
  | a :: rest =>
      arcs ← rows !! a;
      arcs' ← Permute_arcs p arcs;
      pfr ← at_ p fr;
      g' ← upd g pfr a;
      Permute_from p rest (fr + 1) (<[a := arcs']> rows) g'
  end.

(** [func (g AdjacencyList) Permute(p []int)]: the graph it leaves.  At
    first the arc list of node [n] is the array [n]. *)
Definition Permute (g : AdjacencyList) (p : list Z) : option AdjacencyList :=
  '(rows, g') ← Permute_from p (seq 0 (length g)) 0 g (seq 0 (length g));
  mapM (λ a, rows !! a) g'.

Section Shuffle.
(** [rand.Intn], of the generator [r] or of the shared source of the
    package when [r] is nil: in both cases a generator state. *)
Context {R : Type} (Intn : R → Z → Z * R).

(** [for i := len(to); i > 1; { j := ri(i); i--;
    to[i], to[j] = to[j], to[i] }], at [i]. *)
Fixpoint shuffle (i : nat) (to : list NI) (r : R) : option (list NI * R) :=
  match i with
  | O => Some (to, r)
  | S i' =>
      if decide (1 < Z.of_nat i) then
        let '(j, r') := Intn r (Z.of_nat i) in
        tj ← at_ to j;
        ti ← at_ to (Z.of_nat i');
        to1 ← upd to (Z.of_nat i') tj;
        to2 ← upd to1 j ti;
        shuffle i' to2 r'
      else Some (to, r)
  end.

(** [func (g AdjacencyList) ShuffleArcLists(r *rand.Rand)]: the graph it
    leaves, and the generator. *)
Fixpoint ShuffleArcLists (g : list (list NI)) (r : R)
  : option (AdjacencyList * R) :=
  match g with
  | [] => Some ([], r)
  | to :: rest =>
      '(to', r') ← shuffle (length to) to r;
      '(rest', r'') ← ShuffleArcLists rest r';
      Some (to' :: rest', r'')
  end.
End Shuffle.


(** * Facts *)

(** ** Indexing *)

Lemma at_Some {A} (l : list A) (i : Z) (x : A) :
  at_ l i = Some x ↔ 0 ≤ i ∧ l !! Z.to_nat i = Some x.
Proof.
  unfold at_. destruct (decide (0 ≤ i)); [tauto|].
  split; [done | tauto].
Qed.

Lemma at_is_Some {A} (l : list A) (i : Z) :
  is_Some (at_ l i) ↔ 0 ≤ i < Z.of_nat (length l).
Proof.
  unfold at_. case_decide.
  - rewrite lookup_lt_is_Some. lia.
  - split; [intros [? ?]; done | lia].
Qed.

Lemma at_None {A} (l : list A) (i : Z) :
  at_ l i = None ↔ ¬ (0 ≤ i < Z.of_nat (length l)).
Proof. rewrite <- at_is_Some, eq_None_not_Some. done. Qed.

Lemma at_insert_eq {A} (l : list A) (i : Z) (x : A) :
  0 ≤ i < Z.of_nat (length l) → at_ (<[Z.to_nat i := x]> l) i = Some x.
Proof.
  intros ?. apply at_Some. split; [lia|].
  apply list_lookup_insert_eq. lia.
Qed.

Lemma at_insert_ne {A} (l : list A) (i j : Z) (x : A) :
  0 ≤ i → i ≠ j → at_ (<[Z.to_nat i := x]> l) j = at_ l j.
Proof.
  intros ? ?. unfold at_. case_decide; [|done].
  apply list_lookup_insert_ne. lia.
Qed.

Lemma at_of_nat {A} (l : list A) (i : nat) : at_ l (Z.of_nat i) = l !! i.
Proof. unfold at_. case_decide; [|lia]. by rewrite Nat2Z.id. Qed.

Lemma upd_Some {A} (l l' : list A) (i : Z) (x : A) :
  upd l i x = Some l' ↔
  0 ≤ i < Z.of_nat (length l) ∧ l' = <[Z.to_nat i := x]> l.
Proof.
  unfold upd. destruct (decide (0 ≤ i < Z.of_nat (length l))).
  - split; [intros [= <-]; done | intros [_ ->]; done].
  - split; [done | tauto].
Qed.

Lemma upd_is_Some {A} (l : list A) (i : Z) (x : A) :
  is_Some (upd l i x) ↔ 0 ≤ i < Z.of_nat (length l).
Proof.
  unfold upd. destruct (decide (0 ≤ i < Z.of_nat (length l))).
  - split; [done | eauto].
  - split; [intros [? ?]; done | done].
Qed.

(** ** The conversion to [int32] *)

Lemma toNI_small (x : Z) : - 2 ^ 31 ≤ x < 2 ^ 31 → toNI x = x.
Proof. intros ?. unfold toNI. rewrite Z.mod_small; lia. Qed.

Lemma toNI_le (x : Z) : 0 ≤ x → toNI x ≤ x.
Proof.
  intros ?. unfold toNI.
  pose proof (Z.mod_le (x + 2 ^ 31) (2 ^ 32)). lia.
Qed.

(** ** Results *)

(** What holds of the state a piece of code ends in, however it ends. *)
Definition post {A} (Q : A → Prop) (r : result A) : Prop :=
  match r with
  | Ok a | Stop a | Panic a => Q a
  | Diverge => True
  end.

(** The same, of code that ends. *)
Definition ends {A} (Q : A → Prop) (r : result A) : Prop :=
  match r with
  | Ok a | Stop a | Panic a => Q a
  | Diverge => False
  end.

Arguments post {A} Q !r /.
Arguments ends {A} Q !r /.

Lemma ends_bind {A} (P Q : A → Prop) (r : result A) (k : A → result A) :
  ends P r → (∀ a, P a → Q a) → (∀ a, P a → ends Q (k a)) →
  ends Q (bind r k).
Proof. destruct r; simpl; auto. Qed.

Lemma ends_impl {A} (P Q : A → Prop) (r : result A) :
  ends P r → (∀ a, P a → Q a) → ends Q r.
Proof. destruct r; simpl; auto. Qed.

Lemma ends_post {A} (Q : A → Prop) (r : result A) : ends Q r → post Q r.
Proof. by destruct r. Qed.

Lemma post_bind {A} (P Q : A → Prop) (r : result A) (k : A → result A) :
  post P r → (∀ a, P a → Q a) → (∀ a, P a → post Q (k a)) →
  post Q (bind r k).
Proof. destruct r; simpl; auto. Qed.

Lemma post_impl {A} (P Q : A → Prop) (r : result A) :
  post P r → (∀ a, P a → Q a) → post Q r.
Proof. destruct r; simpl; auto. Qed.

Definition is_call (e : event) : Prop :=
  match e with
  | TakeFrontier _ _ | SetPath _ _ => False
  | _ => True
  end.

(** The frontiers a trace took up, with their levels, oldest first. *)
Definition frontiers (tr : list event) : list (Z * list NI) :=
  omap (λ e, match e with TakeFrontier l f => Some (l, f) | _ => None end) tr.

Lemma frontiers_calls calls : Forall is_call calls → frontiers calls = [].
Proof.
  induction 1 as [|e calls He _ IH]; [done|]. by destruct e.
Qed.

Lemma frontiers_app tr tr' : frontiers (tr ++ tr') = frontiers tr ++ frontiers tr'.
Proof. apply omap_app. Qed.

Lemma elem_of_frontiers tr level F :
  (level, F) ∈ frontiers tr ↔ TakeFrontier level F ∈ tr.
Proof.
  unfold frontiers. rewrite list_elem_of_omap. split.
  - intros (e & He & Hf). destruct e; by simplify_eq.
  - intros ?. by exists (TakeFrontier level F).
Qed.

(** The entries of a path list with no length yet. *)
Definition zeros (p : list PathEnd) : nat :=
  length (filter (λ e, Len e = 0) p).

Lemma zeros_le_length p : (zeros p ≤ length p)%nat.
Proof. apply length_filter. Qed.

Lemma zeros_insert p i e e' :
  p !! i = Some e → Len e = 0 → Len e' ≠ 0 →
  S (zeros (<[i := e']> p)) = zeros p.
Proof.
  unfold zeros. revert i.
  induction p as [|x p IH]; intros [|i] Hi He He'; simpl in Hi; simplify_eq.
  - change (<[0%nat := e']> (e :: p)) with (e' :: p).
    rewrite filter_cons_False by (simpl; congruence).
    by rewrite filter_cons_True by (simpl; congruence).
  - change (<[S i := e']> (x :: p)) with (x :: <[i := e']> p).
    destruct (decide (Len x = 0)).
    + rewrite !filter_cons_True by (simpl; congruence).
      simpl. f_equal. eauto.
    + rewrite !filter_cons_False by (simpl; congruence). eauto.
Qed.

Section BreadthFirstFrame.
Context {V R : Type} (Perm : R → nat → list nat * R).
Implicit Types (cf : config V R) (st : bfs_state V R) (w : world V R).

(** The steps of the frontier loops: visitors run and the generator is
    used, which changes the world but adds only calls to the trace; or an
    entry without length gets one, and its node is appended to [next]. *)
Inductive bfs_step : bfs_state V R → bfs_state V R → Prop :=
  | step_calls st w calls :
      Forall is_call calls →
      w_trace w = w_trace (bw st) ++ calls →
      bfs_step st (bfs_world (λ _, w) st)
  | step_set st n level nb p :
      level ≠ 0 → at_ (rp st) nb = Some p → Len p = 0 →
      bfs_step st
        {| rp := <[Z.to_nat nb := mkPathEnd n level]> (rp st);
           maxLen := maxLen st; next := next st ++ [nb];
           bw := log (SetPath nb (mkPathEnd n level)) (bw st) |}.

Definition bfs_steps := rtc bfs_step.

Lemma bfs_steps_bind st (r : result (bfs_state V R)) k :
  ends (bfs_steps st) r →
  (∀ st', bfs_steps st st' → ends (bfs_steps st') (k st')) →
  ends (bfs_steps st) (bind r k).
Proof.
  intros Hr Hk.
  apply (ends_bind (bfs_steps st) (bfs_steps st)); [exact Hr|auto|].
  intros st' Hst'. eapply ends_impl; [by apply Hk|].
  intros st'' ?. by etrans.
Qed.

Lemma bfs_arc_steps n level nb st :
  level ≠ 0 → ends (bfs_steps st) (bfs_arc n level nb st).
Proof.
  intros Hl. unfold bfs_arc.
  destruct (at_ (rp st) nb) as [p|] eqn:Hp; simpl; [|done].
  destruct (decide (Len p = 0)); simpl; [|done].
  apply rtc_once. by eapply step_set.
Qed.

Lemma bfs_arcs_steps n level to st :
  level ≠ 0 → ends (bfs_steps st) (bfs_arcs n level to st).
Proof.
  intros Hl. revert st. induction to as [|nb to IH]; intros st; simpl; [done|].
  apply bfs_steps_bind; [by apply bfs_arc_steps|auto].
Qed.

Lemma visitNode_step cf n st :
  bfs_step st (bfs_world (visitNode cf n) st).
Proof.
  unfold visitNode. destruct (nodeVisitor cf) as [f|].
  - apply (step_calls st _ [CallNodeVisitor n]); [|done].
    by repeat constructor.
  - apply (step_calls st _ []); [done|]. by rewrite app_nil_r.
Qed.

Lemma visitOkNode_step cf n st ok w :
  visitOkNode cf n (bw st) = (ok, w) →
  bfs_step st (bfs_world (λ _, w) st).
Proof.
  unfold visitOkNode. destruct (okNodeVisitor cf) as [f|].
  - destruct (f n (w_vis (bw st))) as [ok' v]. intros [= <- <-].
    apply (step_calls st _ [CallOkNodeVisitor n ok']); [|done].
    by repeat constructor.
  - intros [= <- <-]. apply (step_calls st _ []); [done|].
    by rewrite app_nil_r.
Qed.

Lemma bfs_node_steps g cf level n st :
  level ≠ 0 → ends (bfs_steps st) (bfs_node g cf level n st).
Proof.
  intros Hl. unfold bfs_node.
  pose proof (visitNode_step cf n st) as H1.
  set (st1 := bfs_world (visitNode cf n) st) in *.
  destruct (visitOkNode cf n (bw st1)) as [ok w2] eqn:Hok.
  pose proof (visitOkNode_step _ _ _ _ _ Hok) as H2.
  set (st2 := bfs_world (λ _, w2) st1) in *.
  assert (bfs_steps st st2) as H12 by (eapply rtc_l; [exact H1|by apply rtc_once]).
  destruct ok; simpl; [|done].
  destruct (at_ g n) as [to|]; simpl; [|done].
  eapply ends_impl; [by apply bfs_arcs_steps|].
  intros st' ?. by etrans.
Qed.

Lemma bfs_frontier_steps g cf level frontier st :
  level ≠ 0 → ends (bfs_steps st) (bfs_frontier g cf level frontier st).
Proof.
  intros Hl. revert st.
  induction frontier as [|n rest IH]; intros st; simpl; [done|].
  apply bfs_steps_bind; [by apply bfs_node_steps|auto].
Qed.

Lemma bfs_frontier_perm_steps g cf level frontier p st :
  level ≠ 0 →
  ends (bfs_steps st) (bfs_frontier_perm g cf level frontier p st).
Proof.
  intros Hl. revert st.
  induction p as [|i rest IH]; intros st; simpl; [done|].
  destruct (frontier !! i); simpl; [|done].
  apply bfs_steps_bind; [by apply bfs_node_steps|auto].
Qed.

(** What the steps keep. *)
Lemma bfs_steps_maxLen st st' : bfs_steps st st' → maxLen st' = maxLen st.
Proof. induction 1 as [|??? []]; simpl in *; congruence. Qed.

Lemma bfs_steps_length st st' :
  bfs_steps st st' → length (rp st') = length (rp st).
Proof.
  induction 1 as [|??? []]; simpl in *; [done|done|].
  by rewrite length_insert in *.
Qed.

Lemma bfs_steps_zeros st st' :
  bfs_steps st st' →
  (zeros (rp st') + length (next st') = zeros (rp st) + length (next st))%nat.
Proof.
  induction 1 as [|st1 st2 st3 Hs _ IH]; [done|].
  rewrite IH. destruct Hs as [|st1 n level nb p Hl Hp Hz]; simpl; [done|].
  apply at_Some in Hp as [_ Hp].
  rewrite length_app. simpl.
  pose proof (zeros_insert _ _ _ (mkPathEnd n level) Hp Hz Hl). lia.
Qed.

Lemma bfs_level_steps g cf level frontier st :
  level + 1 ≠ 0 →
  ends (bfs_steps (bfs_take level frontier st))
    (bfs_level Perm g cf level frontier st).
Proof.
  intros Hl. unfold bfs_level.
  set (st0 := bfs_take level frontier st).
  destruct (w_rand (bw st0)) as [r|]; [|by apply bfs_frontier_steps].
  unfold callPerm. destruct (Perm r (length frontier)) as [p r'].
  eapply ends_impl; [by apply bfs_frontier_perm_steps|].
  intros st' ?. eapply rtc_l; [|done].
  apply (step_calls st0 _ []); [done|]. by rewrite app_nil_r.
Qed.

(** Invariants of the outer loop: [K] at its top, [K'] from there on,
    both indexed by the level. *)
Lemma bfs_loop_invariant (K : Z → list NI → bfs_state V R → Prop)
    (K' : Z → bfs_state V R → Prop) g cf :
  (∀ level frontier st,
     0 < level → K level frontier st →
     K' level (bfs_take level frontier st)) →
  (∀ level st st', 0 < level → K' level st → bfs_step st st' → K' level st') →
  (∀ level st, 0 < level → K' level st → K (level + 1) (next st) st) →
  ∀ fuel level frontier st,
    0 < level → K level frontier st →
    post (λ st', ∃ level', 0 < level' ∧ K' level' st')
      (bfs_loop Perm fuel g cf level frontier st).
Proof.
  intros Htake Hstep Hnext.
  induction fuel as [|fuel IH]; intros level frontier st Hl HK; simpl; [done|].
  pose proof (bfs_level_steps g cf level frontier st) as Hlv.
  assert (∀ st', bfs_steps (bfs_take level frontier st) st' → K' level st')
    as Hsteps.
  { unfold bfs_steps. apply (rtc_ind_r (K' level)); [by apply Htake|].
    intros st1 st2 _ Hs HK1. by eapply Hstep. }
  destruct (bfs_level Perm g cf level frontier st) as [st'| st'| st'|];
    simpl in *; [|eauto with lia..|done].
  destruct (next st') as [|n nx] eqn:Hnx; simpl; [eauto with lia|].
  rewrite <- Hnx. apply IH; [lia|]. apply Hnext; [lia|]. apply Hsteps, Hlv. lia.
Qed.

(** Every turn of the outer loop but the last gives a length to an entry
    that had none. *)
Lemma bfs_loop_terminates g cf fuel level frontier st :
  0 < level → (zeros (rp st) < fuel)%nat →
  bfs_loop Perm fuel g cf level frontier st ≠ Diverge.
Proof.
  revert level frontier st.
  induction fuel as [|fuel IH]; intros level frontier st Hl Hz; [lia|].
  simpl. pose proof (bfs_level_steps g cf level frontier st) as Hlv.
  destruct (bfs_level Perm g cf level frontier st) as [st'| st'| st'|];
    simpl in *; [|done..|exfalso; apply Hlv; lia].
  destruct (next st') as [|n nx] eqn:Hnx; [done|].
  apply IH; [lia|].
  assert (level + 1 ≠ 0) as Hl' by lia.
  apply Hlv, bfs_steps_zeros in Hl'. rewrite Hnx in Hl'. simpl in Hl'. lia.
Qed.

Lemma BreadthFirst_terminates g cf v : BreadthFirst Perm g cf v ≠ Diverge.
Proof.
  unfold BreadthFirst.
  destruct (upd _ _ _) as [p'|] eqn:Hupd; [|done].
  apply bfs_loop_terminates; [done|]. simpl.
  apply upd_Some in Hupd as [_ ->].
  pose proof (zeros_le_length (<[Z.to_nat (start cf):=mkPathEnd (-1) 1]>
    (tree_paths (bfs_tree g cf)))) as Hz.
  rewrite length_insert in Hz. lia.
Qed.

Lemma post_ends {A} (Q : A → Prop) (r : result A) :
  post Q r → r ≠ Diverge → ends Q r.
Proof. by destruct r. Qed.

(** The start node's entry stays, and [MaxLen] counts the frontiers. *)
Definition start_and_depth (s : NI) (st : bfs_state V R) : Prop :=
  at_ (rp st) s = Some (mkPathEnd (-1) 1) ∧
  (∃ tr, w_trace (bw st) = SetPath s (mkPathEnd (-1) 1) :: tr) ∧
  maxLen st = Z.of_nat (length (frontiers (w_trace (bw st)))) ∧
  ∀ i level F,
    frontiers (w_trace (bw st)) !! i = Some (level, F) →
    level = Z.of_nat i + 1.

Lemma bfs_loop_start_and_depth g cf s fuel frontier st :
  at_ (rp st) s = Some (mkPathEnd (-1) 1) →
  w_trace (bw st) = [SetPath s (mkPathEnd (-1) 1)] →
  post (start_and_depth s) (bfs_loop Perm fuel g cf 1 frontier st).
Proof.
  intros Hs Hf.
  pose (J := λ (n : Z) (st : bfs_state V R),
    at_ (rp st) s = Some (mkPathEnd (-1) 1) ∧
    (∃ tr, w_trace (bw st) = SetPath s (mkPathEnd (-1) 1) :: tr) ∧
    Z.of_nat (length (frontiers (w_trace (bw st)))) = n ∧
    ∀ i level F,
      frontiers (w_trace (bw st)) !! i = Some (level, F) →
      level = Z.of_nat i + 1).
  assert (J 0 st) as HJ.
  { unfold J. rewrite Hf. simpl. split_and!; [done|by eexists|done|].
    intros i ? ? Hi. by rewrite lookup_nil in Hi. }
  eapply post_impl.
  - apply (bfs_loop_invariant
      (λ level _ st, J (level - 1) st)
      (λ level st, J level st ∧ maxLen st = level)); [| | |done|done].
    + intros level F st0 Hl (Hs0 & [tr Htr] & Hn & Hlv). split; [|done].
      unfold J; simpl. rewrite frontiers_app. split_and!; [done|..].
      * rewrite Htr. by eexists.
      * rewrite length_app; simpl. lia.
      * intros i level' F' Hi.
        apply lookup_snoc_Some in Hi as [[_ Hi]|[Hi [= <- <-]]]; [eauto|lia].
    + intros level st1 st2 Hl [(Hs1 & [tr Htr] & Hn & Hlv) Hm] Hstep.
      destruct Hstep as [st1 w calls Hc Hw|st1 n lv nb p Hlv' Hp Hz];
        unfold J; simpl.
      * rewrite Hw, frontiers_app, (frontiers_calls calls), app_nil_r by done.
        split_and!; [done| |done..]. rewrite Htr. by eexists.
      * rewrite frontiers_app, app_nil_r. split_and!; [| |done..].
        -- rewrite at_insert_ne; [done|by apply at_Some in Hp as [? _]|].
           intros ->. rewrite Hs1 in Hp. by simplify_eq.
        -- rewrite Htr. by eexists.
    + intros level st0 Hl [(Hs0 & Htr & Hn & Hlv) Hm]. unfold J.
      split_and!; [done|done|lia|done].
  - intros st' (level & Hl & (Hs' & Htr & Hn & Hlv) & Hm).
    unfold start_and_depth. split_and!; [done|done|lia|done].
Qed.

(** An entry that had a length keeps it, and its node enters no
    frontier. *)
Definition kept (x : NI) (e : PathEnd) (st : bfs_state V R) : Prop :=
  at_ (rp st) x = Some e ∧
  (x ∉ next st) ∧
  (∀ level F, TakeFrontier level F ∈ w_trace (bw st) → x ∉ F) ∧
  (∀ p, SetPath x p ∉ w_trace (bw st)).

Lemma is_call_not_take calls level F :
  Forall is_call calls → TakeFrontier level F ∉ calls.
Proof. rewrite Forall_forall. intros H Hin. by apply H in Hin. Qed.

Lemma is_call_not_set calls x p :
  Forall is_call calls → SetPath x p ∉ calls.
Proof. rewrite Forall_forall. intros H Hin. by apply H in Hin. Qed.

Lemma bfs_loop_kept g cf x e fuel level frontier st :
  Len e ≠ 0 → 0 < level → x ∉ frontier → kept x e st →
  post (kept x e) (bfs_loop Perm fuel g cf level frontier st).
Proof.
  intros He Hl Hx Hk.
  eapply post_impl.
  - apply (bfs_loop_invariant (λ _ F st, kept x e st ∧ (x ∉ F))
             (λ _ st, kept x e st)); [| | |exact Hl|by split].
    + intros lv F st0 _ [(Ha & Hn & Ht & Hw) HF]. unfold kept; simpl.
      split_and!; [done|apply not_elem_of_nil|..].
      * intros lv' F' [Hin|Hin%list_elem_of_singleton]%elem_of_app; [eauto|].
        by simplify_eq.
      * intros p [Hin|Hin%list_elem_of_singleton]%elem_of_app; [by eapply Hw|done].
    + intros _ st1 st2 _ (Ha & Hn & Ht & Hw) Hstep.
      destruct Hstep as [st1 w calls Hc Hw'|st1 n lv nb p Hlv' Hp Hz];
        unfold kept; simpl.
      * rewrite Hw'. split_and!; [done..| |].
        -- intros lv' F' [Hin|Hin]%elem_of_app; [eauto|].
           by apply is_call_not_take in Hin.
        -- intros p [Hin|Hin]%elem_of_app; [by eapply Hw|].
           by apply is_call_not_set in Hin.
      * assert (nb ≠ x) as Hne by (intros ->; rewrite Ha in Hp; by simplify_eq).
        split_and!.
        -- rewrite at_insert_ne; [done|by apply at_Some in Hp as [? _]|done].
        -- rewrite not_elem_of_app, list_elem_of_singleton. done.
        -- intros lv' F' [Hin|Hin%list_elem_of_singleton]%elem_of_app; [eauto|done].
        -- intros p' [Hin|Hin%list_elem_of_singleton]%elem_of_app; [by eapply Hw|].
           by simplify_eq.
    + intros _ st0 _ Hk0. split; [done|]. by destruct Hk0 as (_ & ? & _).
  - intros st' (? & _ & ?). done.
Qed.

(** *** What [BreadthFirst] reads of its configuration *)

Definition bfs_agree cf cf' : Prop :=
  start cf = start cf' ∧ fromList cf = fromList cf' ∧
  nodeVisitor cf = nodeVisitor cf' ∧ okNodeVisitor cf = okNodeVisitor cf' ∧
  rand cf = rand cf'.

Lemma bfs_node_agree g cf cf' level n st :
  bfs_agree cf cf' → bfs_node g cf level n st = bfs_node g cf' level n st.
Proof.
  intros (_ & _ & Hn & Ho & _).
  unfold bfs_node, visitNode, visitOkNode. by rewrite Hn, Ho.
Qed.

Lemma bfs_frontier_agree g cf cf' level frontier st :
  bfs_agree cf cf' →
  bfs_frontier g cf level frontier st = bfs_frontier g cf' level frontier st.
Proof.
  intros Ha. revert st. induction frontier as [|n rest IH]; intros st; [done|].
  simpl. rewrite (bfs_node_agree g cf cf') by done.
  destruct (bfs_node g cf' level n st); simpl; auto.
Qed.

Lemma bfs_frontier_perm_agree g cf cf' level frontier p st :
  bfs_agree cf cf' →
  bfs_frontier_perm g cf level frontier p st =
  bfs_frontier_perm g cf' level frontier p st.
Proof.
  intros Ha. revert st. induction p as [|i rest IH]; intros st; [done|].
  simpl. destruct (frontier !! i) as [n|]; [|done].
  rewrite (bfs_node_agree g cf cf') by done.
  destruct (bfs_node g cf' level n st); simpl; auto.
Qed.

Lemma bfs_loop_agree g cf cf' fuel level frontier st :
  bfs_agree cf cf' →
  bfs_loop Perm fuel g cf level frontier st =
  bfs_loop Perm fuel g cf' level frontier st.
Proof.
  intros Ha. revert level frontier st.
  induction fuel as [|fuel IH]; intros level frontier st; [done|].
  simpl. unfold bfs_level.
  destruct (w_rand (bw (bfs_take level frontier st))) as [r|].
  - destruct (callPerm Perm r (length frontier) _) as [p w].
    rewrite (bfs_frontier_perm_agree g cf cf') by done.
    destruct (bfs_frontier_perm g cf' _ _ _ _) as [st'| | |]; simpl; try done.
    destruct (next st'); auto.
  - rewrite (bfs_frontier_agree g cf cf') by done.
    destruct (bfs_frontier g cf' _ _ _) as [st'| | |]; simpl; try done.
    destruct (next st'); auto.
Qed.

Lemma BreadthFirst_agree g cf cf' v :
  bfs_agree cf cf' → BreadthFirst Perm g cf v = BreadthFirst Perm g cf' v.
Proof.
  intros Ha. pose proof Ha as (Hs & Hf & _ & _ & Hr).
  unfold BreadthFirst, bfs_tree. rewrite Hs, Hf, Hr.
  destruct (upd _ _ _); [|done]. by apply bfs_loop_agree.
Qed.

Lemma configure_agree (cf cf' : config V R) opt :
  bfs_agree cf cf' →
  bfs_agree (foldl applyOption cf opt)
    (foldl applyOption cf' (filter (λ o, bfs_supported o = true) opt)).
Proof.
  revert cf cf'. induction opt as [|o opt IH]; intros cf cf' Ha; [done|].
  destruct Ha as (? & ? & ? & ? & ?).
  destruct o; simpl;
    rewrite ?filter_cons_True, ?filter_cons_False by (simpl; congruence);
    apply IH; by split_and!.
Qed.

(** *** The claims on what [BreadthFirst] leaves alone *)

(** C3.  A call of [BreadthFirst] with a tree whose [Paths] is not nil
    works on that very list: the list keeps its length, and every node
    other than the start node whose entry has a length already keeps its
    entry, is never appended to [next], is in no frontier the loop takes
    up, and has no entry written.  This holds of the state the call ends
    in however it ends, and the call does end. *)
Theorem BreadthFirst_accumulates g cf v f paths :
  fromList cf = Some f → Paths f = Some paths →
  bfs_tree g cf = f ∧
  ends (λ st',
    length (rp st') = length paths ∧
    ∀ x e, x ≠ start cf → at_ paths x = Some e → Len e ≠ 0 →
      at_ (rp st') x = Some e ∧
      (x ∉ next st') ∧
      (∀ level F, TakeFrontier level F ∈ w_trace (bw st') → x ∉ F) ∧
      (∀ p, SetPath x p ∉ w_trace (bw st')))
    (BreadthFirst Perm g cf v).
Proof.
  intros Hf Hp.
  assert (bfs_tree g cf = f) as Ht by (unfold bfs_tree; by rewrite Hf, Hp).
  split; [done|].
  apply post_ends; [|apply BreadthFirst_terminates].
  unfold BreadthFirst. rewrite Ht. unfold tree_paths. rewrite Hp.
  change (default [] (Some paths)) with paths. generalize (S (length paths)). intros fuel.
  destruct (upd paths (start cf) _) as [p'|] eqn:Hupd; [|simpl].
  2:{ split; [done|]. intros x e _ Hx _. split_and!; [done|..].
      - apply not_elem_of_nil.
      - intros ?? Hin. by apply elem_of_nil in Hin.
      - intros ? Hin. by apply elem_of_nil in Hin. }
  apply upd_Some in Hupd as [Hs ->].
  set (st0 := {| rp := _ |}).
  assert (post (λ st', length (rp st') = length paths)
            (bfs_loop Perm fuel g cf 1 [start cf] st0)) as Hlen.
  { eapply post_impl.
    - apply (bfs_loop_invariant (λ _ _ st, length (rp st) = length paths)
               (λ _ st, length (rp st) = length paths)); [..|done|].
      + done.
      + intros _ st1 st2 _ Hl Hstep. rewrite <- Hl.
        apply bfs_steps_length. by apply rtc_once.
      + done.
      + simpl. apply length_insert.
    - intros st' Hst'. simpl in Hst'. by destruct Hst' as (? & _ & ?). }
  assert (∀ x e, x ≠ start cf → at_ paths x = Some e → Len e ≠ 0 →
            post (kept x e)
              (bfs_loop Perm fuel g cf 1 [start cf] st0)) as Hk.
  { intros x e Hx He Hne. apply bfs_loop_kept; [done|done|..].
    - by rewrite list_elem_of_singleton.
    - unfold kept; simpl. split_and!.
      + rewrite at_insert_ne; [done|lia|done].
      + apply not_elem_of_nil.
      + intros ?? Hin%list_elem_of_singleton. done.
      + intros ? Hin%list_elem_of_singleton. by simplify_eq. }
  destruct (bfs_loop Perm fuel g cf 1 [start cf] st0);
    unfold post in *; cbn beta in *; [split; [done|]; intros x e Hx He Hne; by apply (Hk x e)..|done].
Qed.

(** C10.  Whenever [BreadthFirst] returns, be it at the end of the
    traversal or because a visitor stopped it, and whatever tree the caller
    gave: the first thing the call did was to write the entry (From = -1,
    Len = 1) of the start node, which is still its entry; and [MaxLen] is
    the number of frontiers this call took up, the i-th of them at level
    i, so it is the depth of the deepest frontier of this call, whatever
    [MaxLen] was before. *)
Theorem BreadthFirst_start_and_MaxLen g cf v st' :
  BreadthFirst Perm g cf v = Ok st' ∨ BreadthFirst Perm g cf v = Stop st' →
  at_ (rp st') (start cf) = Some (mkPathEnd (-1) 1) ∧
  (∃ tr, w_trace (bw st') = SetPath (start cf) (mkPathEnd (-1) 1) :: tr) ∧
  maxLen st' = Z.of_nat (length (frontiers (w_trace (bw st')))) ∧
  ∀ i level F,
    frontiers (w_trace (bw st')) !! i = Some (level, F) →
    level = Z.of_nat i + 1.
Proof.
  intros Hr.
  assert (post (start_and_depth (start cf)) (BreadthFirst Perm g cf v)) as H.
  { unfold BreadthFirst.
    destruct (upd _ (start cf) _) as [p'|] eqn:Hupd.
    - apply upd_Some in Hupd as [Hs ->].
      apply bfs_loop_start_and_depth; simpl; [|done].
      by apply at_insert_eq.
    - exfalso. unfold BreadthFirst in Hr. rewrite Hupd in Hr.
      by destruct Hr. }
  destruct Hr as [Hr|Hr]; rewrite Hr in H; exact H.
Qed.

(** C9.  Two option lists with the same supported options, in the same
    order, give the same run of [BreadthFirst]: the same end (no rejection
    on either side), the same path list and [MaxLen], the same state of
    the caller's closures and the same trace of visitor invocations.  So
    adding [ArcVisitor], [OkArcVisitor], [Visited] and [PathBits] options
    anywhere in the list changes nothing. *)
Theorem BreadthFirst_ignores_unsupported g s (opt opt' : list (TraverseOption V R)) v :
  filter (λ o, bfs_supported o = true) opt =
  filter (λ o, bfs_supported o = true) opt' →
  BreadthFirst Perm g (configure s opt) v =
  BreadthFirst Perm g (configure s opt') v.
Proof.
  intros Heq. unfold configure.
  set (cf0 := @mkConfig V R s None None None None None None None None).
  assert (bfs_agree cf0 cf0) as H0 by done.
  rewrite (BreadthFirst_agree g _ _ v (configure_agree cf0 cf0 opt H0)).
  rewrite (BreadthFirst_agree g _ _ v (configure_agree cf0 cf0 opt' H0)).
  by rewrite Heq.
Qed.

(** C4.  [DepthFirst] with a [Visited] bitset in which the bit of the
    start node is set returns at once: the trace is empty (no visitor of
    either kind was invoked), the state of the caller's closures and the
    generator are as they were, the visited bitset is the caller's, and the
    [PathBits] bitset is the caller's too (not even cleared). *)
Theorem DepthFirst_visited_start g cf v b x :
  visBits cf = Some b → bits.Bit b (start cf) = Some x → x ≠ 0 →
  DepthFirst Perm g cf v =
  Ok {| vis := b; path := pathBits cf;
        dw := {| w_vis := v; w_rand := rand cf; w_trace := [] |} |}.
Proof.
  intros Hb Hx Hne. unfold DepthFirst. rewrite Hb, Hx.
  by destruct (decide (x ≠ 0)).
Qed.
End BreadthFirstFrame.

(** ** Distances in a graph *)

(** [g] has an arc from [u] to [v]. *)
Definition arc (g : AdjacencyList) (u v : NI) : Prop :=
  ∃ to, at_ g u = Some to ∧ v ∈ to.

(** [v] is reached from [s] along [k] arcs. *)
Inductive reach (g : AdjacencyList) (s : NI) : nat → NI → Prop :=
  | reach_O : reach g s 0 s
  | reach_S k u v : reach g s k u → arc g u v → reach g s (S k) v.

Definition reachable (g : AdjacencyList) (s v : NI) : Prop :=
  ∃ k, reach g s k v.

(** The graph distance: the minimum number of arcs from [s] to [v]. *)
Definition distance (g : AdjacencyList) (s v : NI) (d : nat) : Prop :=
  reach g s d v ∧ ∀ k, reach g s k v → (d ≤ k)%nat.

Lemma distance_unique g s v d d' :
  distance g s v d → distance g s v d' → d = d'.
Proof.
  intros [H1 H2] [H1' H2']. apply H2 in H1'. apply H2' in H1. lia.
Qed.

(** The bounds condition: what [BoundsOk] answers true on. *)
Definition bounds_ok (g : AdjacencyList) : Prop := (BoundsOk g).1.1 = true.

Lemma BoundsOk_arcs_None n to :
  BoundsOk_arcs n to = None → ∀ t, t ∈ to → 0 ≤ t < n.
Proof.
  induction to as [|t' to IH]; simpl; intros H t Ht.
  - by apply elem_of_nil in Ht.
  - destruct (decide (t' < 0 ∨ n ≤ t')); [done|].
    apply elem_of_cons in Ht as [->|Ht]; [lia|auto].
Qed.

Lemma BoundsOk_from_true n fr g :
  (BoundsOk_from n fr g).1.1 = true →
  ∀ to t, to ∈ g → t ∈ to → 0 ≤ t < n.
Proof.
  revert fr. induction g as [|to' g IH]; simpl; intros fr H to t Hto Ht.
  - by apply elem_of_nil in Hto.
  - destruct (BoundsOk_arcs n to') eqn:Harcs; [done|].
    apply elem_of_cons in Hto as [->|Hto]; [|by eapply IH].
    by eapply BoundsOk_arcs_None.
Qed.

Lemma bounds_ok_arc g u v :
  bounds_ok g → arc g u v → 0 ≤ v < Z.of_nat (length g).
Proof.
  intros Hb (to & Hu & Hv).
  apply at_Some in Hu as [_ Hu]. apply list_elem_of_lookup_2 in Hu.
  pose proof (BoundsOk_from_true _ _ _ Hb to v Hu Hv).
  pose proof (toNI_le (Z.of_nat (length g))). lia.
Qed.

(** ** Traces *)

(** The writes of a trace are in the order of their lengths. *)
Definition writes_ordered (tr : list event) : Prop :=
  ∀ t1 x px t2, tr = t1 ++ SetPath x px :: t2 →
    ∀ y py, SetPath y py ∈ t1 → Len py ≤ Len px.

Lemma writes_ordered_snoc tr e :
  writes_ordered tr →
  (∀ x px, e = SetPath x px → ∀ y py, SetPath y py ∈ tr → Len py ≤ Len px) →
  writes_ordered (tr ++ [e]).
Proof.
  intros Htr He t1 x px t2 Heq y py Hy.
  destruct t2 as [|e' t2 _] using rev_ind.
  - apply app_inj_tail in Heq as [-> ->]. by eapply He.
  - rewrite app_comm_cons, app_assoc in Heq.
    apply app_inj_tail in Heq as [-> ->]. by eapply Htr.
Qed.

Lemma writes_ordered_app_calls tr calls :
  writes_ordered tr → Forall is_call calls → writes_ordered (tr ++ calls).
Proof.
  intros Htr. induction calls as [|e calls IH] using rev_ind; intros Hc.
  - by rewrite app_nil_r.
  - apply Forall_app in Hc as [Hc He]. rewrite Forall_singleton in He.
    rewrite app_assoc. apply writes_ordered_snoc; [by apply IH|].
    intros x px ->. destruct He.
Qed.

(** ** The breadth-first traversal of a fresh tree *)

(** The node has a length in the path list. *)
Definition visited (p : list PathEnd) (v : NI) : Prop :=
  ∃ e, at_ p v = Some e ∧ Len e ≠ 0.

(** [F] lists the nodes of length [L]. *)
Definition level_is (p : list PathEnd) (L : Z) (F : list NI) : Prop :=
  ∀ v, v ∈ F ↔ ∃ e, at_ p v = Some e ∧ Len e = L.

(** The tree is fresh: [BreadthFirst] allocates it. *)
Definition fresh {V R} (cf : config V R) : Prop :=
  match fromList cf with
  | None => True
  | Some f => Paths f = None
  end.

(** The conditional node visitor, if any, never answers false. *)
Definition never_stops {V R} (cf : config V R) : Prop :=
  ∀ f, okNodeVisitor cf = Some f → ∀ n v, (f n v).1 = true.

Section BreadthFirstCorrect.
Context {V R : Type} (Perm : R → nat → list nat * R).
Variables (g : AdjacencyList) (cf : config V R).
Hypothesis Hbounds : bounds_ok g.
Hypothesis Hnever : never_stops cf.
Hypothesis Hperm : ∀ r n, (Perm r n).1 ≡ₚ seq 0 n.
Implicit Types (st : bfs_state V R) (w : world V R).
Local Abbreviation s := (start cf).

(** The arcs of the nodes of length below [L] lead to visited nodes. *)
Definition closed_below (p : list PathEnd) (L : Z) : Prop :=
  ∀ u e v, at_ p u = Some e → Len e ≠ 0 → Len e < L → arc g u v →
    visited p v.

(** What holds all along, where no length is above [M]. *)
Record base (M : Z) (st : bfs_state V R) : Prop := {
  base_length : length (rp st) = length g;
  base_start : at_ (rp st) s = Some (mkPathEnd (-1) 1);
  base_zero : ∀ v e, at_ (rp st) v = Some e → Len e = 0 → e = mkPathEnd 0 0;
  base_dist : ∀ v e, at_ (rp st) v = Some e → Len e ≠ 0 →
    Len e ≤ M ∧ ∃ d : nat, Len e = Z.of_nat d + 1 ∧ distance g s v d;
  base_from : ∀ v e, at_ (rp st) v = Some e → Len e ≠ 0 → v ≠ s →
    arc g (From e) v ∧
    ∃ e', at_ (rp st) (From e) = Some e' ∧ Len e' = Len e - 1;
  base_writes : ∀ x p, SetPath x p ∈ w_trace (bw st) →
    at_ (rp st) x = Some p ∧ Len p ≠ 0;
  base_written : ∀ v e, at_ (rp st) v = Some e → Len e ≠ 0 →
    SetPath v e ∈ w_trace (bw st);
  base_order : writes_ordered (w_trace (bw st))
}.

(** At the top of the outer loop, with the frontier [F] of level [L]. *)
Record top (L : Z) (F : list NI) (st : bfs_state V R) : Prop := {
  top_pos : 1 ≤ L;
  top_base : base L st;
  top_frontier : level_is (rp st) L F;
  top_closed : closed_below (rp st) L
}.

(** Inside of the frontier loops. *)
Record mid (L : Z) (F : list NI) (st : bfs_state V R) : Prop := {
  mid_pos : 1 ≤ L;
  mid_base : base (L + 1) st;
  mid_frontier : level_is (rp st) L F;
  mid_next : level_is (rp st) (L + 1) (next st);
  mid_closed : closed_below (rp st) L
}.

(** Entries with a length are kept. *)
Definition grows st st' : Prop :=
  ∀ v e, at_ (rp st) v = Some e → Len e ≠ 0 → at_ (rp st') v = Some e.

Lemma grows_refl st : grows st st.
Proof. by intros v e. Qed.

Lemma grows_trans st1 st2 st3 : grows st1 st2 → grows st2 st3 → grows st1 st3.
Proof. intros H12 H23 v e Hv He. eauto. Qed.

Lemma grows_visited st st' v :
  grows st st' → visited (rp st) v → visited (rp st') v.
Proof. intros Hg (e & He & Hl). exists e. eauto. Qed.

Lemma base_calls M st w calls :
  base M st → Forall is_call calls →
  w_trace w = w_trace (bw st) ++ calls →
  base M (bfs_world (λ _, w) st).
Proof.
  intros [] Hcalls Hw. split; simpl; try done.
  - intros x p Hin. rewrite Hw in Hin.
    apply elem_of_app in Hin as [Hin|Hin]; [eauto|].
    by apply is_call_not_set in Hin.
  - intros v e Hv He. rewrite Hw. apply elem_of_app. left. eauto.
  - rewrite Hw. by apply writes_ordered_app_calls.
Qed.

Lemma mid_calls L F st w calls :
  mid L F st → Forall is_call calls →
  w_trace w = w_trace (bw st) ++ calls →
  mid L F (bfs_world (λ _, w) st).
Proof.
  intros [Hpos Hb Hf Hn Hc] Hcalls Hw.
  split; [done| |done..]. by eapply base_calls.
Qed.

(** A node fewer than [L] arcs away is visited. *)
Lemma near_visited M L st k v :
  base M st → closed_below (rp st) L →
  reach g s k v → Z.of_nat k < L → visited (rp st) v.
Proof.
  intros Hb Hc Hr. induction Hr as [|k u v Hr IH Ha]; intros Hk.
  - exists (mkPathEnd (-1) 1). split; [apply Hb|done].
  - destruct IH as (e & He & Hl); [lia|].
    destruct (base_dist _ _ Hb u e He Hl) as (_ & d & Hd & _ & Hmin).
    apply Hmin in Hr. eapply Hc; [exact He|done| |done]. lia.
Qed.

Lemma bfs_arc_correct L F u eu nb st :
  mid L F st → at_ (rp st) u = Some eu → Len eu = L → arc g u nb →
  ∃ st', bfs_arc u (L + 1) nb st = Ok st' ∧ mid L F st' ∧
         visited (rp st') nb ∧ grows st st'.
Proof.
  intros Hmid Hu HL Harc. pose proof Hmid as [Hpos Hb Hf Hn Hc].
  pose proof (bounds_ok_arc _ _ _ Hbounds Harc) as Hnb.
  unfold bfs_arc.
  destruct (at_ (rp st) nb) as [p|] eqn:Hp.
  2:{ apply at_None in Hp. rewrite (base_length _ _ Hb) in Hp. lia. }
  destruct (decide (Len p = 0)) as [Hz|Hz].
  2:{ exists st. split_and!; [done|done| |apply grows_refl]. by exists p. }
  eexists. split; [done|].
  set (e := mkPathEnd u (L + 1)).
  assert (u ≠ nb) as Hune by (intros ->; rewrite Hu in Hp; simplify_eq; lia).
  assert (∀ v, v ≠ nb →
    at_ (<[Z.to_nat nb := e]> (rp st)) v = at_ (rp st) v) as Hother.
  { intros v Hv. apply at_insert_ne; [lia|done]. }
  assert (at_ (<[Z.to_nat nb := e]> (rp st)) nb = Some e) as Hnew.
  { apply at_insert_eq. apply at_is_Some. eauto. }
  assert (∀ v e', at_ (rp st) v = Some e' → Len e' ≠ 0 → v ≠ nb) as Hvis.
  { intros v e' Hv He' ->. rewrite Hv in Hp. by simplify_eq. }
  assert (∀ v, visited (rp st) v →
    visited (<[Z.to_nat nb := e]> (rp st)) v) as Hmono.
  { intros v (e' & Hv & He'). exists e'. rewrite Hother; eauto. }
  destruct (base_dist _ _ Hb u eu Hu ltac:(lia)) as (_ & du & Hdu & Hru & Hminu).
  assert (distance g s nb (S du)) as Hdist.
  { split; [by eapply reach_S|].
    intros k Hk. destruct (decide (S du ≤ k)%nat) as [|Hlt]; [done|].
    exfalso. destruct (near_visited _ _ _ _ _ Hb Hc Hk) as (e' & He' & Hl');
      [lia|]. rewrite Hp in He'. by simplify_eq. }
  split_and!.
  - split; [done| |..]; simpl.
    + split; simpl.
      * rewrite length_insert. apply Hb.
      * rewrite Hother; [apply Hb|]. eapply Hvis; [apply Hb|done].
      * intros v e' Hv He'. destruct (decide (v = nb)) as [->|Hne].
        -- rewrite Hnew in Hv. simplify_eq. simpl in He'. lia.
        -- rewrite Hother in Hv by done. by eapply base_zero.
      * intros v e' Hv He'. destruct (decide (v = nb)) as [->|Hne].
        -- rewrite Hnew in Hv. simplify_eq. simpl. split; [lia|].
           exists (S du). split; [lia|done].
        -- rewrite Hother in Hv by done. by eapply base_dist.
      * intros v e' Hv He' Hvs. destruct (decide (v = nb)) as [->|Hne].
        -- rewrite Hnew in Hv. simplify_eq. simpl. split; [done|].
           exists eu. rewrite Hother by done. split; [done|lia].
        -- rewrite Hother in Hv by done.
           destruct (base_from _ _ Hb v e' Hv He' Hvs) as (Ha & e'' & He'' & Hl'').
           split; [done|]. exists e''. split; [|done].
           rewrite Hother; [done|]. eapply Hvis; [done|].
           destruct (base_dist _ _ Hb v e' Hv He') as (_ & d & Hd & Hr & _).
           destruct d as [|d]; [|lia]. inversion Hr. by subst.
      * intros x p' [Hin|Hin%list_elem_of_singleton]%elem_of_app.
        -- destruct (base_writes _ _ Hb x p' Hin) as [Hx Hp'].
           split; [|done]. rewrite Hother; [done|]. by eapply Hvis.
        -- simplify_eq. split; [done|simpl; lia].
      * intros v e' Hv He'. apply elem_of_app.
        destruct (decide (v = nb)) as [->|Hne].
        -- right. rewrite Hnew in Hv. simplify_eq. by apply list_elem_of_singleton.
        -- left. rewrite Hother in Hv by done. by eapply base_written.
      * apply writes_ordered_snoc; [apply Hb|].
        intros x px [= <- <-] y py Hy. simpl.
        destruct (base_writes _ _ Hb y py Hy) as [Hy' Hpy].
        by destruct (base_dist _ _ Hb y py Hy' Hpy) as [? _].
    + intros v. rewrite (Hf v). split; intros (e' & He' & Hl').
      * exists e'. rewrite Hother; [done|]. eapply Hvis; [done|lia].
      * destruct (decide (v = nb)) as [->|Hne].
        -- rewrite Hnew in He'. simplify_eq. simpl in *. lia.
        -- rewrite Hother in He' by done. eauto.
    + intros v. rewrite elem_of_app, list_elem_of_singleton, (Hn v).
      split.
      * intros [(e' & He' & Hl')| ->]; [|by exists e].
        exists e'. rewrite Hother; [done|]. eapply Hvis; [done|lia].
      * intros (e' & He' & Hl'). destruct (decide (v = nb)) as [->|Hne]; [by right|].
        left. rewrite Hother in He' by done. eauto.
    + intros u' e' v Hu' He' Hl' Ha'.
      destruct (decide (u' = nb)) as [->|Hne].
      * rewrite Hnew in Hu'. simplify_eq. simpl in *. lia.
      * rewrite Hother in Hu' by done. apply Hmono. by eapply Hc.
  - exists e. split; [done|simpl; lia].
  - intros v e' Hv He'. simpl. rewrite Hother; [done|]. by eapply Hvis.
Qed.

Lemma bfs_arcs_correct L F u eu to st :
  mid L F st → at_ (rp st) u = Some eu → Len eu = L →
  (∀ nb, nb ∈ to → arc g u nb) →
  ∃ st', bfs_arcs u (L + 1) to st = Ok st' ∧ mid L F st' ∧
         (∀ nb, nb ∈ to → visited (rp st') nb) ∧ grows st st'.
Proof.
  revert st. induction to as [|nb to IH]; intros st Hmid Hu HL Harcs.
  - exists st. split_and!; [done|done| |apply grows_refl].
    intros nb Hnb. by apply elem_of_nil in Hnb.
  - destruct (bfs_arc_correct L F u eu nb st) as (st1 & H1 & Hmid1 & Hv1 & Hg1);
      [done|done|done|apply Harcs; by left|].
    pose proof (mid_pos _ _ _ Hmid).
    destruct (IH st1) as (st2 & H2 & Hmid2 & Hv2 & Hg2);
      [done|apply Hg1; [done|lia]|done|intros; apply Harcs; by right|].
    exists st2. simpl. rewrite H1. simpl. split_and!; [done|done| |].
    + intros nb' [->|Hnb']%elem_of_cons; [|by auto].
      by eapply grows_visited.
    + by eapply grows_trans.
Qed.

Lemma visitNode_calls n w :
  w_rand (visitNode cf n w) = w_rand w ∧
  ∃ calls, Forall is_call calls ∧
    w_trace (visitNode cf n w) = w_trace w ++ calls.
Proof.
  unfold visitNode. destruct (nodeVisitor cf); simpl.
  - split; [done|]. exists [CallNodeVisitor n]. split; [|done].
    by repeat constructor.
  - split; [done|]. exists []. by rewrite app_nil_r.
Qed.

Lemma visitOkNode_calls n w :
  ∃ w', visitOkNode cf n w = (true, w') ∧ w_rand w' = w_rand w ∧
    ∃ calls, Forall is_call calls ∧ w_trace w' = w_trace w ++ calls.
Proof.
  unfold visitOkNode. destruct (okNodeVisitor cf) as [f|] eqn:Hf.
  - pose proof (Hnever f Hf n (w_vis w)) as Hok.
    destruct (f n (w_vis w)) as [ok v']. simpl in Hok. subst ok.
    eexists. split; [done|]. split; [done|].
    exists [CallOkNodeVisitor n true]. split; [|done]. by repeat constructor.
  - exists w. split; [done|]. split; [done|]. exists []. by rewrite app_nil_r.
Qed.

Lemma bfs_node_correct L F u st :
  mid L F st → u ∈ F →
  ∃ st', bfs_node g cf (L + 1) u st = Ok st' ∧ mid L F st' ∧
         (∀ v, arc g u v → visited (rp st') v) ∧ grows st st'.
Proof.
  intros Hmid Hu. unfold bfs_node.
  destruct (visitNode_calls u (bw st)) as (_ & calls1 & Hc1 & Ht1).
  set (st1 := bfs_world (visitNode cf u) st).
  assert (mid L F st1) as Hmid1.
  { replace st1 with (bfs_world (λ _, visitNode cf u (bw st)) st) by done.
    by eapply mid_calls. }
  destruct (visitOkNode_calls u (bw st1)) as (w2 & -> & _ & calls2 & Hc2 & Ht2).
  set (st2 := bfs_world (λ _, w2) st1).
  assert (mid L F st2) as Hmid2 by (by eapply mid_calls).
  apply (mid_frontier _ _ _ Hmid) in Hu as (eu & Heu & HL).
  destruct (at_ g u) as [to|] eqn:Hto.
  2:{ apply at_None in Hto. assert (is_Some (at_ (rp st) u)) as Hs by eauto.
      apply at_is_Some in Hs.
      rewrite (base_length _ _ (mid_base _ _ _ Hmid)) in Hs. lia. }
  destruct (bfs_arcs_correct L F u eu to st2) as (st' & H' & Hmid' & Hv' & Hg');
    [done|done|done|intros nb Hnb; by exists to|].
  exists st'. split_and!; [done|done| |done].
  intros v (to' & Hto' & Hv). rewrite Hto in Hto'. simplify_eq. auto.
Qed.

Lemma bfs_frontier_correct L F ns st :
  mid L F st → (∀ u, u ∈ ns → u ∈ F) →
  ∃ st', bfs_frontier g cf (L + 1) ns st = Ok st' ∧ mid L F st' ∧
         (∀ u v, u ∈ ns → arc g u v → visited (rp st') v) ∧ grows st st'.
Proof.
  revert st. induction ns as [|u ns IH]; intros st Hmid Hns.
  - exists st. split_and!; [done|done| |apply grows_refl].
    intros u v Hu. by apply elem_of_nil in Hu.
  - destruct (bfs_node_correct L F u st) as (st1 & H1 & Hmid1 & Hv1 & Hg1);
      [done|apply Hns; by left|].
    destruct (IH st1) as (st2 & H2 & Hmid2 & Hv2 & Hg2);
      [done|intros; apply Hns; by right|].
    exists st2. simpl. rewrite H1. simpl. split_and!; [done|done| |].
    + intros u' v [->|Hu']%elem_of_cons Ha; [|by eauto].
      eapply grows_visited; eauto.
    + by eapply grows_trans.
Qed.

Lemma bfs_frontier_perm_correct L F p st :
  mid L F st → (∀ i, i ∈ p → (i < length F)%nat) →
  ∃ st', bfs_frontier_perm g cf (L + 1) F p st = Ok st' ∧ mid L F st' ∧
         (∀ i u v, i ∈ p → F !! i = Some u → arc g u v →
            visited (rp st') v) ∧
         grows st st'.
Proof.
  revert st. induction p as [|i p IH]; intros st Hmid Hp.
  - exists st. split_and!; [done|done| |apply grows_refl].
    intros i u v Hi. by apply elem_of_nil in Hi.
  - simpl. destruct (F !! i) as [u|] eqn:Hi.
    2:{ apply lookup_ge_None in Hi. specialize (Hp i ltac:(by left)). lia. }
    destruct (bfs_node_correct L F u st) as (st1 & H1 & Hmid1 & Hv1 & Hg1);
      [done|by eapply list_elem_of_lookup_2|].
    destruct (IH st1) as (st2 & H2 & Hmid2 & Hv2 & Hg2);
      [done|intros; apply Hp; by right|].
    exists st2. rewrite H1. simpl. split_and!; [done|done| |].
    + intros i' u' v [->|Hi']%elem_of_cons Hu' Ha; [|by eauto].
      rewrite Hi in Hu'. simplify_eq. eapply grows_visited; eauto.
    + by eapply grows_trans.
Qed.

Lemma top_take L F st : top L F st → mid L F (bfs_take L F st).
Proof.
  intros [Hpos Hb Hf Hc]. split; [done| |done| |done].
  - destruct Hb. split; simpl; try done.
    + intros v e Hv He. destruct (base_dist0 v e Hv He) as [? ?].
      split; [lia|done].
    + intros x p [Hin|Hin%list_elem_of_singleton]%elem_of_app; [eauto|done].
    + intros v e Hv He. apply elem_of_app. left. eauto.
    + apply writes_ordered_snoc; [done|]. intros x px [=].
  - intros v. simpl. split; [by intros ?%elem_of_nil|].
    intros (e & He & Hl). destruct (base_dist _ _ Hb v e He) as [? _]; lia.
Qed.

Lemma mid_finish L F st :
  mid L F st → (∀ u v, u ∈ F → arc g u v → visited (rp st) v) →
  top (L + 1) (next st) st.
Proof.
  intros [Hpos Hb Hf Hn Hc] Hdone. split; [lia|done|done|].
  intros u e v Hu He Hl Ha.
  destruct (decide (Len e < L)) as [|Hge]; [by eapply Hc|].
  eapply Hdone; [|done]. apply Hf. exists e. split; [done|lia].
Qed.

Lemma bfs_level_correct L F st :
  top L F st →
  ∃ st', bfs_level Perm g cf L F st = Ok st' ∧ top (L + 1) (next st') st'.
Proof.
  intros Htop. apply top_take in Htop. unfold bfs_level.
  set (st0 := bfs_take L F st) in *.
  destruct (w_rand (bw st0)) as [r|].
  - unfold callPerm. specialize (Hperm r (length F)).
    destruct (Perm r (length F)) as [p r']. simpl in Hperm.
    set (w := {| w_vis := _ |}).
    assert (mid L F (bfs_world (λ _, w) st0)) as Hmid.
    { eapply (mid_calls _ _ _ _ []); [done|done|]. by rewrite app_nil_r. }
    destruct (bfs_frontier_perm_correct L F p _ Hmid) as (st' & H' & Hmid' & Hv' & _).
    { intros i Hi. rewrite Hperm in Hi. apply elem_of_seq in Hi. lia. }
    exists st'. split; [done|]. apply (mid_finish L F); [done|].
    intros u v Hu Ha. apply list_elem_of_lookup_1 in Hu as [i Hi].
    eapply Hv'; [|done|done]. rewrite Hperm. apply elem_of_seq.
    apply lookup_lt_Some in Hi. lia.
  - destruct (bfs_frontier_correct L F F st0) as (st' & H' & Hmid' & Hv' & _);
      [done|done|].
    exists st'. split; [done|]. by apply (mid_finish L F).
Qed.

Lemma bfs_loop_correct fuel L F st :
  top L F st →
  bfs_loop Perm fuel g cf L F st = Diverge ∨
  ∃ st' L', bfs_loop Perm fuel g cf L F st = Ok st' ∧ top L' [] st'.
Proof.
  revert L F st. induction fuel as [|fuel IH]; intros L F st Htop; [by left|].
  simpl. destruct (bfs_level_correct L F st Htop) as (st' & -> & Htop').
  simpl. destruct (next st') as [|n nx] eqn:Hnx.
  - right. exists st', (L + 1). split; [reflexivity|exact Htop'].
  - apply IH. exact Htop'.
Qed.

(** The tree of a traversal that ran to its end. *)
Record bfs_done (st : bfs_state V R) : Prop := {
  done_start : at_ (rp st) s = Some (mkPathEnd (-1) 1);
  done_reached : ∀ x d, distance g s x d →
    ∃ e, at_ (rp st) x = Some e ∧ Len e = Z.of_nat d + 1 ∧
      (x ≠ s → arc g (From e) x ∧
               ∃ d', d = S d' ∧ distance g s (From e) d');
  done_unreached : ∀ x, 0 ≤ x < Z.of_nat (length g) → ¬ reachable g s x →
    at_ (rp st) x = Some (mkPathEnd 0 0);
  done_order : ∀ t1 x px t2,
    w_trace (bw st) = t1 ++ SetPath x px :: t2 →
    ∀ y dx dy, distance g s x dx → distance g s y dy → (dy < dx)%nat →
      ∃ py, SetPath y py ∈ t1
}.

Lemma top_done L st : top L [] st → bfs_done st.
Proof.
  intros [Hpos Hb Hf Hc].
  assert (∀ v e, at_ (rp st) v = Some e → Len e ≠ 0 → Len e < L) as Hlt.
  { intros v e Hv He. destruct (base_dist _ _ Hb v e Hv He) as [Hle _].
    destruct (decide (Len e = L)) as [Heq|]; [|lia].
    exfalso. eapply elem_of_nil, Hf. eauto. }
  assert (∀ k v, reach g s k v → visited (rp st) v) as Hall.
  { intros k v Hr. induction Hr as [|k u v Hr IH Ha].
    - exists (mkPathEnd (-1) 1). split; [apply Hb|done].
    - destruct IH as (e & He & Hl). eapply Hc; eauto. }
  assert (∀ x d, distance g s x d →
            ∃ e, at_ (rp st) x = Some e ∧ Len e = Z.of_nat d + 1) as Hreached.
  { intros x d Hd. destruct (Hall d x (proj1 Hd)) as (e & He & Hl).
    exists e. split; [done|].
    destruct (base_dist _ _ Hb x e He Hl) as (_ & d' & -> & Hd').
    by rewrite (distance_unique _ _ _ _ _ Hd Hd'). }
  split.
  - apply Hb.
  - intros x d Hd. destruct (Hreached x d Hd) as (e & He & Hl).
    exists e. split_and!; [done|done|]. intros Hxs.
    destruct (base_from _ _ Hb x e He ltac:(lia) Hxs) as (Ha & e' & He' & Hl').
    split; [done|]. destruct d as [|d'].
    { destruct Hd as [Hr _]. inversion Hr. by subst. }
    exists d'. split; [done|].
    destruct (base_dist _ _ Hb _ e' He' ltac:(lia)) as (_ & d'' & Hd'' & Hdist).
    by replace d' with d'' by lia.
  - intros x Hx Hnr.
    assert (is_Some (at_ (rp st) x)) as [e He].
    { apply at_is_Some. by rewrite (base_length _ _ Hb). }
    rewrite He. f_equal. eapply base_zero; [done|done|].
    destruct (decide (Len e = 0)) as [|Hne]; [done|].
    exfalso. apply Hnr.
    destruct (base_dist _ _ Hb x e He Hne) as (_ & d & _ & Hr & _).
    by exists d.
  - intros t1 x px t2 Htr y dx dy Hdx Hdy Hlt'.
    destruct (Hreached y dy Hdy) as (ey & Hey & Hly).
    destruct (Hreached x dx Hdx) as (ex & Hex & Hlx).
    assert (SetPath y ey ∈ w_trace (bw st)) as Hin.
    { eapply base_written; [done|done|lia]. }
    assert (px = ex) as ->.
    { destruct (base_writes _ _ Hb x px) as [Hx' _].
      - rewrite Htr. apply elem_of_app. right. by left.
      - rewrite Hex in Hx'. by simplify_eq. }
    rewrite Htr in Hin.
    apply elem_of_app in Hin as [Hin|[Hin|Hin]%elem_of_cons]; [by eauto|..].
    + simplify_eq. lia.
    + exfalso. apply list_elem_of_split in Hin as (t3 & t4 & ->).
      pose proof (base_order _ _ Hb (t1 ++ SetPath x ex :: t3) y ey t4) as Ho.
      rewrite <- app_assoc in Ho. specialize (Ho Htr x ex).
      assert (Len ex ≤ Len ey); [|lia]. apply Ho.
      apply elem_of_app. right. by left.
Qed.

(** The state the outer loop starts in, on a fresh tree. *)
Definition bfs_init (v0 : V) : bfs_state V R :=
  {| rp := <[Z.to_nat s := mkPathEnd (-1) 1]>
             (replicate (length g) (mkPathEnd 0 0));
     maxLen := 0; next := [];
     bw := log (SetPath s (mkPathEnd (-1) 1))
             {| w_vis := v0; w_rand := rand cf; w_trace := [] |} |}.

Lemma top_init v0 :
  0 ≤ s < Z.of_nat (length g) → top 1 [s] (bfs_init v0).
Proof.
  intros Hs.
  assert (at_ (rp (bfs_init v0)) s = Some (mkPathEnd (-1) 1)) as Hstart.
  { apply at_insert_eq. by rewrite length_replicate. }
  assert (∀ v e, at_ (rp (bfs_init v0)) v = Some e → v ≠ s →
            e = mkPathEnd 0 0) as Hother.
  { intros v e Hv Hne. simpl in Hv. rewrite at_insert_ne in Hv by lia.
    apply at_Some in Hv as [_ Hv]. by apply lookup_replicate in Hv as [-> _]. }
  assert (∀ v e, at_ (rp (bfs_init v0)) v = Some e → Len e ≠ 0 →
            v = s ∧ e = mkPathEnd (-1) 1) as Hvis.
  { intros v e Hv He. destruct (decide (v = s)) as [->|Hne].
    - rewrite Hstart in Hv. by simplify_eq.
    - apply Hother in Hv; [|done]. by subst e. }
  split; [done| | |].
  - split.
    + simpl. by rewrite length_insert, length_replicate.
    + done.
    + intros v e Hv He. destruct (decide (v = s)) as [->|Hne]; [|by eauto].
      rewrite Hstart in Hv. by simplify_eq.
    + intros v e Hv He. destruct (Hvis v e Hv He) as [-> ->]. simpl.
      split; [done|]. exists 0%nat. split; [done|].
      split; [constructor|lia].
    + intros v e Hv He Hne. by destruct (Hvis v e Hv He) as [-> _].
    + intros x p Hin%list_elem_of_singleton. by simplify_eq.
    + intros v e Hv He. destruct (Hvis v e Hv He) as [-> ->].
      by apply list_elem_of_singleton.
    + intros t1 x px t2 Heq y py Hy. destruct t1 as [|e1 t1].
      * by apply elem_of_nil in Hy.
      * simpl in Heq. injection Heq as _ Heq. by destruct t1.
  - intros v. rewrite list_elem_of_singleton. split.
    + intros ->. by eexists.
    + intros (e & He & Hl). by destruct (Hvis v e He ltac:(lia)).
  - intros u e v Hu He Hl. destruct (Hvis u e Hu He) as [_ ->]. simpl in Hl. lia.
Qed.

(** C1.  On a graph that meets the bounds condition, from a start node of
    the graph, with a fresh tree, and with no visitor that stops the
    traversal ([Perm] giving permutations, as [rand.Perm] does):
    [BreadthFirst] returns, and in the tree it leaves
    - the start node has the entry (From = -1, Len = 1);
    - a node at distance [d] from the start node has the length [d + 1],
      and unless it is the start node, its [From] is a node at distance
      [d - 1] with an arc to it;
    - a node that cannot be reached keeps its zero entry (Len = 0);
    - when an entry is written, the entries of all nodes at a strictly
      smaller distance have been written before. *)
Theorem BreadthFirst_distances v0 :
  0 ≤ s < Z.of_nat (length g) → fresh cf →
  ∃ st', BreadthFirst Perm g cf v0 = Ok st' ∧
    at_ (rp st') s = Some (mkPathEnd (-1) 1) ∧
    (∀ x d, distance g s x d →
       ∃ e, at_ (rp st') x = Some e ∧ Len e = Z.of_nat d + 1 ∧
         (x ≠ s → arc g (From e) x ∧
                  ∃ d', d = S d' ∧ distance g s (From e) d')) ∧
    (∀ x, 0 ≤ x < Z.of_nat (length g) → ¬ reachable g s x →
       at_ (rp st') x = Some (mkPathEnd 0 0)) ∧
    (∀ t1 x px t2,
       w_trace (bw st') = t1 ++ SetPath x px :: t2 →
       ∀ y dx dy, distance g s x dx → distance g s y dy → (dy < dx)%nat →
         ∃ py, SetPath y py ∈ t1).
Proof.
  intros Hs Hfresh.
  assert (bfs_tree g cf = NewFromList (length g)) as Htree.
  { unfold bfs_tree, fresh in *. destruct (fromList cf) as [f|]; [|done].
    by rewrite Hfresh. }
  assert (BreadthFirst Perm g cf v0 =
          bfs_loop Perm (S (length g)) g cf 1 [s] (bfs_init v0)) as Heq.
  { unfold BreadthFirst. rewrite Htree.
    change (tree_paths (NewFromList (length g)))
      with (replicate (length g) (mkPathEnd 0 0)).
    unfold upd. rewrite length_replicate.
    by destruct (decide (0 ≤ s < Z.of_nat (length g))). }
  pose proof (BreadthFirst_terminates Perm g cf v0) as Hterm.
  rewrite Heq in *.
  destruct (bfs_loop_correct (S (length g)) 1 [s] (bfs_init v0) (top_init v0 Hs))
    as [Hdiv|(st' & L' & Hst' & Htop)]; [done|].
  exists st'. split; [done|]. by destruct (top_done _ _ Htop).
Qed.
End BreadthFirstCorrect.

(** ** The depth-first traversal *)

(** The number of bits that are clear. *)
Fixpoint clear (b : Bits) : nat :=
  match b with
  | [] => 0
  | x :: b' => (if x then 0 else 1) + clear b'
  end.

Lemma clear_le_length b : (clear b ≤ length b)%nat.
Proof. induction b as [|[] b IH]; simpl; lia. Qed.

Lemma clear_insert (b : list bool) i :
  b !! i = Some false → S (clear (<[i := true]> b)) = clear b.
Proof.
  revert i. induction b as [|x b IH]; intros [|i] Hi; simpl in Hi; simplify_eq.
  - done.
  - specialize (IH i Hi). destruct x; simpl in *; lia.
Qed.

Lemma Bit_Some b n x :
  bits.Bit b n = Some x ↔
  (at_ b n = Some true ∧ x = 1) ∨ (at_ b n = Some false ∧ x = 0).
Proof.
  unfold bits.Bit. destruct (at_ b n) as [[]|]; simpl.
  - split; [intros [= <-]; by left|]. by intros [[_ ->]|[[=] _]].
  - split; [intros [= <-]; by right|]. by intros [[[=] _]|[_ ->]].
  - split; [done|]. by intros [[[=] _]|[[=] _]].
Qed.

Lemma SetBit_1 b n b' :
  bits.SetBit b n 1 = Some b' ↔
  0 ≤ n < Z.of_nat (length b) ∧ b' = <[Z.to_nat n := true]> b.
Proof. unfold bits.SetBit. apply upd_Some. Qed.

Lemma SetBit_0 b n b' :
  bits.SetBit b n 0 = Some b' ↔
  0 ≤ n < Z.of_nat (length b) ∧ b' = <[Z.to_nat n := false]> b.
Proof. unfold bits.SetBit. apply upd_Some. Qed.

Section DepthFirstFacts.
Context {V R : Type} (Perm : R → nat → list nat * R).
Implicit Types (cf : config V R) (st : dfs_state V R) (w : world V R).

Lemma setPathBit_vis n v st st' :
  setPathBit n v st = Some st' → vis st' = vis st ∧ dw st' = dw st.
Proof.
  unfold setPathBit. destruct (path st) as [pb|]; [|by intros [= <-]].
  destruct (bits.SetBit pb n v); simpl; [|done]. by intros [= <-].
Qed.

(** What a call of [df] does to the visited bits: none is cleared, and the
    bit of its node is set. *)
Definition df_ends_with (st : dfs_state V R) (st' : dfs_state V R) : Prop :=
  length (vis st') = length (vis st) ∧ (clear (vis st') < clear (vis st))%nat.

Definition arcs_end_with (st : dfs_state V R) (st' : dfs_state V R) : Prop :=
  length (vis st') = length (vis st) ∧ (clear (vis st') ≤ clear (vis st))%nat.

Lemma arcs_end_same st st' : vis st' = vis st → arcs_end_with st st'.
Proof. intros Hv. unfold arcs_end_with. by rewrite Hv. Qed.

Lemma dfs_arc_ends (rec : NI → dfs_state V R → result (dfs_state V R))
    (fuel : nat) cf n x to st :
  (∀ t st0, at_ (vis st0) t = Some false → (clear (vis st0) ≤ fuel)%nat →
     ends (df_ends_with st0) (rec t st0)) →
  (clear (vis st) ≤ fuel)%nat →
  ends (arcs_end_with st) (dfs_arc rec cf n x to st).
Proof.
  intros Hrec Hfuel. unfold dfs_arc.
  destruct (visitOkArc cf n x _) as [ok w2] eqn:Hok.
  destruct ok; simpl; [|by apply arcs_end_same].
  destruct to as [t|]; simpl; [|by apply arcs_end_same].
  destruct (bits.Bit _ t) as [v|] eqn:Hbit; simpl; [|by apply arcs_end_same].
  destruct (decide (v ≠ 0)) as [|Hv]; simpl; [by apply arcs_end_same|].
  apply Bit_Some in Hbit as [[_ ->]|[Hbit _]]; [exfalso; by apply Hv|].
  eapply ends_impl; [by apply Hrec|].
  intros st' [Hl Hc]. simpl in *. split; [done|lia].
Qed.

Lemma dfs_arcs_ends (rec : NI → dfs_state V R → result (dfs_state V R))
    (fuel : nat) cf n x to st :
  (∀ t st0, at_ (vis st0) t = Some false → (clear (vis st0) ≤ fuel)%nat →
     ends (df_ends_with st0) (rec t st0)) →
  (clear (vis st) ≤ fuel)%nat →
  ends (arcs_end_with st) (dfs_arcs rec cf n x to st).
Proof.
  intros Hrec. revert x st.
  induction to as [|t to IH]; intros x st Hfuel; simpl;
    [by apply arcs_end_same|].
  eapply ends_bind; [by eapply dfs_arc_ends|done|].
  intros st1 [Hl1 Hc1]. eapply ends_impl; [apply IH; lia|].
  intros st2 [Hl2 Hc2]. split; [congruence|lia].
Qed.

Lemma dfs_arcs_perm_ends (rec : NI → dfs_state V R → result (dfs_state V R))
    (fuel : nat) cf n to p st :
  (∀ t st0, at_ (vis st0) t = Some false → (clear (vis st0) ≤ fuel)%nat →
     ends (df_ends_with st0) (rec t st0)) →
  (clear (vis st) ≤ fuel)%nat →
  ends (arcs_end_with st) (dfs_arcs_perm rec cf n to p st).
Proof.
  intros Hrec. revert st.
  induction p as [|x p IH]; intros st Hfuel; simpl;
    [by apply arcs_end_same|].
  eapply ends_bind; [by eapply dfs_arc_ends|done|].
  intros st1 [Hl1 Hc1]. eapply ends_impl; [apply IH; lia|].
  intros st2 [Hl2 Hc2]. split; [congruence|lia].
Qed.

Lemma df_ends g cf fuel n st :
  at_ (vis st) n = Some false → (clear (vis st) ≤ fuel)%nat →
  ends (df_ends_with st) (df Perm fuel g cf n st).
Proof.
  revert n st. induction fuel as [|fuel IH]; intros n st Hn Hfuel.
  { apply at_Some in Hn as [_ Hn]. pose proof (clear_insert _ _ Hn).
    exfalso. lia. }
  simpl.
  destruct (bits.SetBit (vis st) n 1) as [b|] eqn:Hb.
  2:{ assert (is_Some (bits.SetBit (vis st) n 1)) as [? ?]; [|congruence].
      apply upd_is_Some, at_is_Some. eauto. }
  apply SetBit_1 in Hb as [Hrange ->].
  apply at_Some in Hn as [_ Hn]. pose proof (clear_insert _ _ Hn) as Hclear.
  set (st1 := {| vis := _ |}).
  assert (df_ends_with st st1) as H1.
  { split; [apply length_insert|]. unfold st1. cbn [vis].
    lia. }
  assert (∀ st', vis st' = vis st1 → df_ends_with st st') as Hsame.
  { intros st' Hv. unfold df_ends_with. by rewrite Hv. }
  destruct (setPathBit n 1 st1) as [st2|] eqn:H2; simpl; [|by apply Hsame].
  apply setPathBit_vis in H2 as [Hv2 _].
  destruct (visitOkNode cf n _) as [ok w] eqn:Hok.
  destruct ok; simpl; [|by apply Hsame].
  destruct (at_ g n) as [to|]; simpl; [|by apply Hsame].
  set (st4 := dfs_world (λ _, w) _).
  assert (vis st4 = vis st1) as Hv4 by done.
  assert (ends (arcs_end_with st4)
    match w_rand (dw st4) with
    | Some r =>
        let '(p, w') := callPerm Perm r (length to) (dw st4) in
        dfs_arcs_perm (df Perm fuel g cf) cf n to p (dfs_world (λ _, w') st4)
    | None => dfs_arcs (df Perm fuel g cf) cf n 0 to st4
    end) as Hloop.
  { assert (clear (vis st4) ≤ fuel)%nat as Hf4.
    { rewrite Hv4. unfold st1. cbn [vis]. lia. }
    destruct (w_rand (dw st4)) as [r|].
    - destruct (callPerm Perm r (length to) (dw st4)) as [p w'].
      eapply ends_impl; [by apply (dfs_arcs_perm_ends _ fuel)|].
      by intros st' [? ?].
    - by apply (dfs_arcs_ends _ fuel). }
  assert (∀ st', arcs_end_with st4 st' → df_ends_with st st') as Hafter.
  { intros st' [Hl Hc]. rewrite Hv4 in Hl, Hc. destruct H1 as [Hl1 Hc1].
    split; [congruence|lia]. }
  eapply ends_bind; [exact Hloop|exact Hafter|].
  intros st5 H5.
  destruct (setPathBit n 0 st5) as [st6|] eqn:H6; simpl; [|by apply Hafter].
  apply setPathBit_vis in H6 as [Hv6 _]. apply Hafter.
  destruct H5 as [Hl5 Hc5]. unfold arcs_end_with. by rewrite Hv6.
Qed.

Lemma df_top_ends g cf st :
  at_ (vis st) (start cf) ≠ Some true →
  df Perm (S (length (vis st))) g cf (start cf) st ≠ Diverge.
Proof.
  intros Hs. destruct (at_ (vis st) (start cf)) as [[]|] eqn:Hat; [done|..].
  - pose proof (df_ends g cf (S (length (vis st))) (start cf) st Hat) as H.
    intros Hdiv. rewrite Hdiv in H. apply H.
    pose proof (clear_le_length (vis st)). lia.
  - simpl. destruct (bits.SetBit _ _ _) as [b|] eqn:Hb; [|done].
    apply SetBit_1 in Hb as [Hrange _]. apply at_None in Hat. lia.
Qed.

(** [DepthFirst] ends: the fuel of the model does not run out. *)
Lemma DepthFirst_terminates g cf v : DepthFirst Perm g cf v ≠ Diverge.
Proof.
  unfold DepthFirst. destruct (visBits cf) as [b|].
  - destruct (bits.Bit b (start cf)) as [x|] eqn:Hx; [|done].
    destruct (decide (x ≠ 0)) as [|Hz]; [done|].
    apply (df_top_ends g cf {| vis := b |}). simpl.
    apply Bit_Some in Hx as [[_ ->]|[-> _]]; [by destruct Hz|done].
  - apply (df_top_ends g cf {| vis := bits.New (length g) |}). simpl.
    intros Hat. apply at_Some in Hat as [_ Hat].
    by apply lookup_replicate in Hat as [? _].
Qed.
End DepthFirstFacts.

(** *** A conditional node visitor that stops the traversal *)

(** A conditional node visitor that answers false on the third node it is
    called on; the state it closes over counts its calls. *)
Definition stop_at_third (n : NI) (calls : nat) : bool * nat :=
  (bool_decide (S calls < 3)%nat, S calls).

(** The configuration that [OkNodeVisitor(stop_at_third)] gives, together
    with whatever [PathBits] and [Rand] options. *)
Definition third_config {R} (s : NI) (pb : option Bits) (r : option R)
  : config nat R :=
  mkConfig s None None (Some stop_at_third) None None None pb r.

Section DepthFirstStop.
Context {R : Type} (Perm : R → nat → list nat * R).
Variables (g : AdjacencyList) (s : NI) (pb : option Bits) (r0 : option R).
Implicit Types (st : dfs_state nat R).
Local Abbreviation cf := (third_config s pb r0).

(** While the traversal goes on: the trace is the calls of the visitor on
    the nodes [ns], which all answered true; the visitor counted them; and
    the visited bits are those of [ns]. *)
Definition going (st : dfs_state nat R) (ns : list NI) : Prop :=
  w_trace (dw st) = (λ n, CallOkNodeVisitor n true) <$> ns ∧
  w_vis (dw st) = length ns ∧
  NoDup ns ∧
  (∀ n, at_ (vis st) n = Some true ↔ n ∈ ns) ∧
  (length ns < 3)%nat.

(** Once the visitor has answered false. *)
Definition stopped (st : dfs_state nat R) : Prop :=
  ∃ n1 n2 n3,
    w_trace (dw st) =
      [CallOkNodeVisitor n1 true; CallOkNodeVisitor n2 true;
       CallOkNodeVisitor n3 false] ∧
    NoDup [n1; n2; n3] ∧
    (∀ n, at_ (vis st) n = Some true ↔ n ∈ [n1; n2; n3]) ∧
    w_vis (dw st) = 3%nat.

Definition third_post (r : result (dfs_state nat R)) : Prop :=
  match r with
  | Ok st' => ∃ ns, going st' ns
  | Stop st' => stopped st'
  | Panic _ | Diverge => True
  end.

Lemma third_post_bind (r : result (dfs_state nat R)) k :
  third_post r → (∀ st' ns, going st' ns → third_post (k st')) →
  third_post (bind r k).
Proof. destruct r; simpl; [|done..]. intros [ns Hns] Hk. eauto. Qed.

Lemma visitNode_third n (w : world nat R) : visitNode cf n w = w.
Proof. done. Qed.

Lemma visitOkNode_third n (w : world nat R) :
  visitOkNode cf n w =
  (bool_decide (S (w_vis w) < 3)%nat,
   log (CallOkNodeVisitor n (bool_decide (S (w_vis w) < 3)%nat))
     {| w_vis := S (w_vis w); w_rand := w_rand w; w_trace := w_trace w |}).
Proof. done. Qed.

Lemma going_same st st' ns :
  vis st' = vis st → dw st' = dw st → going st ns → going st' ns.
Proof. unfold going. by intros -> ->. Qed.

Lemma dfs_arc_third (rec : NI → dfs_state nat R → result (dfs_state nat R))
    n x to st ns :
  (∀ t st0 ns0, going st0 ns0 → at_ (vis st0) t = Some false →
     third_post (rec t st0)) →
  going st ns → third_post (dfs_arc rec cf n x to st).
Proof.
  intros Hrec Hgo. unfold dfs_arc. simpl.
  destruct to as [t|]; [|done]. simpl.
  destruct (bits.Bit (vis st) t) as [v|] eqn:Hbit; [|done].
  destruct (decide (v ≠ 0)) as [|Hv].
  - simpl. exists ns. by eapply going_same.
  - apply Bit_Some in Hbit as [[_ ->]|[Hbit _]]; [exfalso; by apply Hv|].
    eapply Hrec; [|done]. by eapply going_same.
Qed.

Lemma dfs_arcs_third (rec : NI → dfs_state nat R → result (dfs_state nat R))
    n x to st ns :
  (∀ t st0 ns0, going st0 ns0 → at_ (vis st0) t = Some false →
     third_post (rec t st0)) →
  going st ns → third_post (dfs_arcs rec cf n x to st).
Proof.
  intros Hrec. revert x st ns.
  induction to as [|t to IH]; intros x st ns Hgo; simpl; [by exists ns|].
  apply third_post_bind; [by eapply dfs_arc_third|]. eauto.
Qed.

Lemma dfs_arcs_perm_third
    (rec : NI → dfs_state nat R → result (dfs_state nat R)) n to p st ns :
  (∀ t st0 ns0, going st0 ns0 → at_ (vis st0) t = Some false →
     third_post (rec t st0)) →
  going st ns → third_post (dfs_arcs_perm rec cf n to p st).
Proof.
  intros Hrec. revert st ns.
  induction p as [|x p IH]; intros st ns Hgo; simpl; [by exists ns|].
  apply third_post_bind; [by eapply dfs_arc_third|]. eauto.
Qed.

Lemma df_third fuel n st ns :
  going st ns → at_ (vis st) n = Some false →
  third_post (df Perm fuel g cf n st).
Proof.
  revert n st ns. induction fuel as [|fuel IH]; intros n st ns Hgo Hn; [done|].
  simpl.
  destruct (bits.SetBit (vis st) n 1) as [b|] eqn:Hb; [|done].
  apply SetBit_1 in Hb as [Hrange ->].
  destruct (setPathBit n 1 _) as [st2|] eqn:H2; [|done].
  apply setPathBit_vis in H2 as [Hv2 Hw2]. simpl in Hv2, Hw2.
  destruct Hgo as (Htr & Hcount & Hnd & Hbits & Hlen).
  assert (n ∉ ns) as Hfresh.
  { intros Hin. apply Hbits in Hin. congruence. }
  assert (∀ m, at_ (vis st2) m = Some true ↔ m ∈ ns ++ [n]) as Hbits2.
  { intros m. rewrite Hv2, elem_of_app, list_elem_of_singleton.
    destruct (decide (m = n)) as [->|Hne].
    - rewrite at_insert_eq by done. tauto.
    - rewrite at_insert_ne by lia. rewrite Hbits. tauto. }
  cbv zeta. unfold dfs_world. cbn [dw vis path].
  rewrite !visitNode_third, Hw2, Hcount.
  destruct (bool_decide_reflect (S (length ns) < 3)%nat) as [Hlt|Hge];
    cbv beta iota.
  - set (st4 := {| vis := vis st2 |}).
    assert (going st4 (ns ++ [n])) as Hgo4.
    { unfold going. simpl.
      rewrite Htr, fmap_app, length_app. simpl. split_and!; [done|lia| |done|lia].
      apply NoDup_app. split_and!; [done| |apply NoDup_singleton].
      intros m Hm ->%list_elem_of_singleton. done. }
    destruct (at_ g n) as [to|]; [|done].
    apply third_post_bind.
    + destruct (w_rand (dw st)) as [r|].
      * unfold callPerm. destruct (Perm r (length to)) as [p r'].
        eapply dfs_arcs_perm_third; [eauto|]. exact Hgo4.
      * eapply dfs_arcs_third; eauto.
    + intros st5 ns5 Hgo5.
      destruct (setPathBit n 0 st5) as [st6|] eqn:H6; [|done].
      apply setPathBit_vis in H6 as [Hv6 Hw6]. simpl.
      exists ns5. by eapply going_same.
  - assert (length ns = 2%nat) as Hlen2 by lia.
    destruct ns as [|n1 [|n2 [|n3 ns]]]; simplify_eq/=.
    exists n1, n2, n. rewrite Htr. simpl.
    split_and!; [done| | |done].
    + apply (NoDup_app [n1; n2] [n]). split_and!; [done| |apply NoDup_singleton].
      intros m Hm ->%list_elem_of_singleton. done.
    + intros m. rewrite Hbits2. done.
Qed.

(** C2.  [DepthFirst], on a fresh visited bitset, with a conditional node
    visitor that answers false on the third node it is called on: when the
    visitor stops the traversal, it has been invoked exactly twice before
    the invocation that stops it, and not again after (the trace is its
    three calls, on three different nodes, the first two answering true);
    and the visited bitset has exactly the bits of these three nodes set,
    the third included (a node is marked before the visitor is asked). *)
Theorem DepthFirst_stops_at_third st :
  DepthFirst Perm g cf 0%nat = Stop st →
  ∃ n1 n2 n3,
    w_trace (dw st) =
      [CallOkNodeVisitor n1 true; CallOkNodeVisitor n2 true;
       CallOkNodeVisitor n3 false] ∧
    NoDup [n1; n2; n3] ∧
    (∀ n, at_ (vis st) n = Some true ↔ n ∈ [n1; n2; n3]) ∧
    w_vis (dw st) = 3%nat.
Proof.
  unfold DepthFirst. cbn [visBits third_config].
  set (st0 := {| vis := bits.New (length g) |}).
  assert (going st0 []) as Hgo.
  { unfold going. simpl. split_and!; [done|done|apply NoDup_nil_2| |lia].
    intros n. split; [|by intros ?%elem_of_nil].
    intros [_ Hn]%at_Some. by apply lookup_replicate in Hn as [? _]. }
  intros Hstop.
  destruct (at_ (vis st0) s) as [[]|] eqn:Hs.
  - apply at_Some in Hs as [_ Hs]. by apply lookup_replicate in Hs as [? _].
  - pose proof (df_third (S (length (bits.New (length g)))) (start cf) st0 []
      Hgo Hs) as H.
    by rewrite Hstop in H.
  - exfalso. simpl in Hstop.
    destruct (bits.SetBit (bits.New (length g)) s 1) as [b|] eqn:Hb; [|done].
    apply SetBit_1 in Hb as [Hrange _]. apply at_None in Hs. simpl in Hs. lia.
Qed.
End DepthFirstStop.

(** ** Undirected graphs *)

(** The number of times [x] is in [l]. *)
Fixpoint occ (x : NI) (l : list NI) : nat :=
  match l with
  | [] => 0
  | y :: l' => (if decide (y = x) then 1 else 0) + occ x l'
  end.

(** The number of arcs of [g] from [a] to [b]. *)
Definition narcs (g : AdjacencyList) (a b : NI) : nat :=
  match at_ g a with
  | Some l => occ b l
  | None => 0
  end.

(** Every arc between two different nodes has as many reciprocals as it has
    parallels. *)
Definition symmetric (g : AdjacencyList) : Prop :=
  ∀ a b, a ≠ b → narcs g a b = narcs g b a.

(** Every arc ends at a node of the graph. *)
Definition in_range (g : AdjacencyList) : Prop :=
  ∀ a l x, at_ g a = Some l → x ∈ l → 0 ≤ x < Z.of_nat (length g).

Lemma occ_app x l1 l2 : occ x (l1 ++ l2) = (occ x l1 + occ x l2)%nat.
Proof. induction l1 as [|y l1 IH]; simpl; [done|]. rewrite IH. lia. Qed.

Lemma occ_Permutation x l1 l2 : l1 ≡ₚ l2 → occ x l1 = occ x l2.
Proof. induction 1; simpl; lia. Qed.

Lemma occ_zero x l : occ x l = 0%nat ↔ x ∉ l.
Proof.
  induction l as [|y l IH]; simpl.
  - split; [intros _; apply not_elem_of_nil|done].
  - rewrite not_elem_of_cons, <- IH. destruct (decide (y = x)) as [->|Hne].
    + split; [lia|intros [? _]; congruence].
    + split; [intros H; split; [congruence|lia]|intros [_ H]; lia].
Qed.

Lemma occ_nil_all (l : list NI) : (∀ x, x ∈ l → occ x l = 0%nat) → l = [].
Proof.
  destruct l as [|y l]; [done|]. intros H. specialize (H y ltac:(by left)).
  simpl in H. destruct (decide (y = y)); [lia|done].
Qed.

Lemma occ_swap_remove x ut i u :
  ut !! i = Some u →
  occ x ut = ((if decide (u = x) then 1 else 0) + occ x (swap_remove ut i))%nat.
Proof.
  intros Hi. unfold swap_remove.
  destruct ut as [|z ut _] using rev_ind; [done|].
  rewrite length_app. simpl. replace (length ut + 1 - 1)%nat with (length ut) by lia.
  rewrite lookup_app_r, Nat.sub_diag by lia. simpl.
  destruct (decide (i = length ut)) as [->|Hne].
  - rewrite lookup_app_r, Nat.sub_diag in Hi by lia. simplify_eq/=.
    rewrite list_insert_id by (by rewrite lookup_app_r, Nat.sub_diag by lia).
    rewrite take_app_length, occ_app. simpl. lia.
  - assert (i < length ut)%nat as Hlt.
    { apply lookup_lt_Some in Hi. rewrite length_app in Hi. simpl in Hi. lia. }
    rewrite lookup_app_l in Hi by done.
    rewrite insert_app_l by done.
    rewrite take_app_le by (rewrite length_insert; lia).
    rewrite take_ge by (rewrite length_insert; lia).
    apply list_elem_of_split_length in Hi as (l1 & l2 & -> & ->).
    rewrite insert_app_r_alt, Nat.sub_diag by lia. simpl.
    rewrite !occ_app. simpl. lia.
Qed.

Lemma occ_le_elem x l : x ∈ l ↔ (0 < occ x l)%nat.
Proof.
  pose proof (occ_zero x l). destruct (decide (x ∈ l)); split; try done; try lia.
  - intros _. destruct (occ x l); [|lia]. exfalso. tauto.
  - intros ?. exfalso. assert (occ x l = 0%nat) by tauto. lia.
Qed.

Lemma narcs_insert (U : AdjacencyList) c l' a b :
  0 ≤ c < Z.of_nat (length U) →
  narcs (<[Z.to_nat c := l']> U) a b =
  if decide (a = c) then occ b l' else narcs U a b.
Proof.
  intros Hc. unfold narcs. destruct (decide (a = c)) as [->|Hne].
  - by rewrite at_insert_eq.
  - by rewrite at_insert_ne by lia.
Qed.

Lemma find_reciprocal_Some fr k ut i :
  find_reciprocal fr k ut = Some i → ∃ j, ut !! j = Some fr.
Proof.
  revert k. induction ut as [|u ut IH]; intros k; simpl; [done|].
  destruct (decide (u = fr)) as [->|]; [by exists 0%nat|].
  intros H. apply IH in H as [j Hj]. by exists (S j).
Qed.

Lemma find_reciprocal_index fr k ut i :
  find_reciprocal fr k ut = Some i → ut !! (i - k)%nat = Some fr ∧ (k ≤ i)%nat.
Proof.
  revert k. induction ut as [|u ut IH]; intros k; simpl; [done|].
  destruct (decide (u = fr)) as [->|].
  - intros [= <-]. by rewrite Nat.sub_diag.
  - intros H. apply IH in H as [Hj Hle].
    replace (i - k)%nat with (S (i - S k)) by lia. split; [done|lia].
Qed.

Lemma find_reciprocal_None fr k ut :
  find_reciprocal fr k ut = None → occ fr ut = 0%nat.
Proof.
  revert k. induction ut as [|u ut IH]; intros k; simpl; [done|].
  destruct (decide (u = fr)); [done|]. intros H. by rewrite (IH _ H).
Qed.

(** The number of times the arc from [a] to [b] is in a list of arcs. *)
Fixpoint pcount (a : Z) (b : NI) (l : list (Z * NI)) : nat :=
  match l with
  | [] => 0
  | p :: l' => (if decide (p = (a, b)) then 1 else 0) + pcount a b l'
  end.

(** The arcs of the nodes [fr], [fr + 1], ... whose arc lists are [g], in
    the order in which the loops of [IsUndirected] take them up. *)
Fixpoint arcs_of (fr : Z) (g : list (list NI)) : list (Z * NI) :=
  match g with
  | [] => []
  | to :: rest => ((λ t, (fr, t)) <$> to) ++ arcs_of (fr + 1) rest
  end.

(** The loop body of [IsUndirected] along a list of arcs. *)
Fixpoint pair_arcs (l : list (Z * NI)) (unpaired : AdjacencyList)
  : option AdjacencyList :=
  match l with
  | [] => Some unpaired
  | (fr, to) :: l' =>
      unpaired' ← IsUndirected_arc fr to unpaired; pair_arcs l' unpaired'
  end.

Lemma pcount_app a b l1 l2 :
  pcount a b (l1 ++ l2) = (pcount a b l1 + pcount a b l2)%nat.
Proof. induction l1 as [|p l1 IH]; simpl; [done|]. rewrite IH. lia. Qed.

Lemma pcount_from fr to a b :
  pcount a b ((λ t, (fr, t)) <$> to) =
  if decide (a = fr) then occ b to else 0%nat.
Proof.
  induction to as [|t to IH]; csimpl; [by destruct (decide (a = fr))|].
  rewrite IH. destruct (decide (a = fr)) as [->|Hne].
  - destruct (decide (t = b)) as [->|Hb].
    + by rewrite decide_True.
    + rewrite decide_False; [done|]. by intros [=].
  - rewrite decide_False; [done|]. intros [=]. congruence.
Qed.

Lemma pcount_arcs_of fr g a b :
  pcount a b (arcs_of fr g) =
  match (if decide (fr ≤ a) then g !! Z.to_nat (a - fr) else None) with
  | Some l => occ b l
  | None => 0%nat
  end.
Proof.
  revert fr. induction g as [|to g IH]; intros fr; cbn [arcs_of].
  - simpl. by destruct (decide (fr ≤ a)).
  - rewrite pcount_app, pcount_from, IH.
    destruct (decide (a = fr)) as [->|Hne].
    + destruct (decide (fr ≤ fr)); [|lia].
      destruct (decide (fr + 1 ≤ fr)); [lia|].
      rewrite Z.sub_diag. simpl. lia.
    + destruct (decide (fr ≤ a)) as [Hle|Hgt].
      * destruct (decide (fr + 1 ≤ a)); [|lia].
        replace (Z.to_nat (a - fr)) with (S (Z.to_nat (a - (fr + 1)))) by lia.
        done.
      * by destruct (decide (fr + 1 ≤ a)); [lia|].
Qed.

Lemma narcs_arcs_of g a b : pcount a b (arcs_of 0 g) = narcs g a b.
Proof.
  rewrite pcount_arcs_of. unfold narcs, at_. by rewrite Z.sub_0_r.
Qed.

Lemma pair_arcs_app l1 l2 U :
  pair_arcs (l1 ++ l2) U = U' ← pair_arcs l1 U; pair_arcs l2 U'.
Proof.
  revert U. induction l1 as [|[fr to] l1 IH]; intros U; simpl; [done|].
  destruct (IsUndirected_arc fr to U); simpl; [apply IH|done].
Qed.

Lemma IsUndirected_arcs_pair fr to U :
  IsUndirected_arcs fr to U = pair_arcs ((λ t, (fr, t)) <$> to) U.
Proof.
  revert U. induction to as [|t to IH]; intros U; csimpl; [done|].
  destruct (IsUndirected_arc fr t U); csimpl; [apply IH|done].
Qed.

Lemma IsUndirected_nodes_pair fr g U :
  IsUndirected_nodes fr g U = pair_arcs (arcs_of fr g) U.
Proof.
  revert fr U. induction g as [|to g IH]; intros fr U; [done|].
  cbn [arcs_of IsUndirected_nodes].
  rewrite pair_arcs_app, IsUndirected_arcs_pair.
  destruct (pair_arcs _ U); simpl; [apply IH|done].
Qed.

Lemma arcs_of_range fr g a b :
  (a, b) ∈ arcs_of fr g →
  fr ≤ a < fr + Z.of_nat (length g) ∧
  ∃ l, g !! Z.to_nat (a - fr) = Some l ∧ b ∈ l.
Proof.
  revert fr. induction g as [|to g IH]; intros fr; cbn [arcs_of].
  - by intros ?%elem_of_nil.
  - intros [Hin|Hin]%elem_of_app.
    + apply list_elem_of_fmap in Hin as (t & [= -> ->] & Ht).
      split; [cbn [length]; lia|]. exists to. by rewrite Z.sub_diag.
    + apply IH in Hin as (Hr & l & Hl & Hb).
      split; [cbn [length]; lia|]. exists l.
      replace (Z.to_nat (a - fr)) with (S (Z.to_nat (a - (fr + 1)))) by lia.
      done.
Qed.

(** What the loops of [IsUndirected] keep: after the arcs [proc], the list
    [unpaired] of a graph of [n] nodes holds, for two different nodes, the
    excess of the arcs one way over the arcs the other way. *)
Record pairing (n : nat) (proc : list (Z * NI)) (U : AdjacencyList)
  : Prop := {
  pairing_length : length U = n;
  pairing_range : in_range U;
  pairing_loops : ∀ a, narcs U a a = 0%nat;
  pairing_diff : ∀ a b, a ≠ b →
    (narcs U a b + pcount b a proc = narcs U b a + pcount a b proc)%nat;
  pairing_one : ∀ a b, a ≠ b → narcs U a b = 0%nat ∨ narcs U b a = 0%nat
}.

Lemma pcount_snoc a b proc fr to :
  pcount a b (proc ++ [(fr, to)]) =
  (pcount a b proc + if decide (fr = a ∧ to = b) then 1 else 0)%nat.
Proof.
  rewrite pcount_app. simpl.
  destruct (decide (fr = a ∧ to = b)) as [[-> ->]|Hne].
  - rewrite decide_True by done. lia.
  - rewrite decide_False; [lia|]. intros [= -> ->]. by apply Hne.
Qed.

Lemma pairing_step n proc U fr to :
  Z.of_nat n ≤ 2 ^ 31 →
  0 ≤ fr < Z.of_nat n → 0 ≤ to < Z.of_nat n →
  pairing n proc U →
  ∃ U', IsUndirected_arc fr to U = Some U' ∧
        pairing n (proc ++ [(fr, to)]) U'.
Proof.
  intros Hn Hfr Hto [Hlen Hrange Hloops Hdiff Hone].
  unfold IsUndirected_arc. rewrite toNI_small by lia.
  destruct (decide (to = fr)) as [->|Hne].
  { exists U. split; [done|]. split; try done.
    intros a b Hab. rewrite !pcount_snoc.
    rewrite !decide_False by (intros [-> ->]; done). rewrite !Nat.add_0_r.
    by apply Hdiff. }
  destruct (at_ U to) as [ut|] eqn:Hut.
  2:{ apply at_None in Hut. lia. }
  destruct (at_ U fr) as [ufr|] eqn:Hufr.
  2:{ apply at_None in Hufr. lia. }
  simpl.
  assert (∀ b, narcs U to b = occ b ut) as Hnto.
  { intros b. unfold narcs. by rewrite Hut. }
  assert (∀ b, narcs U fr b = occ b ufr) as Hnfr.
  { intros b. unfold narcs. by rewrite Hufr. }
  destruct (find_reciprocal fr 0 ut) as [i|] eqn:Hfind.
  - apply find_reciprocal_index in Hfind as [Hi _].
    rewrite Nat.sub_0_r in Hi.
    eexists. split; [done|].
    assert (∀ a b, (narcs (<[Z.to_nat to := swap_remove ut i]> U) a b +
              (if decide (a = to ∧ b = fr) then 1 else 0) = narcs U a b)%nat)
      as Hn'.
    { intros a b. rewrite narcs_insert by lia.
      pose proof (occ_swap_remove b ut i fr Hi) as Hocc.
      destruct (decide (a = to)) as [->|Hato].
      - rewrite (Hnto b), Hocc.
        destruct (decide (fr = b)) as [->|Hb].
        + rewrite decide_True by done. lia.
        + rewrite decide_False by (intros [_ ->]; done). lia.
      - rewrite decide_False by (intros [-> _]; done). lia. }
    split.
    + by rewrite length_insert.
    + intros a l x Ha Hx. rewrite length_insert.
      destruct (decide (a = to)) as [->|Hato].
      * rewrite at_insert_eq in Ha by lia. simplify_eq.
        apply (Hrange to ut x Hut). apply occ_le_elem.
        apply occ_le_elem in Hx.
        pose proof (occ_swap_remove x ut i fr Hi). lia.
      * rewrite at_insert_ne in Ha by lia. by eapply Hrange.
    + intros a. pose proof (Hn' a a). pose proof (Hloops a). lia.
    + intros a b Hab. rewrite !pcount_snoc.
      pose proof (Hn' a b) as Hab'. pose proof (Hn' b a) as Hba'.
      pose proof (Hdiff a b Hab) as Hd. revert Hab' Hba' Hd.
      destruct (decide (a = to ∧ b = fr)) as [[? ?]|N1];
        destruct (decide (b = to ∧ a = fr)) as [[? ?]|N2];
        destruct (decide (fr = b ∧ to = a)) as [[? ?]|N3];
        destruct (decide (fr = a ∧ to = b)) as [[? ?]|N4];
        intros; try lia; exfalso; try (apply N1; split; congruence);
        try (apply N2; split; congruence); try (apply N3; split; congruence);
        try (apply N4; split; congruence).
    + intros a b Hab. pose proof (Hn' a b). pose proof (Hn' b a).
      destruct (Hone a b Hab); [left|right]; lia.
  - apply find_reciprocal_None in Hfind.
    eexists. split; [done|].
    assert (∀ a b, narcs (<[Z.to_nat fr := ufr ++ [to]]> U) a b =
              (narcs U a b + if decide (a = fr ∧ b = to) then 1 else 0)%nat)
      as Hn'.
    { intros a b. rewrite narcs_insert by lia.
      destruct (decide (a = fr)) as [->|Hafr].
      - rewrite occ_app, Hnfr. simpl.
        destruct (decide (to = b)) as [->|Hb].
        + rewrite decide_True by done. lia.
        + rewrite decide_False by (intros [_ ->]; done). lia.
      - rewrite decide_False by (intros [-> _]; done). lia. }
    split.
    + by rewrite length_insert.
    + intros a l x Ha Hx. rewrite length_insert.
      destruct (decide (a = fr)) as [->|Hafr].
      * rewrite at_insert_eq in Ha by lia. simplify_eq.
        apply elem_of_app in Hx as [Hx|Hx%list_elem_of_singleton].
        -- by eapply Hrange.
        -- lia.
      * rewrite at_insert_ne in Ha by lia. by eapply Hrange.
    + intros a. rewrite Hn', Hloops.
      rewrite decide_False; [done|]. intros [-> ->]. done.
    + intros a b Hab. rewrite !pcount_snoc, !Hn'.
      pose proof (Hdiff a b Hab) as Hd. revert Hd.
      destruct (decide (a = fr ∧ b = to)) as [[? ?]|N1];
        destruct (decide (b = fr ∧ a = to)) as [[? ?]|N2];
        destruct (decide (fr = b ∧ to = a)) as [[? ?]|N3];
        destruct (decide (fr = a ∧ to = b)) as [[? ?]|N4];
        intros; try lia; exfalso; try (apply N1; split; congruence);
        try (apply N2; split; congruence); try (apply N3; split; congruence);
        try (apply N4; split; congruence).
    + intros a b Hab. rewrite !Hn'.
      destruct (decide (a = fr ∧ b = to)) as [[-> ->]|H1].
      * right. rewrite decide_False by (intros [? ?]; congruence).
        rewrite (Hnto fr). lia.
      * destruct (decide (b = fr ∧ a = to)) as [[-> ->]|H2].
        -- left. rewrite (Hnto fr). lia.
        -- destruct (Hone a b Hab); [left|right]; lia.
Qed.

Lemma pairing_run n l proc U :
  Z.of_nat n ≤ 2 ^ 31 →
  (∀ fr to, (fr, to) ∈ l → 0 ≤ fr < Z.of_nat n ∧ 0 ≤ to < Z.of_nat n) →
  pairing n proc U →
  ∃ U', pair_arcs l U = Some U' ∧ pairing n (proc ++ l) U'.
Proof.
  intros Hn. revert proc U.
  induction l as [|[fr to] l IH]; intros proc U Hl HU.
  - exists U. by rewrite app_nil_r.
  - destruct (Hl fr to ltac:(by left)) as [Hfr Hto].
    destruct (pairing_step n proc U fr to Hn Hfr Hto HU) as (U1 & H1 & HU1).
    destruct (IH (proc ++ [(fr, to)]) U1) as (U2 & H2 & HU2);
      [intros; apply Hl; by right|done|].
    exists U2. simpl. rewrite H1. simpl. split; [done|].
    by rewrite <- app_assoc in HU2.
Qed.

Lemma first_unpaired_none fr (U : list (list NI)) :
  (∀ l, l ∈ U → l = []) → first_unpaired fr U = (true, -1, -1).
Proof.
  revert fr. induction U as [|l U IH]; intros fr HU; simpl; [done|].
  rewrite (HU l) by (by left). apply IH. intros l' Hl'. apply HU. by right.
Qed.

(** A symmetric graph of at most 2^31 nodes, all of whose arcs end in the
    graph, is undirected for [IsUndirected]. *)
Lemma IsUndirected_symmetric g :
  Z.of_nat (length g) ≤ 2 ^ 31 → in_range g → symmetric g →
  IsUndirected g = Some (true, -1, -1).
Proof.
  intros Hn Hrange Hsym. unfold IsUndirected.
  rewrite IsUndirected_nodes_pair.
  destruct (pairing_run (length g) (arcs_of 0 g) [] (replicate (length g) []))
    as (U & -> & [Hlen HrU Hloops Hdiff Hone]); [done| | |].
  - intros fr to Hin. apply arcs_of_range in Hin as (Hfr & l & Hl & Hto).
    rewrite Z.sub_0_r in Hl. split; [lia|].
    apply (Hrange fr l to); [|done]. apply at_Some. split; [lia|done].
  - assert (∀ a b, narcs (replicate (length g) ([] : list NI)) a b = 0%nat)
      as Hz.
    { intros a b. unfold narcs.
      destruct (at_ _ a) as [l|] eqn:Ha; [|done].
      apply at_Some in Ha as [_ Ha]. by apply lookup_replicate in Ha as [-> _]. }
    split.
    + apply length_replicate.
    + intros a l x Ha Hx. apply at_Some in Ha as [_ Ha].
      apply lookup_replicate in Ha as [-> _]. by apply elem_of_nil in Hx.
    + intros a. apply Hz.
    + intros a b _. by rewrite !Hz.
    + intros a b _. left. apply Hz.
  - simpl. f_equal. apply first_unpaired_none.
    intros l Hl. apply list_elem_of_lookup_1 in Hl as [i Hi].
    assert (at_ U (Z.of_nat i) = Some l) as Ha by (by rewrite at_of_nat).
    apply occ_nil_all. intros x Hx.
    assert (narcs U (Z.of_nat i) x = occ x l) as <-.
    { unfold narcs. by rewrite Ha. }
    destruct (decide (x = Z.of_nat i)) as [->|Hne]; [apply Hloops|].
    pose proof (Hdiff (Z.of_nat i) x ltac:(done)) as Hd.
    rewrite app_nil_l in Hd.
    rewrite !narcs_arcs_of, (Hsym x (Z.of_nat i)) in Hd by done.
    destruct (Hone (Z.of_nat i) x ltac:(done)); lia.
Qed.

(** *** From a tree to an undirected graph *)

Lemma FromList_BoundsOk_from_true len n paths :
  (FromList_BoundsOk_from len n paths).1 = true →
  ∀ e, e ∈ paths → From e = -1 ∨ 0 ≤ From e < len.
Proof.
  revert n. induction paths as [|e' paths IH]; intros n; simpl.
  - intros _ e He. by apply elem_of_nil in He.
  - destruct (decide (From e' = -1 ∨ 0 ≤ From e' < len)) as [Hok|]; [|done].
    intros H e [->|He]%elem_of_cons; [done|by eapply IH].
Qed.

Lemma add_arc_Some (g : AdjacencyList) n to :
  0 ≤ n < Z.of_nat (length g) →
  ∃ l, at_ g n = Some l ∧
       add_arc g n to = Some (<[Z.to_nat n := l ++ [to]]> g).
Proof.
  intros Hn. unfold add_arc.
  destruct (at_ g n) as [l|] eqn:Hl.
  - exists l. split; [done|]. simpl. unfold upd.
    by destruct (decide (0 ≤ n < Z.of_nat (length g))).
  - apply at_None in Hl. lia.
Qed.

Lemma narcs_add_arc (g : AdjacencyList) n to l a b :
  0 ≤ n < Z.of_nat (length g) → at_ g n = Some l →
  narcs (<[Z.to_nat n := l ++ [to]]> g) a b =
  (narcs g a b + if decide (a = n ∧ b = to) then 1 else 0)%nat.
Proof.
  intros Hn Hl. rewrite narcs_insert by done.
  destruct (decide (a = n)) as [->|Hne].
  - unfold narcs. rewrite Hl, occ_app. simpl.
    destruct (decide (to = b)) as [->|Hb].
    + rewrite decide_True by done. lia.
    + rewrite decide_False by (intros [_ ->]; done). lia.
  - rewrite decide_False by (intros [-> _]; done). lia.
Qed.

Lemma in_range_add_arc (g : AdjacencyList) n to l :
  0 ≤ n < Z.of_nat (length g) → 0 ≤ to < Z.of_nat (length g) →
  at_ g n = Some l → in_range g →
  in_range (<[Z.to_nat n := l ++ [to]]> g).
Proof.
  intros Hn Hto Hl Hg a l' x Ha Hx. rewrite length_insert.
  destruct (decide (a = n)) as [->|Hne].
  - rewrite at_insert_eq in Ha by done. simplify_eq.
    apply elem_of_app in Hx as [Hx|Hx%list_elem_of_singleton]; [|lia].
    by eapply Hg.
  - rewrite at_insert_ne in Ha by lia. by eapply Hg.
Qed.

Lemma Undirected_from_ok (N : nat) paths n (g : AdjacencyList) :
  Z.of_nat N ≤ 2 ^ 31 →
  0 ≤ n → n + Z.of_nat (length paths) ≤ Z.of_nat N →
  (∀ e, e ∈ paths → From e = -1 ∨ 0 ≤ From e < Z.of_nat N) →
  length g = N → in_range g → symmetric g →
  ∃ g', Undirected_from n paths g = Some g' ∧
        length g' = N ∧ in_range g' ∧ symmetric g'.
Proof.
  intros HN. revert n g.
  induction paths as [|e paths IH]; intros n g Hn Hlen Hb Hg Hr Hs.
  { by exists g. }
  cbn [length] in Hlen. cbn [Undirected_from].
  assert (∀ e', e' ∈ paths → From e' = -1 ∨ 0 ≤ From e' < Z.of_nat N) as Hb'.
  { intros e' He'. apply Hb. by right. }
  destruct (decide (From e = -1)) as [|Hroot].
  { apply IH; [lia|lia|done..]. }
  destruct (Hb e ltac:(by left)) as [|Hp]; [done|].
  rewrite toNI_small by lia.
  destruct (decide (From e = n)) as [Hself|Hne].
  - destruct (add_arc_Some g (From e) n) as (l & Hl & Hadd); [lia|].
    simpl. rewrite Hadd. simpl.
    apply IH; [lia|lia|done|by rewrite length_insert| |].
    + apply in_range_add_arc; [lia|lia|done|done].
    + intros a b Hab. rewrite !narcs_add_arc by (done || lia).
      rewrite !decide_False by (intros [? ?]; congruence).
      rewrite !Nat.add_0_r. by apply Hs.
  - destruct (add_arc_Some g n (From e)) as (l & Hl & Hadd); [lia|].
    rewrite Hadd. simpl.
    set (g1 := <[Z.to_nat n := l ++ [From e]]> g).
    assert (length g1 = N) as Hg1 by (unfold g1; by rewrite length_insert).
    destruct (add_arc_Some g1 (From e) n) as (l1 & Hl1 & Hadd1); [lia|].
    rewrite Hadd1. simpl.
    apply IH; [lia|lia|done|by rewrite length_insert| |].
    + apply in_range_add_arc; [lia|lia|done|].
      apply in_range_add_arc; [lia|lia|done|done].
    + intros a b Hab. rewrite !narcs_add_arc by (done || lia).
      unfold g1. rewrite !narcs_add_arc by (done || lia).
      pose proof (Hs a b Hab) as Hsym. revert Hsym.
      destruct (decide (a = n ∧ b = From e)) as [[? ?]|N1];
        destruct (decide (b = n ∧ a = From e)) as [[? ?]|N2];
        destruct (decide (a = From e ∧ b = n)) as [[? ?]|N3];
        destruct (decide (b = From e ∧ a = n)) as [[? ?]|N4];
        intros; try lia; exfalso; try (apply N1; split; congruence);
        try (apply N2; split; congruence); try (apply N3; split; congruence);
        try (apply N4; split; congruence).
Qed.

(** C8.  For a tree of at most 2^31 nodes that [BoundsOk] accepts (every
    parent is -1 or a node of the tree), [Undirected] gives a graph, and
    [IsUndirected] answers true on it, with no unpaired arc to show. *)
Theorem Undirected_IsUndirected paths :
  Z.of_nat (length paths) ≤ 2 ^ 31 →
  (FromList_BoundsOk paths).1 = true →
  ∃ g, Undirected paths = Some g ∧ IsUndirected g = Some (true, -1, -1).
Proof.
  intros HN Hb. unfold Undirected.
  destruct (Undirected_from_ok (length paths) paths 0
              (replicate (length paths) [])) as (g & Hg & Hlen & Hr & Hs).
  - done.
  - done.
  - lia.
  - by apply (FromList_BoundsOk_from_true _ 0).
  - apply length_replicate.
  - intros a l x Ha Hx. apply at_Some in Ha as [_ Ha].
    apply lookup_replicate in Ha as [-> _]. by apply elem_of_nil in Hx.
  - assert (∀ a b, narcs (replicate (length paths) ([] : list NI)) a b = 0%nat)
      as Hz.
    { intros a b. unfold narcs.
      destruct (at_ _ a) as [l|] eqn:Ha; [|done].
      apply at_Some in Ha as [_ Ha]. by apply lookup_replicate in Ha as [-> _]. }
    intros a b _. by rewrite !Hz.
  - exists g. split; [done|]. apply IsUndirected_symmetric; [lia|done|done].
Qed.

(** ** Trees *)

(** The parent pointers and lengths of the reached nodes are those of a
    forest: a reached node is a root of length 1, or its parent is reached
    and one shorter.  (So the parent pointers have no cycle.) *)
Definition tree_ok (paths : list PathEnd) : Prop :=
  ∀ n e, at_ paths n = Some e → Len e ≠ 0 →
    (From e = -1 ∧ Len e = 1) ∨
    (∃ e', at_ paths (From e) = Some e' ∧ 0 < Len e' ∧ Len e = Len e' + 1).

(** The parent-pointer walk from a node to its root: the node first, the
    root last. *)
Inductive walk (paths : list PathEnd) : NI → list NI → Prop :=
  | walk_root n e :
      at_ paths n = Some e → From e = -1 → walk paths n [n]
  | walk_step n e w :
      at_ paths n = Some e → From e ≠ -1 → walk paths (From e) w →
      walk paths n (n :: w).

Lemma walk_unique paths n w w' : walk paths n w → walk paths n w' → w = w'.
Proof.
  intros Hw. revert w'. induction Hw as [n e He Hr|n e w He Hr Hw IH];
    intros w' Hw'; inversion Hw'; simplify_eq; try done.
  f_equal. by apply IH.
Qed.

Lemma tree_ok_pos paths n e :
  tree_ok paths → at_ paths n = Some e → Len e ≠ 0 → 0 < Len e.
Proof. intros Hok Hn He. destruct (Hok n e Hn He) as [[_ ?]|(e' & _ & ? & ?)]; lia. Qed.

Lemma tree_ok_parent paths n e :
  tree_ok paths → at_ paths n = Some e → Len e ≠ 0 → From e ≠ -1 →
  ∃ e', at_ paths (From e) = Some e' ∧ 0 < Len e' ∧ Len e = Len e' + 1.
Proof. intros Hok Hn He Hr. by destruct (Hok n e Hn He) as [[? _]|?]. Qed.

Lemma tree_ok_root paths n e :
  tree_ok paths → at_ paths n = Some e → Len e = 1 → From e = -1.
Proof.
  intros Hok Hn He. destruct (Hok n e Hn ltac:(lia)) as [[? _]|(e' & _ & ? & ?)];
    [done|lia].
Qed.

(** The walk of a reached node of a tree has as many nodes as its length
    says. *)
Lemma walk_exists paths (k : nat) n e :
  tree_ok paths → at_ paths n = Some e → Len e = Z.of_nat k → Len e ≠ 0 →
  ∃ w, walk paths n w ∧ length w = k.
Proof.
  intros Hok. revert n e. induction k as [|k IH]; intros n e Hn Hk He; [lia|].
  destruct (Hok n e Hn He) as [[Hr _]|(e' & He' & Hpos & Hl)].
  - exists [n]. split; [by eapply walk_root|]. simpl.
    pose proof (tree_ok_parent paths n e Hok Hn He) as Hp.
    destruct (decide (k = 0%nat)) as [->|]; [done|].
    destruct (Hok n e Hn He) as [[_ ?]|(e' & He' & _)]; [lia|].
    rewrite Hr in He'. by apply at_Some in He' as [? _].
  - destruct (IH (From e) e' He' ltac:(lia) ltac:(lia)) as (w & Hw & Hlen).
    exists (n :: w). split; [|by rewrite <- Hlen].
    eapply walk_step; [done| |done].
    intros Hr. rewrite Hr in He'. by apply at_Some in He' as [? _].
Qed.

(** *** PathTo *)

Lemma PathTo_fill_walk paths (k : nat) n e buf :
  tree_ok paths → at_ paths n = Some e → Len e = Z.of_nat k → Len e ≠ 0 →
  (k ≤ length buf)%nat →
  ∃ w, walk paths n w ∧ length w = k ∧
       PathTo_fill paths k n buf = Some (reverse w ++ drop k buf).
Proof.
  intros Hok. revert n e buf.
  induction k as [|k IH]; intros n e buf Hn Hk He Hbuf; [lia|].
  cbn [PathTo_fill].
  assert (drop k (<[k := n]> buf) = n :: drop (S k) buf) as Hdrop.
  { rewrite (drop_S _ n) by (apply list_lookup_insert_eq; lia).
    by rewrite drop_insert_lt by lia. }
  destruct (decide (k = 0%nat)) as [->|Hk0].
  - exists [n]. split_and!; [|done|].
    + eapply walk_root; [done|]. eapply tree_ok_root; [done..|lia].
    + rewrite drop_0 in Hdrop. by rewrite Hdrop.
  - rewrite Hn. simpl.
    destruct (Hok n e Hn He) as [[_ ?]|(e' & He' & Hpos & Hl)]; [lia|].
    destruct (IH (From e) e' (<[k := n]> buf) He') as (w & Hw & Hlen & Hfill);
      [lia|lia|rewrite length_insert; lia|].
    exists (n :: w). split_and!.
    + eapply walk_step; [done| |done].
      intros Hr. rewrite Hr in He'. by apply at_Some in He' as [? _].
    + by rewrite <- Hlen.
    + rewrite Hfill, Hdrop, reverse_cons, <- app_assoc. done.
Qed.

(** C6.  On a tree, for a reached node: [PathTo] returns the parent-pointer
    walk from the node to its root, reversed, which is the path from the
    root down to the node, whatever buffer it is given; for a root it
    returns the root alone. *)
Theorem PathTo_reverse_walk paths t e buf :
  tree_ok paths → at_ paths t = Some e → Len e ≠ 0 →
  (∃ w, walk paths t w ∧ PathTo paths t buf = Some (reverse w)) ∧
  (From e = -1 → PathTo paths t buf = Some [t]).
Proof.
  intros Hok Ht He.
  assert (∃ w, walk paths t w ∧ PathTo paths t buf = Some (reverse w))
    as (w & Hw & Hp).
  { pose proof (tree_ok_pos paths t e Hok Ht He) as Hpos.
    unfold PathTo. rewrite Ht. simpl.
    destruct (decide (Len e < 0)); [lia|].
    set (k := Z.to_nat (Len e)).
    set (b := match buf with
              | Some b => if decide (k ≤ length b)%nat then take k b
                          else replicate k 0
              | None => replicate k 0
              end).
    assert (length b = k) as Hb.
    { unfold b. destruct buf as [b'|]; [|apply length_replicate].
      destruct (decide (k ≤ length b')%nat); [|apply length_replicate].
      rewrite length_take. lia. }
    destruct (PathTo_fill_walk paths k t e b Hok Ht) as (w & Hw & Hlen & Hfill);
      [lia|done|lia|].
    exists w. split; [done|].
    by rewrite Hfill, drop_ge, app_nil_r by lia. }
  split; [by exists w|].
  intros Hr. rewrite Hp. f_equal.
  assert (walk paths t [t]) as Hw' by (by eapply walk_root).
  by rewrite (walk_unique _ _ _ _ Hw Hw').
Qed.

(** *** CommonAncestor *)

(** The recorded length of a node (0 outside of the tree). *)
Definition Len_of (paths : list PathEnd) (n : NI) : Z :=
  match at_ paths n with
  | Some e => Len e
  | None => 0
  end.

(** The root of the tree a node is in: the last node of its walk. *)
Definition root_of (paths : list PathEnd) (n r : NI) : Prop :=
  ∃ w, walk paths n w ∧ last w = Some r.

(** [x] is on the root path of [n]. *)
Definition on_path (paths : list PathEnd) (n x : NI) : Prop :=
  ∃ w, walk paths n w ∧ x ∈ w.

Lemma walk_head paths n w : walk paths n w → ∃ w', w = n :: w'.
Proof. destruct 1; eauto. Qed.

Lemma walk_lens paths n e w :
  tree_ok paths → walk paths n w → at_ paths n = Some e → Len e ≠ 0 →
  ∃ w', w = n :: w' ∧ ∀ x, x ∈ w' → 0 < Len_of paths x < Len e.
Proof.
  intros Hok Hw. revert e.
  induction Hw as [n e0 He0 Hr|n e0 w He0 Hr Hw IH]; intros e Hn He;
    assert (e0 = e) as -> by congruence.
  - exists []. split; [done|]. by intros x ?%elem_of_nil.
  - exists w. split; [done|].
    destruct (tree_ok_parent paths n e Hok Hn He Hr) as (e' & He' & Hpos & Hl).
    destruct (IH e' He' ltac:(lia)) as (w' & -> & Hw').
    intros x [->|Hx]%elem_of_cons.
    + unfold Len_of. rewrite He'. lia.
    + apply Hw' in Hx. lia.
Qed.

Lemma walk_suffix paths n w d :
  walk paths n w → d ∈ w → ∃ pre wd, w = pre ++ wd ∧ walk paths d wd.
Proof.
  induction 1 as [n e He Hr|n e w He Hr Hw IH].
  - intros ->%list_elem_of_singleton. exists [], [n]. split; [done|].
    by eapply walk_root.
  - intros [->|Hd]%elem_of_cons.
    + exists [], (n :: w). split; [done|]. by eapply walk_step.
    + destruct (IH Hd) as (pre & wd & -> & Hwd). by exists (n :: pre), wd.
Qed.

Lemma walk_last_suffix paths n w d :
  walk paths n w → d ∈ w → ∀ wd, walk paths d wd → last w = last wd.
Proof.
  intros Hw Hd wd Hwd.
  destruct (walk_suffix _ _ _ _ Hw Hd) as (pre & wd' & -> & Hwd').
  rewrite (walk_unique _ _ _ _ Hwd Hwd').
  destruct (walk_head _ _ _ Hwd') as [w' ->]. by rewrite last_app_cons.
Qed.

(** [c] is the lowest common node of two walks, or -1 when they have no
    common node. *)
Definition lca_of (paths : list PathEnd) (wa wb : list NI) (c : NI) : Prop :=
  (c = -1 ∧ ∀ d, d ∈ wa → d ∉ wb) ∨
  (c ∈ wa ∧ c ∈ wb ∧
   ∀ d, d ∈ wa → d ∈ wb → Len_of paths d ≤ Len_of paths c).

Lemma lockstep_lca paths (k : nat) fuel a b ea eb wa wb :
  tree_ok paths →
  at_ paths a = Some ea → at_ paths b = Some eb →
  Len ea = Z.of_nat k → Len eb = Z.of_nat k → (1 ≤ k ≤ fuel)%nat →
  walk paths a wa → walk paths b wb →
  ∃ c, lockstep fuel paths a b = Some c ∧ lca_of paths wa wb c.
Proof.
  intros Hok. revert fuel a b ea eb wa wb.
  induction k as [|k IH]; intros fuel a b ea eb wa wb Ha Hb Hka Hkb Hk Hwa Hwb;
    [lia|].
  destruct fuel as [|fuel]; [lia|]. cbn [lockstep].
  destruct (walk_lens paths a ea wa Hok Hwa Ha ltac:(lia)) as (wa' & -> & Hla).
  destruct (walk_lens paths b eb wb Hok Hwb Hb ltac:(lia)) as (wb' & -> & Hlb).
  destruct (decide (a = b)) as [->|Hab].
  { exists b. split; [done|]. right.
    rewrite (walk_unique _ _ _ _ Hwb Hwa). split_and!; [by left|by left|].
    intros d [->|Hd]%elem_of_cons _; [done|].
    apply Hla in Hd. unfold Len_of at 2. rewrite Hb. simplify_eq. lia. }
  rewrite Ha, Hb. simpl.
  assert (Len_of paths a = Z.of_nat (S k)) as Hlena by (unfold Len_of; by rewrite Ha).
  assert (Len_of paths b = Z.of_nat (S k)) as Hlenb by (unfold Len_of; by rewrite Hb).
  assert (a ∉ wb') as Hawb by (intros Hin; apply Hlb in Hin; lia).
  assert (b ∉ wa') as Hbwa by (intros Hin; apply Hla in Hin; lia).
  destruct (decide (From ea = -1 ∧ From eb = -1)) as [[Hra Hrb]|Hnr].
  { exists (-1). split; [done|]. left. split; [done|].
    inversion Hwa; simplify_eq. inversion Hwb; simplify_eq.
    intros d ->%list_elem_of_singleton. by rewrite list_elem_of_singleton. }
  assert (From ea ≠ -1 ∧ From eb ≠ -1) as [Hra Hrb].
  { destruct (decide (k = 0%nat)) as [->|].
    - exfalso. apply Hnr.
      split; eapply tree_ok_root; try done; lia.
    - split; intros Hr.
      + destruct (Hok a ea Ha ltac:(lia)) as [[_ ?]|(e' & He' & _)]; [lia|].
        rewrite Hr in He'. by apply at_Some in He' as [? _].
      + destruct (Hok b eb Hb ltac:(lia)) as [[_ ?]|(e' & He' & _)]; [lia|].
        rewrite Hr in He'. by apply at_Some in He' as [? _]. }
  destruct (tree_ok_parent paths a ea Hok Ha ltac:(lia) Hra) as (ea' & Hea' & Hpa & Hla').
  destruct (tree_ok_parent paths b eb Hok Hb ltac:(lia) Hrb) as (eb' & Heb' & Hpb & Hlb').
  inversion Hwa as [|? ? ? Ha2 _ Hwa']; simplify_eq.
  inversion Hwb as [|? ? ? Hb2 _ Hwb']; simplify_eq.
  destruct (decide (From ea = -1 ∧ From eb = -1)) as [[? _]|_]; [done|].
  destruct (IH fuel (From ea) (From eb) ea' eb' wa' wb' Hea' Heb')
    as (c & Hc & Hlca); [lia|lia|lia|done|done|].
  exists c. split; [done|].
  assert (∀ d, d ∈ a :: wa' → d ∈ b :: wb' → d ∈ wa' ∧ d ∈ wb') as Hcommon.
  { intros d [->|Hda]%elem_of_cons [->|Hdb]%elem_of_cons; try done. }
  destruct Hlca as [[-> Hno]|(Hca & Hcb & Hlow)].
  - left. split; [done|]. intros d Hda Hdb.
    destruct (Hcommon d Hda Hdb) as [Hda' Hdb']. by apply (Hno d).
  - right. split_and!; [by right|by right|].
    intros d Hda Hdb. destruct (Hcommon d Hda Hdb) as [Hda' Hdb']. by apply Hlow.
Qed.

Lemma walk_up_cut paths fuel a ea wa depth :
  tree_ok paths → at_ paths a = Some ea → 1 ≤ depth ≤ Len ea →
  walk paths a wa → (Z.to_nat (Len ea - depth) < fuel)%nat →
  ∃ a' ea' pre wa',
    walk_up fuel paths a depth = Some a' ∧
    at_ paths a' = Some ea' ∧ Len ea' = depth ∧
    walk paths a' wa' ∧ wa = pre ++ wa' ∧
    ∀ x, x ∈ pre → depth < Len_of paths x.
Proof.
  intros Hok. revert a ea wa.
  induction fuel as [|fuel IH]; intros a ea wa Ha Hd Hwa Hfuel; [lia|].
  cbn [walk_up]. rewrite Ha. simpl.
  destruct (decide (Len ea ≤ depth)) as [Hle|Hgt].
  { exists a, ea, [], wa. split_and!; try done; [lia|].
    by intros x ?%elem_of_nil. }
  assert (From ea ≠ -1) as Hr.
  { intros Hr. destruct (Hok a ea Ha ltac:(lia)) as [[_ ?]|(e' & He' & _)]; [lia|].
    rewrite Hr in He'. by apply at_Some in He' as [? _]. }
  destruct (tree_ok_parent paths a ea Hok Ha ltac:(lia) Hr) as (ea' & Hea' & Hpa & Hla').
  inversion Hwa as [|? ? w' Ha2 _ Hwa']; simplify_eq.
  destruct (IH (From ea) ea' w' Hea' ltac:(lia) Hwa' ltac:(lia))
    as (a' & ea2 & pre & wa2 & Hup & Ha' & Hl' & Hw2 & -> & Hpre).
  exists a', ea2, (a :: pre), wa2. split_and!; try done.
  intros x [->|Hx]%elem_of_cons; [|by apply Hpre].
  unfold Len_of. rewrite Ha. lia.
Qed.

Lemma CommonAncestor_lca paths a b ea eb wa wb :
  tree_ok paths →
  at_ paths a = Some ea → Len ea ≠ 0 → at_ paths b = Some eb → Len eb ≠ 0 →
  walk paths a wa → walk paths b wb →
  ∃ c, CommonAncestor paths a b = Some c ∧ lca_of paths wa wb c.
Proof.
  intros Hok Ha Hea Hb Heb Hwa Hwb.
  pose proof (tree_ok_pos paths a ea Hok Ha Hea) as Hpa.
  pose proof (tree_ok_pos paths b eb Hok Hb Heb) as Hpb.
  destruct (walk_lens paths a ea wa Hok Hwa Ha Hea) as (wa0 & Hwa0 & Hla).
  destruct (walk_lens paths b eb wb Hok Hwb Hb Heb) as (wb0 & Hwb0 & Hlb).
  assert (∀ x, x ∈ wa → Len_of paths x ≤ Len ea) as Hla'.
  { intros x Hx. rewrite Hwa0 in Hx. apply elem_of_cons in Hx as [->|Hx].
    - unfold Len_of. by rewrite Ha.
    - apply Hla in Hx. lia. }
  assert (∀ x, x ∈ wb → Len_of paths x ≤ Len eb) as Hlb'.
  { intros x Hx. rewrite Hwb0 in Hx. apply elem_of_cons in Hx as [->|Hx].
    - unfold Len_of. by rewrite Hb.
    - apply Hlb in Hx. lia. }
  unfold CommonAncestor. rewrite Ha, Hb. cbn -[walk_up lockstep]. cbv zeta.
  set (fuel := S (Z.to_nat (Len ea) + Z.to_nat (Len eb))).
  destruct (decide (Len ea < Len eb)) as [Hlt|Hge].
  - destruct (walk_up_cut paths fuel b eb wb (Len ea) Hok Hb)
      as (b' & eb' & pre & wb' & -> & Hb' & Hlb2 & Hwb' & -> & Hpre);
      [lia|done|unfold fuel; lia|]. simpl.
    destruct (lockstep_lca paths (Z.to_nat (Len ea)) fuel a b' ea eb' wa wb'
                Hok Ha Hb') as (c & Hc & Hlca);
      [lia|lia|unfold fuel; lia|done|done|].
    exists c. split; [done|].
    assert (∀ d, d ∈ wa → d ∈ pre ++ wb' → d ∈ wb') as Hcut.
    { intros d Hda [Hd|Hd]%elem_of_app; [|done].
      apply Hla' in Hda. apply Hpre in Hd. lia. }
    destruct Hlca as [[-> Hno]|(Hca & Hcb & Hlow)].
    + left. split; [done|]. intros d Hda Hdb. apply (Hno d Hda). by apply Hcut.
    + right. split_and!; [done|apply elem_of_app; by right|].
      intros d Hda Hdb. apply Hlow; [done|by apply Hcut].
  - destruct (walk_up_cut paths fuel a ea wa (Len eb) Hok Ha)
      as (a' & ea' & pre & wa' & -> & Ha' & Hla2 & Hwa' & -> & Hpre);
      [lia|done|unfold fuel; lia|]. simpl.
    destruct (lockstep_lca paths (Z.to_nat (Len eb)) fuel a' b ea' eb wa' wb
                Hok Ha' Hb) as (c & Hc & Hlca);
      [lia|lia|unfold fuel; lia|done|done|].
    exists c. split; [done|].
    assert (∀ d, d ∈ pre ++ wa' → d ∈ wb → d ∈ wa') as Hcut.
    { intros d [Hd|Hd]%elem_of_app Hdb; [|done].
      apply Hlb' in Hdb. apply Hpre in Hd. lia. }
    destruct Hlca as [[-> Hno]|(Hca & Hcb & Hlow)].
    + left. split; [done|]. intros d Hda Hdb. apply (Hno d); [|done]. by apply Hcut.
    + right. split_and!; [apply elem_of_app; by right|done|].
      intros d Hda Hdb. apply Hlow; [by apply Hcut|done].
Qed.

(** C5.  On a tree, for two reached nodes [a] and [b] whose roots are [ra]
    and [rb]: [CommonAncestor] returns; when the roots differ ([a] and [b]
    are in different trees of the forest) it returns the sentinel -1;
    when they are the same, it returns a node that is on the root paths of
    both, and no node on both root paths has a greater length. *)
Theorem CommonAncestor_lowest paths a b ea eb ra rb :
  tree_ok paths →
  at_ paths a = Some ea → Len ea ≠ 0 → at_ paths b = Some eb → Len eb ≠ 0 →
  root_of paths a ra → root_of paths b rb →
  ∃ c, CommonAncestor paths a b = Some c ∧
    (ra ≠ rb → c = -1) ∧
    (ra = rb →
       on_path paths a c ∧ on_path paths b c ∧
       ∀ d, on_path paths a d → on_path paths b d →
         Len_of paths d ≤ Len_of paths c).
Proof.
  intros Hok Ha Hea Hb Heb (wa & Hwa & Hra) (wb & Hwb & Hrb).
  destruct (CommonAncestor_lca paths a b ea eb wa wb Hok Ha Hea Hb Heb Hwa Hwb)
    as (c & Hc & Hlca).
  exists c. split; [done|].
  assert (∀ d, d ∈ wa → d ∈ wb → ra = rb) as Hsame.
  { intros d Hda Hdb.
    destruct (walk_suffix _ _ _ _ Hwa Hda) as (_ & wd & _ & Hwd).
    rewrite (walk_last_suffix _ _ _ _ Hwa Hda wd Hwd) in Hra.
    rewrite (walk_last_suffix _ _ _ _ Hwb Hdb wd Hwd) in Hrb. congruence. }
  split.
  - intros Hne. destruct Hlca as [[-> _]|(Hca & Hcb & _)]; [done|].
    destruct Hne. by apply (Hsame c).
  - intros <-. destruct Hlca as [[_ Hno]|(Hca & Hcb & Hlow)].
    + exfalso. apply (Hno ra); by apply last_Some_elem_of.
    + split_and!; [by exists wa|by exists wb|].
      intros d (wa' & Hwa' & Hda) (wb' & Hwb' & Hdb).
      rewrite (walk_unique _ _ _ _ Hwa' Hwa) in Hda.
      rewrite (walk_unique _ _ _ _ Hwb' Hwb) in Hdb. by apply Hlow.
Qed.

(** *** RecalcLeaves and RecalcLen *)

(** Every node has a length: the tree has no unreached node. *)
Definition all_reached (paths : list PathEnd) : Prop :=
  ∀ n e, at_ paths n = Some e → Len e ≠ 0.

(** [M] is the greatest length of the tree. *)
Definition deepest (paths : list PathEnd) (M : Z) : Prop :=
  (∀ n e, at_ paths n = Some e → Len e ≤ M) ∧
  ∃ n e, at_ paths n = Some e ∧ Len e = M.

(** No node names [n] as its parent. *)
Definition leaf (paths : list PathEnd) (n : NI) : Prop :=
  ∀ m e, at_ paths m = Some e → From e ≠ n.

Lemma upd_id {A} (l : list A) (i : Z) (x : A) :
  at_ l i = Some x → upd l i x = Some l.
Proof.
  intros Hi. apply upd_Some. split.
  - apply at_is_Some. eauto.
  - apply at_Some in Hi as [_ Hi]. by rewrite list_insert_id.
Qed.

Lemma RecalcLeaves_from_leaves rest (lv : Bits) :
  (∀ e, e ∈ rest → From e = -1 ∨ 0 ≤ From e < Z.of_nat (length lv)) →
  ∃ lv' : Bits, RecalcLeaves_from rest lv = Some lv' ∧
    length lv' = length lv ∧
    ∀ n, at_ lv' n = Some true ↔
         at_ lv n = Some true ∧ ∀ e, e ∈ rest → From e ≠ n.
Proof.
  revert lv. induction rest as [|e rest IH]; intros lv Hr; simpl.
  - exists lv. split_and!; [done|done|]. intros n. split; [|tauto].
    intros Hn. split; [done|]. by intros e ?%elem_of_nil.
  - assert (∀ e', e' ∈ rest → From e' = -1 ∨ 0 ≤ From e' < Z.of_nat (length lv))
      as Hr' by (intros e' He'; apply Hr; by right).
    destruct (decide (From e = -1)) as [Hroot|Hroot].
    + destruct (IH lv Hr') as (lv' & -> & Hlen & Hbits).
      exists lv'. split_and!; [done|done|]. intros n. rewrite Hbits.
      split; intros [Hn Hall]; (split; [done|]).
      * intros e' [->|He']%elem_of_cons; [|by apply Hall].
        apply at_Some in Hn as [? _]. lia.
      * intros e' He'. apply Hall. by right.
    + destruct (Hr e) as [?|Hin]; [by left|done|].
      unfold bits.SetBit, upd.
      destruct (decide (0 ≤ From e < Z.of_nat (length lv))); [|lia]. simpl.
      destruct (IH (<[Z.to_nat (From e) := false]> lv)) as (lv' & -> & Hlen & Hbits).
      { by rewrite length_insert. }
      exists lv'. split_and!; [done|by rewrite Hlen, length_insert|].
      intros n. rewrite Hbits. split.
      * intros [Hn Hall].
        destruct (decide (From e = n)) as [<-|Hne].
        { rewrite at_insert_eq in Hn by done. done. }
        rewrite at_insert_ne in Hn by lia. split; [done|].
        intros e' [->|He']%elem_of_cons; [done|by apply Hall].
      * intros [Hn Hall].
        assert (From e ≠ n) as Hne by (apply Hall; by left).
        rewrite at_insert_ne by lia. split; [done|].
        intros e' He'. apply Hall. by right.
Qed.

Lemma RecalcLeaves_leaves paths :
  (∀ n e, at_ paths n = Some e →
     From e = -1 ∨ 0 ≤ From e < Z.of_nat (length paths)) →
  ∃ lv : Bits, RecalcLeaves paths = Some lv ∧ length lv = length paths ∧
    ∀ n, at_ lv n = Some true ↔ 0 ≤ n < Z.of_nat (length paths) ∧ leaf paths n.
Proof.
  intros Hr. unfold RecalcLeaves, bits.SetAll, bits.New.
  rewrite length_replicate.
  destruct (RecalcLeaves_from_leaves paths (replicate (length paths) true))
    as (lv & Hlv & Hlen & Hbits).
  { intros e [i Hi]%list_elem_of_lookup_1. rewrite length_replicate.
    apply (Hr (Z.of_nat i)). by rewrite at_of_nat. }
  rewrite length_replicate in Hlen.
  exists lv. split_and!; [done|done|]. intros n. rewrite Hbits.
  assert (at_ (replicate (length paths) true) n = Some true ↔
          0 ≤ n < Z.of_nat (length paths)) as ->.
  { rewrite at_Some, lookup_replicate. lia. }
  apply and_iff_compat_l. split.
  - intros Hall m e Hm. apply Hall. apply at_Some in Hm as [_ Hm].
    by eapply list_elem_of_lookup_2.
  - intros Hleaf e [i Hi]%list_elem_of_lookup_1.
    apply (Hleaf (Z.of_nat i)). by rewrite at_of_nat.
Qed.

Lemma chain_up_walk paths fuel n w :
  walk paths n w → (length w ≤ fuel)%nat → chain_up fuel paths n = Some w.
Proof.
  intros Hw. revert fuel.
  induction Hw as [n e He Hr|n e w He Hr Hw IH]; intros fuel Hfuel;
    (destruct fuel as [|fuel]; [simpl in Hfuel; lia|]); simpl; rewrite He; simpl.
  - by destruct (decide (From e = -1)).
  - destruct (decide (From e = -1)); [done|].
    rewrite IH by (simpl in Hfuel; lia). done.
Qed.

(** The lengths along a walk go down by one at every step, to 1. *)
Lemma walk_positions paths n e w :
  tree_ok paths → walk paths n w → at_ paths n = Some e → Len e ≠ 0 →
  Z.of_nat (length w) = Len e ∧
  ∀ (j : nat) x, w !! j = Some x →
    ∃ ex, at_ paths x = Some ex ∧ Len ex = Len e - Z.of_nat j.
Proof.
  intros Hok Hw. revert e.
  induction Hw as [n e0 He0 Hr|n e0 w He0 Hr Hw IH]; intros e Hn He;
    assert (e0 = e) as -> by congruence.
  - assert (Len e = 1) as Hl.
    { destruct (Hok n e Hn He) as [[_ ?]|(e' & He' & _)]; [done|].
      rewrite Hr in He'. by apply at_Some in He' as [? _]. }
    split; [simpl; lia|]. intros [|j] x Hx; [|done].
    simpl in Hx. simplify_eq. exists e. split; [done|lia].
  - destruct (tree_ok_parent paths n e Hok Hn He Hr) as (e' & He' & Hpos & Hl).
    destruct (IH e' He' ltac:(lia)) as [Hlen Hpos'].
    split; [simpl; lia|]. intros [|j] x Hx; simpl in Hx.
    + simplify_eq. exists e. split; [done|lia].
    + destruct (Hpos' j x Hx) as (ex & Hex & Hlx). exists ex. split; [done|lia].
Qed.

(** A walk is no longer than the tree has nodes. *)
Lemma walk_short paths n e w :
  tree_ok paths → walk paths n w → at_ paths n = Some e → Len e ≠ 0 →
  (length w ≤ length paths)%nat.
Proof.
  intros Hok Hw Hn He.
  destruct (walk_positions paths n e w Hok Hw Hn He) as [_ Hpos].
  assert (NoDup w) as Hnd.
  { apply NoDup_alt. intros i j x Hi Hj.
    destruct (Hpos i x Hi) as (ei & Hei & Hli).
    destruct (Hpos j x Hj) as (ej & Hej & Hlj).
    assert (ei = ej) by congruence. subst. lia. }
  assert (∀ x, x ∈ w → 0 ≤ x < Z.of_nat (length paths)) as Hrange.
  { intros x [j Hj]%list_elem_of_lookup_1.
    destruct (Hpos j x Hj) as (ex & Hex & _). apply at_is_Some. eauto. }
  assert (length (Z.to_nat <$> w) ≤ length (seq 0 (length paths)))%nat as Hle.
  { apply submseteq_length, NoDup_submseteq.
    - apply NoDup_fmap_2_strong; [|done].
      intros x y Hx%Hrange Hy%Hrange. lia.
    - intros k (x & -> & Hx%Hrange)%list_elem_of_fmap.
      apply elem_of_seq. lia. }
  by rewrite length_fmap, length_seq in Hle.
Qed.

Lemma record_lens_id paths chain l :
  (∀ (i : nat) x, chain !! i = Some x →
     ∃ e, at_ paths x = Some e ∧ Len e = l + Z.of_nat i) →
  record_lens paths chain l = Some paths.
Proof.
  revert l. induction chain as [|n rest IH]; intros l Hc; simpl; [done|].
  destruct (Hc 0%nat n eq_refl) as (e & He & Hl). rewrite He. simpl.
  assert (mkPathEnd (From e) l = e) as -> by (destruct e; simpl in *; f_equal; lia).
  rewrite (upd_id _ _ _ He). simpl. apply IH.
  intros i x Hx. destruct (Hc (S i) x Hx) as (ex & Hex & Hlx).
  exists ex. split; [done|lia].
Qed.

Lemma RecalcLen_from_id paths :
  tree_ok paths → all_reached paths →
  ∀ (lv : list bool) n maxlen,
    0 ≤ n → n + Z.of_nat (length lv) ≤ Z.of_nat (length paths) →
    ∃ m, RecalcLen_from n lv paths maxlen = Some (paths, m) ∧
      maxlen ≤ m ∧
      (∀ i : nat, lv !! i = Some true → Len_of paths (n + Z.of_nat i) ≤ m) ∧
      (m = maxlen ∨
       ∃ i : nat, lv !! i = Some true ∧ Len_of paths (n + Z.of_nat i) = m).
Proof.
  intros Hok Hall.
  induction lv as [|b lv IH]; intros n maxlen Hn Hlen; simpl.
  { exists maxlen. split_and!; [done|lia| |by left]. intros i Hi. done. }
  simpl in Hlen.
  assert (∀ m maxlen',
    maxlen ≤ maxlen' →
    (b = true → Len_of paths n ≤ maxlen') →
    (maxlen' = maxlen ∨ b = true ∧ Len_of paths n = maxlen') →
    RecalcLen_from (n + 1) lv paths maxlen' = Some (paths, m) ∧
      maxlen' ≤ m ∧
      (∀ i : nat, lv !! i = Some true →
         Len_of paths (n + 1 + Z.of_nat i) ≤ m) ∧
      (m = maxlen' ∨
       ∃ i : nat, lv !! i = Some true ∧
         Len_of paths (n + 1 + Z.of_nat i) = m) →
    RecalcLen_from (n + 1) lv paths maxlen' = Some (paths, m) ∧
      maxlen ≤ m ∧
      (∀ i : nat, (b :: lv) !! i = Some true →
         Len_of paths (n + Z.of_nat i) ≤ m) ∧
      (m = maxlen ∨
       ∃ i : nat, (b :: lv) !! i = Some true ∧
         Len_of paths (n + Z.of_nat i) = m)) as Hstep.
  { intros m maxlen' Hle Hb Hmax (Hrun & Hm & Hbound & Hatt).
    split_and!; [done|lia| |].
    - intros [|i] Hi; simpl in Hi.
      + simplify_eq. rewrite Z.add_0_r. specialize (Hb eq_refl). lia.
      + replace (n + Z.of_nat (S i)) with (n + 1 + Z.of_nat i) by lia.
        by apply Hbound.
    - destruct Hatt as [->|(i & Hi & Hl)].
      + destruct Hmax as [->|[-> Hl]]; [by left|]. right.
        exists 0%nat. split; [done|]. by rewrite Z.add_0_r.
      + right. exists (S i). split; [done|].
        by replace (n + Z.of_nat (S i)) with (n + 1 + Z.of_nat i) by lia. }
  destruct b.
  - assert (is_Some (at_ paths n)) as [e He] by (apply at_is_Some; lia).
    pose proof (Hall n e He) as Hne.
    pose proof (tree_ok_pos paths n e Hok He Hne) as Hpos.
    destruct (walk_exists paths (Z.to_nat (Len e)) n e Hok He ltac:(lia) Hne)
      as (w & Hw & Hwl).
    destruct (walk_positions paths n e w Hok Hw He Hne) as [_ Hwp].
    rewrite (chain_up_walk paths (length paths) n w Hw)
      by (by eapply walk_short).
    simpl. rewrite rev_alt. change (rev_append w []) with (reverse w).
    rewrite record_lens_id.
    2:{ intros i x [Hx Hi]%reverse_lookup_Some.
        destruct (Hwp _ x Hx) as (ex & Hex & Hlx). exists ex. split; [done|]. lia. }
    simpl.
    assert (Len_of paths n = Len e) as Hlen_n by (unfold Len_of; by rewrite He).
    destruct (IH (n + 1) (Z.max maxlen (Z.of_nat (length w))))
      as (m & Hm); [lia|lia|].
    exists m. apply (Hstep m (Z.max maxlen (Z.of_nat (length w)))); [lia|lia| |done].
    destruct (Z.max_spec maxlen (Z.of_nat (length w))) as [[_ ->]|[_ ->]];
      [right; split; [done|lia]|by left].
  - destruct (IH (n + 1) maxlen) as (m & Hm); [lia|lia|].
    exists m. apply (Hstep m maxlen); [lia|done|by left|done].
Qed.

(** On a tree without unreached nodes whose [MaxLen] is its greatest
    length, [RecalcLeaves] then [RecalcLen] leave [Paths] and [MaxLen] as
    they are. *)
Lemma Recalc_tree f paths :
  Paths f = Some paths → tree_ok paths → all_reached paths →
  deepest paths (MaxLen f) →
  ∃ lv, (FromList_RecalcLeaves f ≫= RecalcLen) =
        Some {| Paths := Some paths; Leaves := lv; MaxLen := MaxLen f |}.
Proof.
  intros Hp Hok Hall [Hmax (n0 & e0 & Hn0 & Hl0)].
  destruct (RecalcLeaves_leaves paths) as (lv & Hlv & Hlen & Hbits).
  { intros n e Hn.
    destruct (Hok n e Hn (Hall n e Hn)) as [[? _]|(e' & He' & _)]; [by left|].
    right. apply at_is_Some. eauto. }
  unfold FromList_RecalcLeaves. rewrite Hp. simpl. rewrite Hlv. simpl.
  unfold RecalcLen. simpl.
  destruct (RecalcLen_from_id paths Hok Hall lv 0 0)
    as (m & -> & Hm0 & Hbound & Hatt); [lia|lia|].
  simpl. exists lv. do 2 f_equal.
  assert (∀ i : nat, lv !! i = Some true →
            ∃ e, at_ paths (Z.of_nat i) = Some e ∧
                 Len_of paths (0 + Z.of_nat i) = Len e) as Hleaf_len.
  { intros i Hi.
    assert (is_Some (at_ paths (Z.of_nat i))) as [e He].
    { apply at_is_Some. apply lookup_lt_Some in Hi. lia. }
    exists e. split; [done|]. unfold Len_of. by rewrite Z.add_0_l, He. }
  apply Z.le_antisymm.
  - destruct Hatt as [->|(i & Hi & <-)].
    + rewrite <- Hl0. pose proof (tree_ok_pos paths n0 e0 Hok Hn0 (Hall n0 e0 Hn0)). lia.
    + destruct (Hleaf_len i Hi) as (e & He & ->). by eapply Hmax.
  - assert (at_ lv n0 = Some true) as Hleaf.
    { apply Hbits. split; [apply at_is_Some; eauto|].
      intros m' e' Hm' Hfrom.
      pose proof (Hall m' e' Hm') as Hne'.
      assert (From e' ≠ -1) as Hr.
      { rewrite Hfrom. apply at_Some in Hn0 as [? _]. lia. }
      destruct (tree_ok_parent paths m' e' Hok Hm' Hne' Hr) as (e'' & He'' & _ & Hl'').
      rewrite Hfrom, Hn0 in He''. simplify_eq.
      pose proof (Hmax m' e' Hm'). lia. }
    apply at_Some in Hleaf as [Hn0' Hleaf].
    pose proof (Hbound _ Hleaf) as Hb.
    destruct (Hleaf_len _ Hleaf) as (e & He & Hle). rewrite Hle in Hb.
    rewrite Z2Nat.id in He by done. rewrite Hn0 in He. simplify_eq. lia.
Qed.

(** *** The tree a breadth-first traversal leaves *)

Section BreadthFirstTree.
Context {V R : Type} (Perm : R → nat → list nat * R).
Variables (g : AdjacencyList) (cf : config V R).
Hypothesis Hbounds : bounds_ok g.
Hypothesis Hnever : never_stops cf.
Hypothesis Hperm : ∀ r n, (Perm r n).1 ≡ₚ seq 0 n.
Implicit Types (st : bfs_state V R).
Local Abbreviation s := (start cf).

Lemma bfs_steps_keeps st st' v e :
  bfs_steps st st' → at_ (rp st) v = Some e → Len e ≠ 0 →
  at_ (rp st') v = Some e.
Proof.
  intros Hsteps. revert e.
  induction Hsteps as [|st1 st2 st3 Hs _ IH]; intros e Hv He; [done|].
  apply IH; [|done].
  destruct Hs as [|st1 n level nb p Hl Hp Hz]; simpl; [done|].
  rewrite at_insert_ne; [done|by apply at_Some in Hp as [? _]|].
  intros ->. rewrite Hv in Hp. by simplify_eq.
Qed.

(** The outer loop ends one level above the last frontier it took up,
    which is what [MaxLen] is left at; a node of that frontier has this
    length. *)
Lemma bfs_loop_depth fuel L F st :
  top g cf L F st → F ≠ [] →
  bfs_loop Perm fuel g cf L F st = Diverge ∨
  ∃ st' L', bfs_loop Perm fuel g cf L F st = Ok st' ∧ top g cf L' [] st' ∧
    maxLen st' = L' - 1 ∧
    ∃ v e, at_ (rp st') v = Some e ∧ Len e = L' - 1.
Proof.
  revert L F st. induction fuel as [|fuel IH]; intros L F st Htop HF; [by left|].
  simpl.
  pose proof (bfs_level_steps Perm g cf L F st) as Hsteps.
  destruct (bfs_level_correct Perm g cf Hbounds Hnever Hperm L F st Htop)
    as (st' & Hlevel & Htop').
  rewrite Hlevel in *. simpl in Hsteps. simpl.
  pose proof (top_pos _ _ _ _ _ Htop) as Hpos.
  specialize (Hsteps ltac:(lia)).
  destruct (next st') as [|n nx] eqn:Hnx.
  - right. exists st', (L + 1). split_and!; [done|done|..].
    + rewrite (bfs_steps_maxLen _ _ Hsteps). simpl. lia.
    + destruct F as [|v F]; [done|].
      destruct (proj1 (top_frontier _ _ _ _ _ Htop v)) as (e & He & Hl);
        [by left|].
      exists v, e. split; [|lia].
      eapply bfs_steps_keeps; [exact Hsteps|exact He|lia].
  - apply IH; [exact Htop'|done].
Qed.

(** What [BreadthFirst] leaves in a fresh tree. *)
Lemma BreadthFirst_tree v0 :
  0 ≤ s < Z.of_nat (length g) → fresh cf →
  ∃ st', BreadthFirst Perm g cf v0 = Ok st' ∧
    bfs_tree g cf = NewFromList (length g) ∧
    length (rp st') = length g ∧
    tree_ok (rp st') ∧
    deepest (rp st') (maxLen st') ∧
    ∀ x, reachable g s x → visited (rp st') x.
Proof.
  intros Hs Hfresh.
  assert (bfs_tree g cf = NewFromList (length g)) as Htree.
  { unfold bfs_tree, fresh in *. destruct (fromList cf) as [f|]; [|done].
    by rewrite Hfresh. }
  assert (BreadthFirst Perm g cf v0 =
          bfs_loop Perm (S (length g)) g cf 1 [s] (bfs_init g cf v0)) as Heq.
  { unfold BreadthFirst. rewrite Htree.
    change (tree_paths (NewFromList (length g)))
      with (replicate (length g) (mkPathEnd 0 0)).
    unfold upd. rewrite length_replicate.
    by destruct (decide (0 ≤ s < Z.of_nat (length g))). }
  pose proof (BreadthFirst_terminates Perm g cf v0) as Hterm.
  rewrite Heq in *.
  destruct (bfs_loop_depth (S (length g)) 1 [s] (bfs_init g cf v0)
              (top_init g cf v0 Hs))
    as [Hdiv|(st' & L' & Hst' & Htop & Hmax & v & e & Hv & Hl)]; [done|done|].
  destruct Htop as [Hpos Hb Hf Hc].
  exists st'. split_and!; [done|done|apply Hb| | |].
  - intros n e' Hn He'.
    destruct (decide (n = s)) as [->|Hne].
    { left. rewrite (base_start _ _ _ _ Hb) in Hn. by simplify_eq. }
    right.
    destruct (base_from _ _ _ _ Hb n e' Hn He' Hne) as (_ & e'' & He'' & Hl'').
    destruct (base_dist _ _ _ _ Hb n e' Hn He') as (_ & d & Hd & Hdist).
    exists e''. split_and!; [done| |lia].
    destruct d as [|d]; [|lia].
    destruct Hdist as [Hr _]. inversion Hr. by subst.
  - split; [|exists v, e; split; [done|lia]].
    intros n e' Hn. rewrite Hmax.
    destruct (decide (Len e' = 0)) as [->|He']; [lia|].
    destruct (base_dist _ _ _ _ Hb n e' Hn He') as [Hle _].
    destruct (decide (Len e' = L')) as [Heq'|]; [|lia].
    exfalso. eapply elem_of_nil, Hf. eauto.
  - intros x [k Hr]. induction Hr as [|k u x Hr IH Ha].
    + exists (mkPathEnd (-1) 1). split; [apply Hb|done].
    + destruct IH as (eu & Heu & Hlu). eapply Hc; [exact Heu|done| |done].
      destruct (base_dist _ _ _ _ Hb u eu Heu Hlu) as [Hle _].
      destruct (decide (Len eu = L')) as [Heq'|]; [|lia].
      exfalso. eapply elem_of_nil, Hf. eauto.
Qed.

(** C7, amended.  On a graph that meets the bounds condition and all of
    whose nodes can be reached from the start node, when [BreadthFirst]
    has filled a fresh tree without being stopped by a visitor:
    [RecalcLeaves] and then [RecalcLen] on the tree return, and leave the
    lengths of all nodes and [MaxLen] as the traversal left them. *)
Theorem Recalc_reproduces_BreadthFirst v0 :
  0 ≤ s < Z.of_nat (length g) → fresh cf →
  (∀ x, 0 ≤ x < Z.of_nat (length g) → reachable g s x) →
  ∃ st' lv,
    BreadthFirst Perm g cf v0 = Ok st' ∧
    (FromList_RecalcLeaves (bfs_result (bfs_tree g cf) st') ≫= RecalcLen) =
    Some {| Paths := Some (rp st'); Leaves := lv; MaxLen := maxLen st' |}.
Proof.
  intros Hs Hfresh Hall.
  destruct (BreadthFirst_tree v0 Hs Hfresh)
    as (st' & Hrun & _ & Hlen & Hok & Hdeep & Hreach).
  destruct (Recalc_tree (bfs_result (bfs_tree g cf) st') (rp st'))
    as [lv Hlv]; [done|done| |done|].
  - intros n e Hn Hz.
    destruct (Hreach n) as (e' & He' & Hl').
    + apply Hall. rewrite <- Hlen. apply at_is_Some. eauto.
    + rewrite Hn in He'. by simplify_eq.
  - by exists st', lv.
Qed.
End BreadthFirstTree.

(** *** Checking a tree *)

(** [tree_ok], decided entry by entry. *)
Definition tree_okb (paths : list PathEnd) : bool :=
  forallb (λ e,
    (Len e =? 0) || ((From e =? -1) && (Len e =? 1)) ||
    match at_ paths (From e) with
    | Some e' => (0 <? Len e') && (Len e =? Len e' + 1)
    | None => false
    end) paths.

Lemma tree_okb_ok paths : tree_okb paths = true → tree_ok paths.
Proof.
  unfold tree_okb. rewrite forallb_forall. intros Hall n e Hn He.
  apply at_Some in Hn as [_ Hn]. apply list_elem_of_lookup_2 in Hn.
  apply list_elem_of_In, Hall in Hn.
  apply orb_true_iff in Hn as [Hn|Hn].
  - apply orb_true_iff in Hn as [Hn|Hn]; [lia|].
    apply andb_true_iff in Hn as [? ?]. left. lia.
  - right. destruct (at_ paths (From e)) as [e'|]; [|done].
    apply andb_true_iff in Hn as [? ?]. exists e'. split; [done|lia].
Qed.

Lemma chain_up_sound paths fuel n w :
  chain_up fuel paths n = Some w → walk paths n w.
Proof.
  revert n w. induction fuel as [|fuel IH]; intros n w; simpl; [done|].
  destruct (at_ paths n) as [e|] eqn:He; simpl; [|done].
  destruct (decide (From e = -1)) as [Hr|Hr].
  - intros [= <-]. by eapply walk_root.
  - destruct (chain_up fuel paths (From e)) as [c|] eqn:Hc; simpl; [|done].
    intros [= <-]. eapply walk_step; eauto.
Qed.

(** ** The theorems at concrete inputs *)

(** A generator whose [Perm] reverses the order. *)
Definition Perm_rev (r : unit) (n : nat) : list nat * unit :=
  (reverse (seq 0 n), r).

Lemma Perm_rev_ok (r : unit) (n : nat) : (Perm_rev r n).1 ≡ₚ seq 0 n.
Proof. apply reverse_Permutation. Qed.

(** The graph 0 → 1, 0 → 2, 1 → 3, 2 → 3, 2 → 0, 4 → 0. *)
Definition g5 : AdjacencyList := [[1; 2]; [3]; [3; 0]; []; [0]].

(** [BreadthFirst(0, Rand(r))] *)
Definition cf_rand : config unit unit :=
  configure 0 [OptRand (Some ())].

Lemma BreadthFirst_distances_witness :
  ∃ st', BreadthFirst Perm_rev g5 cf_rand () = Ok st' ∧
    at_ (rp st') 0 = Some (mkPathEnd (-1) 1) ∧
    (∀ x d, distance g5 0 x d →
       ∃ e, at_ (rp st') x = Some e ∧ Len e = Z.of_nat d + 1 ∧
         (x ≠ 0 → arc g5 (From e) x ∧
                  ∃ d', d = S d' ∧ distance g5 0 (From e) d')) ∧
    (∀ x, 0 ≤ x < 5 → ¬ reachable g5 0 x →
       at_ (rp st') x = Some (mkPathEnd 0 0)) ∧
    (∀ t1 x px t2,
       w_trace (bw st') = t1 ++ SetPath x px :: t2 →
       ∀ y dx dy, distance g5 0 x dx → distance g5 0 y dy → (dy < dx)%nat →
         ∃ py, SetPath y py ∈ t1).
Proof.
  apply (BreadthFirst_distances Perm_rev g5 cf_rand).
  - reflexivity.
  - intros f Hf. discriminate Hf.
  - apply Perm_rev_ok.
  - simpl. lia.
  - exact I.
Defined.

(** A tree that records a traversal of the subgraph on 2 and 3:
    2 is a root, and 3 was reached from 2. *)
Definition tree_23 : FromList :=
  {| Paths := Some [mkPathEnd 0 0; mkPathEnd 0 0; mkPathEnd (-1) 1;
                    mkPathEnd 2 2; mkPathEnd 0 0];
     Leaves := []; MaxLen := 2 |}.

(** [BreadthFirst(0, From(&tree_23))] *)
Definition cf_from : config unit unit :=
  configure 0 [OptFrom (Some tree_23)].

Lemma BreadthFirst_accumulates_witness :
  bfs_tree g5 cf_from = tree_23 ∧
  ends (λ st',
    length (rp st') = 5%nat ∧
    ∀ x e, x ≠ 0 →
      at_ [mkPathEnd 0 0; mkPathEnd 0 0; mkPathEnd (-1) 1;
           mkPathEnd 2 2; mkPathEnd 0 0] x = Some e →
      Len e ≠ 0 →
      at_ (rp st') x = Some e ∧
      (x ∉ next st') ∧
      (∀ level F, TakeFrontier level F ∈ w_trace (bw st') → x ∉ F) ∧
      (∀ p, SetPath x p ∉ w_trace (bw st')))
    (BreadthFirst Perm_rev g5 cf_from ()).
Proof.
  exact (BreadthFirst_accumulates Perm_rev g5 cf_from () tree_23 _
           eq_refl eq_refl).
Defined.

(** The tree that [BreadthFirst(4)] leaves on [g5]: the start node 0 of the
    next traversal is in it at length 2, and [MaxLen] is 4. *)
Definition tree_deep : FromList :=
  {| Paths := Some [mkPathEnd 4 2; mkPathEnd 0 3; mkPathEnd 0 3;
                    mkPathEnd 1 4; mkPathEnd (-1) 1];
     Leaves := []; MaxLen := 4 |}.

(** [BreadthFirst(0, From(&tree_deep))] *)
Definition cf_deep : config unit unit :=
  configure 0 [OptFrom (Some tree_deep)].

Lemma BreadthFirst_start_and_MaxLen_witness :
  ∃ st',
    (BreadthFirst Perm_rev g5 cf_deep () = Ok st' ∨
     BreadthFirst Perm_rev g5 cf_deep () = Stop st') ∧
    at_ (rp st') 0 = Some (mkPathEnd (-1) 1) ∧
    (∃ tr, w_trace (bw st') = SetPath 0 (mkPathEnd (-1) 1) :: tr) ∧
    maxLen st' = Z.of_nat (length (frontiers (w_trace (bw st')))) ∧
    (∀ i level F,
       frontiers (w_trace (bw st')) !! i = Some (level, F) →
       level = Z.of_nat i + 1).
Proof.
  eexists. split.
  - left. vm_compute. reflexivity.
  - apply (BreadthFirst_start_and_MaxLen Perm_rev g5 cf_deep ()).
    left. vm_compute. reflexivity.
Defined.

(** The call lowers the [MaxLen] of [tree_deep] from 4 to 1, and replaces
    the entry (From = 4, Len = 2) of its start node: all neighbours of 0
    have lengths already. *)
Example BreadthFirst_lowers_MaxLen :
  ends (λ st',
    MaxLen tree_deep = 4 ∧ maxLen st' = 1 ∧
    at_ (tree_paths tree_deep) 0 = Some (mkPathEnd 4 2) ∧
    at_ (rp st') 0 = Some (mkPathEnd (-1) 1))
    (BreadthFirst Perm_rev g5 cf_deep ()).
Proof. vm_compute. done. Qed.

Lemma BreadthFirst_ignores_unsupported_witness :
  BreadthFirst Perm_rev g5
    (configure 0 [OptVisited (Some [true; true]); OptRand (Some ());
                  OptArcVisitor (Some (λ _ _ v, v)); OptPathBits (Some []);
                  OptOkArcVisitor (Some (λ _ _ v, (false, v)))]) () =
  BreadthFirst Perm_rev g5 (configure 0 [OptRand (Some ())]) ().
Proof.
  apply (BreadthFirst_ignores_unsupported Perm_rev g5 0). reflexivity.
Defined.

(** [DepthFirst(2, Visited(&b))] with the bit of 2 set in [b]. *)
Definition cf_seen : config unit unit :=
  configure 2 [OptVisited (Some [false; false; true; false; false]);
               OptPathBits (Some [true; true; true; true; true]);
               OptNodeVisitor (Some (λ _ v, v))].

Lemma DepthFirst_visited_start_witness :
  DepthFirst Perm_rev g5 cf_seen () =
  Ok {| vis := [false; false; true; false; false];
        path := Some [true; true; true; true; true];
        dw := {| w_vis := (); w_rand := None; w_trace := [] |} |}.
Proof.
  apply (DepthFirst_visited_start Perm_rev g5 cf_seen ()
           [false; false; true; false; false] 1); [reflexivity..|lia].
Defined.

(** The path 0 → 1 → 2 → 3 → 4. *)
Definition path5 : AdjacencyList := [[1]; [2]; [3]; [4]; []].

Lemma DepthFirst_stops_at_third_witness :
  ∃ st,
    DepthFirst Perm_rev path5 (third_config 0 None None) 0%nat = Stop st ∧
    ∃ n1 n2 n3,
      w_trace (dw st) =
        [CallOkNodeVisitor n1 true; CallOkNodeVisitor n2 true;
         CallOkNodeVisitor n3 false] ∧
      NoDup [n1; n2; n3] ∧
      (∀ n, at_ (vis st) n = Some true ↔ n ∈ [n1; n2; n3]) ∧
      w_vis (dw st) = 3%nat.
Proof.
  eexists. split.
  - vm_compute. reflexivity.
  - apply (DepthFirst_stops_at_third Perm_rev path5 0 None None).
    vm_compute. reflexivity.
Defined.

(** The tree of [ExampleFromList_CommonAncestor]: 4 is the root, 1 its
    child, 0 and 2 the children of 1, and 3 the child of 0. *)
Definition tree_ca : list PathEnd :=
  [mkPathEnd 1 3; mkPathEnd 4 2; mkPathEnd 1 3; mkPathEnd 0 4;
   mkPathEnd (-1) 1].

Lemma CommonAncestor_lowest_witness :
  ∃ c, CommonAncestor tree_ca 2 3 = Some c ∧
    (4 ≠ 4 → c = -1) ∧
    (4 = 4 →
       on_path tree_ca 2 c ∧ on_path tree_ca 3 c ∧
       ∀ d, on_path tree_ca 2 d → on_path tree_ca 3 d →
         Len_of tree_ca d ≤ Len_of tree_ca c).
Proof.
  apply (CommonAncestor_lowest tree_ca 2 3 (mkPathEnd 1 3) (mkPathEnd 0 4)).
  - apply tree_okb_ok. reflexivity.
  - reflexivity.
  - simpl. lia.
  - reflexivity.
  - simpl. lia.
  - exists [2; 1; 4]. split; [|reflexivity].
    apply (chain_up_sound tree_ca 5). reflexivity.
  - exists [3; 0; 1; 4]. split; [|reflexivity].
    apply (chain_up_sound tree_ca 5). reflexivity.
Defined.

(** The forest of [ExampleFromList_PathTo]: the tree of root 4 with the
    child 1, whose children are 0 and 2; and the root 3. *)
Definition tree_pt : list PathEnd :=
  [mkPathEnd 1 3; mkPathEnd 4 2; mkPathEnd 1 3; mkPathEnd (-1) 1;
   mkPathEnd (-1) 1].

Lemma PathTo_reverse_walk_witness :
  ((∃ w, walk tree_pt 0 w ∧
         PathTo tree_pt 0 (Some [7; 7; 7]) = Some (reverse w)) ∧
   (1 = -1 → PathTo tree_pt 0 (Some [7; 7; 7]) = Some [0])) ∧
  ((∃ w, walk tree_pt 3 w ∧ PathTo tree_pt 3 None = Some (reverse w)) ∧
   (-1 = -1 → PathTo tree_pt 3 None = Some [3])).
Proof.
  split.
  - apply (PathTo_reverse_walk tree_pt 0 (mkPathEnd 1 3) (Some [7; 7; 7])).
    + apply tree_okb_ok. reflexivity.
    + reflexivity.
    + simpl. lia.
  - apply (PathTo_reverse_walk tree_pt 3 (mkPathEnd (-1) 1) None).
    + apply tree_okb_ok. reflexivity.
    + reflexivity.
    + simpl. lia.
Defined.

(** The forest of [ExampleFromList_Undirected]: 0 with the children 1 and
    2, and the root 3. *)
Definition tree_ud : list PathEnd :=
  [mkPathEnd (-1) 0; mkPathEnd 0 0; mkPathEnd 0 0; mkPathEnd (-1) 0].

Lemma Undirected_IsUndirected_witness :
  ∃ g, Undirected tree_ud = Some g ∧ IsUndirected g = Some (true, -1, -1).
Proof.
  apply (Undirected_IsUndirected tree_ud).
  - simpl. lia.
  - reflexivity.
Defined.

(** [ExampleFromList_Undirected] gives this graph. *)
Example Undirected_tree_ud :
  Undirected tree_ud = Some [[1; 2]; [0]; [0]; []].
Proof. reflexivity. Qed.

(** [BreadthFirst(4, Rand(r))], from where all of [g5] is reached. *)
Definition cf_all : config unit unit :=
  configure 4 [OptRand (Some ())].

Lemma g5_reachable x : 0 ≤ x < 5 → reachable g5 4 x.
Proof.
  intros Hx.
  assert (arc g5 4 0) as H40 by (eexists; split; [reflexivity|repeat constructor]).
  assert (arc g5 0 1) as H01 by (eexists; split; [reflexivity|repeat constructor]).
  assert (arc g5 0 2) as H02 by (eexists; split; [reflexivity|repeat constructor]).
  assert (arc g5 1 3) as H13 by (eexists; split; [reflexivity|repeat constructor]).
  pose proof (reach_O g5 4) as R4.
  pose proof (reach_S g5 4 _ _ _ R4 H40) as R0.
  pose proof (reach_S g5 4 _ _ _ R0 H01) as R1.
  pose proof (reach_S g5 4 _ _ _ R0 H02) as R2.
  pose proof (reach_S g5 4 _ _ _ R1 H13) as R3.
  assert (x = 0 ∨ x = 1 ∨ x = 2 ∨ x = 3 ∨ x = 4) as Hc by lia.
  destruct Hc as [->|[->|[->|[->| ->]]]]; eexists; eassumption.
Qed.

Lemma Recalc_reproduces_BreadthFirst_witness :
  ∃ st' lv,
    BreadthFirst Perm_rev g5 cf_all () = Ok st' ∧
    (FromList_RecalcLeaves (bfs_result (bfs_tree g5 cf_all) st') ≫= RecalcLen) =
    Some {| Paths := Some (rp st'); Leaves := lv; MaxLen := maxLen st' |}.
Proof.
  apply (Recalc_reproduces_BreadthFirst Perm_rev g5 cf_all).
  - reflexivity.
  - intros f Hf. discriminate Hf.
  - apply Perm_rev_ok.
  - simpl. lia.
  - exact I.
  - apply g5_reachable.
Defined.

(** The graph of two nodes without arcs. *)
Definition g2 : AdjacencyList := [[]; []].

(** [BreadthFirst(0)] *)
Definition cf_plain : config unit unit := configure 0 [].

(** C7 does not hold of a tree with an unreached node.  On [g2],
    [BreadthFirst(0)] leaves node 1 unreached, at (From = 0, Len = 0),
    and [MaxLen] at 1.  [RecalcLeaves] then makes node 1 a leaf, since no
    node names it as parent, and [RecalcLen] walks from it to its [From],
    the root 0: node 1 gets the length 2, and [MaxLen] becomes 2. *)
Lemma Recalc_changes_unreached :
  ∃ st,
    BreadthFirst Perm_rev g2 cf_plain () = Ok st ∧
    rp st = [mkPathEnd (-1) 1; mkPathEnd 0 0] ∧
    maxLen st = 1 ∧
    (FromList_RecalcLeaves (bfs_result (bfs_tree g2 cf_plain) st) ≫= RecalcLen) =
    Some {| Paths := Some [mkPathEnd (-1) 1; mkPathEnd 0 2];
            Leaves := [false; true]; MaxLen := 2 |}.
Proof. eexists. split_and!; reflexivity. Qed.

(** Nodes of different trees have no common ancestor: the answer is the
    sentinel -1. *)
Example CommonAncestor_other_tree : CommonAncestor tree_pt 0 3 = Some (-1).
Proof. reflexivity. Qed.

(** * More of the package *)

(** ** BoundsOk *)

Lemma BoundsOk_arcs_Some n to t :
  BoundsOk_arcs n to = Some t → t ∈ to ∧ ¬ (0 ≤ t < n).
Proof.
  induction to as [|t' to IH]; simpl; [done|].
  destruct (decide (t' < 0 ∨ n ≤ t')).
  - intros [= <-]. split; [by left|lia].
  - intros [Hin Hout]%IH. split; [by right|done].
Qed.

Lemma BoundsOk_from_example n fr g a b :
  0 ≤ fr → fr + Z.of_nat (length g) ≤ 2 ^ 31 →
  BoundsOk_from n fr g = (false, a, b) →
  ∃ row, g !! Z.to_nat (a - fr) = Some row ∧ fr ≤ a ∧ b ∈ row ∧ ¬ (0 ≤ b < n).
Proof.
  revert fr. induction g as [|to g IH]; intros fr Hfr Hlen; simpl; [done|].
  simpl in Hlen.
  destruct (BoundsOk_arcs n to) as [t|] eqn:Harcs.
  - intros [= <- <-]. apply BoundsOk_arcs_Some in Harcs as [Hin Hout].
    rewrite toNI_small by lia. exists to. by rewrite Z.sub_diag.
  - intros (row & Hrow & Hle & Hin & Hout)%IH; [|lia..].
    exists row. split_and!; [|lia|done..].
    by replace (Z.to_nat (a - fr)) with (S (Z.to_nat (a - (fr + 1)))) by lia.
Qed.

Lemma BoundsOk_from_shape n fr g a b :
  BoundsOk_from n fr g = (true, a, b) → a = -1 ∧ b = 0.
Proof.
  revert fr. induction g as [|to g IH]; intros fr; simpl.
  - by intros [= <- <-].
  - destruct (BoundsOk_arcs n to); [done|apply IH].
Qed.

(** X1.  On a graph of fewer than 2^31 nodes, [BoundsOk] answers true
    exactly when every arc ends at a node of the graph, with the node -1
    and the arc end 0 beside it; and when it answers false, the arc it gives
    is an arc of the graph that ends outside of it. *)
Theorem BoundsOk_decides g :
  Z.of_nat (length g) < 2 ^ 31 →
  ∃ ok fr to, BoundsOk g = (ok, fr, to) ∧
    (ok = true ↔ ∀ u v, arc g u v → 0 ≤ v < Z.of_nat (length g)) ∧
    (ok = true → fr = -1 ∧ to = 0) ∧
    (ok = false → arc g fr to ∧ ¬ (0 ≤ to < Z.of_nat (length g))).
Proof.
  intros Hlen.
  destruct (BoundsOk g) as [[ok fr] to] eqn:Hb. exists ok, fr, to.
  split; [done|].
  assert (ok = false → arc g fr to ∧ ¬ (0 ≤ to < Z.of_nat (length g))) as Hfalse.
  { intros ->. unfold BoundsOk in Hb. rewrite toNI_small in Hb by lia.
    apply BoundsOk_from_example in Hb as (row & Hrow & Hle & Hin & Hout);
      [|lia..].
    rewrite Z.sub_0_r in Hrow. split; [|done].
    exists row. split; [|done]. apply at_Some. done. }
  split_and!; [|intros ->; by eapply BoundsOk_from_shape|done].
  split.
  - intros -> u v Harc. eapply bounds_ok_arc; [|done].
    unfold bounds_ok. by rewrite Hb.
  - intros Hall. destruct ok; [done|].
    destruct (Hfalse eq_refl) as [Harc Hout]. by apply Hall in Harc.
Qed.

(** ** Copy and ArcSize *)

Lemma Copy_from_copies (pre rest : list (list NI)) ma :
  Copy_from (Z.of_nat (length pre)) rest
    (pre ++ replicate (length rest) []) ma =
  Some (pre ++ rest, ArcSize_from ma rest).
Proof.
  revert pre ma. induction rest as [|to rest IH]; intros pre ma; simpl.
  - done.
  - unfold upd. rewrite decide_True.
    2:{ rewrite length_app. simpl. lia. }
    simpl. rewrite Nat2Z.id.
    replace (<[length pre := to]> (pre ++ [] :: replicate (length rest) []))
      with ((pre ++ [to]) ++ replicate (length rest) []).
    2:{ rewrite insert_app_r_alt by lia. rewrite Nat.sub_diag. simpl.
        by rewrite <- app_assoc. }
    replace (Z.of_nat (length pre) + 1) with (Z.of_nat (length (pre ++ [to])))
      by (rewrite length_app; simpl; lia).
    rewrite IH. by rewrite <- app_assoc.
Qed.

(** X2.  [Copy] does not panic, and gives a graph with the arc lists of
    [g], together with what [ArcSize] gives: the number of arcs of [g]. *)
Theorem Copy_copies g :
  Copy g = Some (g, ArcSize g) ∧ ArcSize g = Z.of_nat (length (concat g)).
Proof.
  split.
  - apply (Copy_from_copies [] g 0).
  - unfold ArcSize.
    assert (∀ m, ArcSize_from m g = m + Z.of_nat (length (concat g))) as H.
    { induction g as [|to g IH]; intros m; simpl; [lia|].
      rewrite IH, length_app. lia. }
    by rewrite H.
Qed.

(** ** HasArc and ParallelArcs *)

Lemma HasArc_from_first x0 l to b x :
  0 ≤ x0 → HasArc_from x0 l to = (b, x) →
  (b = true → x0 ≤ x ∧ l !! Z.to_nat (x - x0) = Some to ∧
              ∀ k, (k < Z.to_nat (x - x0))%nat → l !! k ≠ Some to) ∧
  (b = false → x = -1 ∧ to ∉ l).
Proof.
  revert x0. induction l as [|h l IH]; intros x0 Hx0; simpl.
  - intros [= <- <-]. split; [done|]. intros _. split; [done|apply not_elem_of_nil].
  - destruct (decide (h = to)) as [->|Hne].
    + intros [= <- <-]. split; [|done]. intros _. rewrite Z.sub_diag.
      split_and!; [lia|done|]. intros k Hk. simpl in Hk. lia.
    + intros [Ht Hf]%IH; [|lia]. split.
      * intros Hb. destruct (Ht Hb) as (Hle & Hx & Hfirst).
        replace (Z.to_nat (x - x0)) with (S (Z.to_nat (x - (x0 + 1)))) by lia.
        split_and!; [lia|done|]. intros [|k] Hk; simpl.
        -- intros [= ?]. done.
        -- apply Hfirst. lia.
      * intros Hb. destruct (Hf Hb) as [-> Hnot]. split; [done|].
        rewrite not_elem_of_cons. done.
Qed.

(** X3.  Where [fr] is a node of the graph, [HasArc] answers true exactly
    when the graph has an arc from [fr] to [to], and then with the index of
    the first such arc in the arc list of [fr]; it answers false with the
    index -1. *)
Theorem HasArc_first g fr to l :
  at_ g fr = Some l →
  ∃ b x, HasArc g fr to = Some (b, x) ∧
    (b = true ↔ arc g fr to) ∧
    (b = true → at_ l x = Some to ∧ ∀ y, 0 ≤ y < x → at_ l y ≠ Some to) ∧
    (b = false → x = -1).
Proof.
  intros Hl. unfold HasArc. rewrite Hl. simpl.
  destruct (HasArc_from 0 l to) as [b x] eqn:Hh. exists b, x.
  split; [done|].
  apply HasArc_from_first in Hh as [Ht Hf]; [|done].
  split_and!.
  - split.
    + intros Hb. destruct (Ht Hb) as (_ & Hx & _). exists l. split; [done|].
      by eapply list_elem_of_lookup_2.
    + intros (l' & Hl' & Hin). destruct b; [done|].
      destruct (Hf eq_refl) as [_ Hnot]. congruence.
  - intros Hb. destruct (Ht Hb) as (Hle & Hx & Hfirst).
    rewrite Z.sub_0_r in Hx, Hfirst. split.
    + apply at_Some. done.
    + intros y Hy [_ Hy']%at_Some. apply (Hfirst (Z.to_nat y)); [lia|done].
  - intros Hb. by destruct (Hf Hb).
Qed.

Lemma ParallelArcs_from_app x0 l to p :
  ParallelArcs_from x0 l to p = p ++ ParallelArcs_from x0 l to [].
Proof.
  revert x0 p. induction l as [|h l IH]; intros x0 p; simpl.
  - by rewrite app_nil_r.
  - destruct (decide (h = to)).
    + rewrite (IH _ (p ++ [x0])), (IH _ ([] ++ [x0])). by rewrite <- app_assoc.
    + apply IH.
Qed.

Lemma ParallelArcs_from_cons x0 h l to :
  ParallelArcs_from x0 (h :: l) to [] =
  (if decide (h = to) then [x0] else []) ++ ParallelArcs_from (x0 + 1) l to [].
Proof.
  simpl. destruct (decide (h = to)); [|done].
  by rewrite ParallelArcs_from_app.
Qed.

Lemma ParallelArcs_from_indexes x0 l to :
  0 ≤ x0 →
  (∀ x, x ∈ ParallelArcs_from x0 l to [] ↔
        x0 ≤ x ∧ l !! Z.to_nat (x - x0) = Some to) ∧
  StronglySorted Z.lt (ParallelArcs_from x0 l to []) ∧
  length (ParallelArcs_from x0 l to []) = occ to l ∧
  HasArc_from x0 l to =
    match ParallelArcs_from x0 l to [] with
    | [] => (false, -1)
    | x :: _ => (true, x)
    end.
Proof.
  revert x0. induction l as [|h l IH]; intros x0 Hx0.
  - simpl. split_and!; [|constructor|done..].
    intros x. split; [by intros ?%elem_of_nil|]. by intros [_ ?].
  - rewrite ParallelArcs_from_cons.
    destruct (IH (x0 + 1) ltac:(lia)) as (Hin & Hsort & Hlen & Hhas).
    assert (∀ x, x0 + 1 ≤ x ∧ l !! Z.to_nat (x - (x0 + 1)) = Some to ↔
                 x0 < x ∧ (h :: l) !! Z.to_nat (x - x0) = Some to) as Hshift.
    { intros x. split; intros [Hle Hx].
      - split; [lia|].
        by replace (Z.to_nat (x - x0)) with (S (Z.to_nat (x - (x0 + 1)))) by lia.
      - split; [lia|].
        by replace (Z.to_nat (x - x0)) with (S (Z.to_nat (x - (x0 + 1)))) in Hx
          by lia. }
    cbn [occ HasArc_from]. destruct (decide (h = to)) as [->|Hne]; simpl.
    + split_and!.
      * intros x. rewrite elem_of_cons, Hin, Hshift. split.
        -- intros [->|[Hlt Hx]]; [by rewrite Z.sub_diag|split; [lia|done]].
        -- intros [Hle Hx]. destruct (decide (x = x0)) as [|Hne]; [by left|].
           right. split; [lia|done].
      * constructor; [done|]. apply Forall_forall. intros x Hx%Hin. lia.
      * by rewrite Hlen.
      * done.
    + split_and!; [|done..].
      intros x. rewrite Hin, Hshift. split.
      * intros [Hlt Hx]. split; [lia|done].
      * intros [Hle Hx]. split; [|done].
        destruct (decide (x = x0)) as [->|]; [|lia].
        rewrite Z.sub_diag in Hx. simpl in Hx. congruence.
Qed.

(** X4.  Where [fr] is a node of the graph, [ParallelArcs] gives the
    indexes of the arcs from [fr] to [to] in the arc list of [fr]: all of
    them, in ascending order, as many as there are such arcs; and [HasArc]
    answers with the first of them, if any. *)
Theorem ParallelArcs_indexes g fr to l :
  at_ g fr = Some l →
  ∃ p, ParallelArcs g fr to = Some p ∧
    (∀ x, x ∈ p ↔ at_ l x = Some to) ∧
    StronglySorted Z.lt p ∧
    length p = occ to l ∧
    HasArc g fr to =
      Some match p with [] => (false, -1) | x :: _ => (true, x) end.
Proof.
  intros Hl. unfold ParallelArcs, HasArc. rewrite Hl. simpl.
  destruct (ParallelArcs_from_indexes 0 l to ltac:(done))
    as (Hin & Hsort & Hlen & Hhas).
  eexists. split; [done|]. split_and!; [|done|done|by rewrite Hhas].
  intros x. rewrite Hin, at_Some, Z.sub_0_r. done.
Qed.

(** ** AnyLoop *)

Lemma AnyLoop_arcs_Some fr to t :
  AnyLoop_arcs fr to = Some t → t = toNI fr ∧ t ∈ to.
Proof.
  induction to as [|t' to IH]; simpl; [done|].
  destruct (decide (toNI fr = t')) as [<-|].
  - intros [= <-]. split; [done|by left].
  - intros [-> Hin]%IH. split; [done|by right].
Qed.

Lemma AnyLoop_arcs_None fr to : AnyLoop_arcs fr to = None → toNI fr ∉ to.
Proof.
  induction to as [|t' to IH]; simpl; [intros _; apply not_elem_of_nil|].
  destruct (decide (toNI fr = t')); [done|].
  intros Hn%IH. rewrite not_elem_of_cons. done.
Qed.

Lemma AnyLoop_from_first fr g b n :
  0 ≤ fr → fr + Z.of_nat (length g) ≤ 2 ^ 31 →
  AnyLoop_from fr g = (b, n) →
  (b = true → fr ≤ n ∧
     (∃ row, g !! Z.to_nat (n - fr) = Some row ∧ n ∈ row) ∧
     ∀ (k : nat) row, (k < Z.to_nat (n - fr))%nat → g !! k = Some row →
       fr + Z.of_nat k ∉ row) ∧
  (b = false → n = -1 ∧
     ∀ (k : nat) row, g !! k = Some row → fr + Z.of_nat k ∉ row).
Proof.
  revert fr. induction g as [|to g IH]; intros fr Hfr Hlen; simpl.
  - intros [= <- <-]. split; [done|]. intros _. split; [done|]. by intros k row.
  - simpl in Hlen. destruct (AnyLoop_arcs fr to) as [t|] eqn:Harcs.
    + intros [= <- <-]. apply AnyLoop_arcs_Some in Harcs as [-> Hin].
      rewrite toNI_small in * by lia. split; [|done]. intros _.
      rewrite Z.sub_diag. split_and!; [lia|by exists to|]. intros k row Hk. simpl in Hk. lia.
    + apply AnyLoop_arcs_None in Harcs. rewrite toNI_small in Harcs by lia.
      intros [Ht Hf]%IH; [|lia..]. split.
      * intros Hb. destruct (Ht Hb) as (Hle & (row & Hrow & Hin) & Hfirst).
        replace (Z.to_nat (n - fr)) with (S (Z.to_nat (n - (fr + 1)))) by lia.
        split_and!; [lia|by exists row|].
        intros [|k] row' Hk Hrow'; simpl in Hrow'.
        -- simplify_eq. by rewrite Z.add_0_r.
        -- replace (fr + Z.of_nat (S k)) with (fr + 1 + Z.of_nat k) by lia.
           apply Hfirst; [lia|done].
      * intros Hb. destruct (Hf Hb) as [-> Hnone]. split; [done|].
        intros [|k] row' Hrow'; simpl in Hrow'.
        -- simplify_eq. by rewrite Z.add_0_r.
        -- replace (fr + Z.of_nat (S k)) with (fr + 1 + Z.of_nat k) by lia.
           by apply Hnone.
Qed.

(** What [AnyLoop] answers, on a graph of at most 2^31 nodes. *)
Lemma AnyLoop_answer g b n :
  Z.of_nat (length g) ≤ 2 ^ 31 → AnyLoop g = (b, n) →
  (b = true → arc g n n ∧ ∀ m, 0 ≤ m < n → ¬ arc g m m) ∧
  (b = false → n = -1 ∧ ∀ u, ¬ arc g u u).
Proof.
  intros Hlen Hl. apply AnyLoop_from_first in Hl as [Ht Hf]; [|lia..]. split.
  - intros Hb. destruct (Ht Hb) as (Hle & (row & Hrow & Hin) & Hfirst).
    rewrite Z.sub_0_r in Hrow, Hfirst. split.
    + exists row. split; [by apply at_Some|done].
    + intros m Hm (row' & [_ Hrow']%at_Some & Hin').
      apply (Hfirst (Z.to_nat m) row'); [lia|done|].
      by rewrite Z.add_0_l, Z2Nat.id by lia.
  - intros Hb. destruct (Hf Hb) as [-> Hnone]. split; [done|].
    intros u (row & [Hu Hrow]%at_Some & Hin).
    apply (Hnone (Z.to_nat u) row); [done|].
    by rewrite Z.add_0_l, Z2Nat.id by lia.
Qed.

(** X5.  On a graph of at most 2^31 nodes, [AnyLoop] answers true exactly
    when some node has an arc to itself, and then with the first such node;
    it answers false with the node -1. *)
Theorem AnyLoop_first g :
  Z.of_nat (length g) ≤ 2 ^ 31 →
  ∃ b n, AnyLoop g = (b, n) ∧
    (b = true ↔ ∃ u, arc g u u) ∧
    (b = true → arc g n n ∧ ∀ m, 0 ≤ m < n → ¬ arc g m m) ∧
    (b = false → n = -1).
Proof.
  intros Hlen. destruct (AnyLoop g) as [b n] eqn:Hl. exists b, n.
  destruct (AnyLoop_answer g b n Hlen Hl) as [Ht Hf].
  split_and!; [done| |done|by intros [? _]%Hf].
  split.
  - intros [? _]%Ht. by exists n.
  - intros [u Hu]. destruct b; [done|]. destruct (Hf eq_refl) as [_ Hnone].
    by apply Hnone in Hu.
Qed.

(** ** AnyParallelMap, AnyParallelSort and IsSimple *)

Lemma occ_NoDup (l : list NI) : NoDup l ↔ ∀ x, (occ x l ≤ 1)%nat.
Proof.
  induction l as [|y l IH]; simpl.
  - split; [intros _ x; lia|constructor].
  - rewrite NoDup_cons, IH. split.
    + intros [Hy Hl] x. specialize (Hl x).
      destruct (decide (y = x)) as [->|]; [|lia].
      apply occ_zero in Hy. lia.
    + intros Hl. split.
      * apply occ_zero. specialize (Hl y). rewrite decide_True in Hl by done. lia.
      * intros x. specialize (Hl x). lia.
Qed.

Lemma AnyParallelMap_arcs_None (m : gset NI) to :
  AnyParallelMap_arcs m to = None ↔ NoDup to ∧ ∀ x, x ∈ to → x ∉ m.
Proof.
  revert m. induction to as [|t to IH]; intros m; simpl.
  - split; [|done]. intros _. split; [constructor|]. by intros x ?%elem_of_nil.
  - destruct (decide (t ∈ m)) as [Hin|Hin].
    + split; [done|]. intros [_ Hall]. destruct (Hall t); [by left|done].
    + rewrite IH, NoDup_cons. split.
      * intros [Hnd Hall]. split_and!; [|done|].
        -- intros Ht. apply (Hall t Ht).
           apply elem_of_union. left. by apply elem_of_singleton.
        -- intros x [->|Hx]%elem_of_cons; [done|].
           intros Hxm. apply (Hall x Hx). apply elem_of_union. by right.
      * intros [[Ht Hnd] Hall]. split; [done|]. intros x Hx.
        intros [->%elem_of_singleton|Hxm]%elem_of_union; [done|].
        apply (Hall x); [by right|done].
Qed.

Lemma AnyParallelMap_arcs_Some (m : gset NI) to t :
  AnyParallelMap_arcs m to = Some t →
  t ∈ to ∧ (t ∈ m ∨ (2 ≤ occ t to)%nat).
Proof.
  revert m. induction to as [|t' to IH]; intros m; simpl; [done|].
  destruct (decide (t' ∈ m)) as [Hin|Hin].
  - intros [= <-]. split; [by left|by left].
  - intros [Ht Hor]%IH. split; [by right|].
    destruct (decide (t' = t)) as [->|Hne].
    + right. apply occ_le_elem in Ht. lia.
    + destruct Hor as [Hm|Hocc]; [left|right; lia].
      apply elem_of_union in Hm as [Hm%elem_of_singleton|Hm]; [congruence|done].
Qed.

(** What [sort.Sort] is modelled by: the ascending arrangement, which is
    the only one. *)
Lemma sort_Sort_sorted t : StronglySorted Z.le (sort_Sort t) ∧ sort_Sort t ≡ₚ t.
Proof.
  split; [apply StronglySorted_merge_sort; apply _|apply merge_sort_Permutation].
Qed.

Lemma sort_Sort_unique t s : Sorted Z.le s → s ≡ₚ t → s = sort_Sort t.
Proof.
  intros Hs Hp. apply (Sorted_unique Z.le); [done| |].
  - apply Sorted_merge_sort. apply _.
  - rewrite Hp. symmetry. apply merge_sort_Permutation.
Qed.

Lemma AnyParallelSort_scan_None t0 t :
  StronglySorted Z.le (t0 :: t) →
  AnyParallelSort_scan t0 t = None → NoDup (t0 :: t).
Proof.
  revert t0. induction t as [|t1 t IH]; intros t0 Hs; simpl.
  - intros _. apply NoDup_singleton.
  - destruct (decide (t1 = t0)) as [->|Hne]; [done|].
    intros Hscan. apply StronglySorted_inv in Hs as [Hs Hall].
    apply NoDup_cons. split; [|by apply IH].
    intros Hin. apply Forall_cons in Hall as [Hle1 _].
    apply StronglySorted_inv in Hs as [_ Hall1].
    apply elem_of_cons in Hin as [->|Hin]; [done|].
    rewrite Forall_forall in Hall1. apply Hall1 in Hin. lia.
Qed.

Lemma AnyParallelSort_scan_Some t0 t d :
  StronglySorted Z.le (t0 :: t) →
  AnyParallelSort_scan t0 t = Some d →
  (2 ≤ occ d (t0 :: t))%nat ∧ ∀ x, (2 ≤ occ x (t0 :: t))%nat → d ≤ x.
Proof.
  revert t0. induction t as [|t1 t IH]; intros t0 Hs; [done|].
  cbn [AnyParallelSort_scan].
  apply StronglySorted_inv in Hs as [Hs Hall].
  destruct (decide (t1 = t0)) as [->|Hne].
  - intros [= <-]. split.
    + simpl. rewrite !decide_True by done. lia.
    + intros x Hx. rewrite Forall_forall in Hall.
      destruct (decide (t0 = x)) as [->|Hx0]; [lia|].
      apply Hall. right. apply occ_le_elem.
      cbn [occ] in Hx. rewrite !decide_False in Hx by done. lia.
  - intros [Hd Hleast]%IH; [|done]. split.
    + cbn [occ] in *. lia.
    + intros x Hx. apply Hleast. cbn [occ] in Hx.
      destruct (decide (t0 = x)) as [->|]; [|cbn [occ]; lia].
      exfalso. apply Forall_cons in Hall as [Hle1 Hall].
      apply StronglySorted_inv in Hs as [_ Hall1].
      rewrite Forall_forall in Hall1.
      assert (x ∈ t1 :: t) as [->|Hin]%elem_of_cons; [|done|].
      { apply occ_le_elem. cbn [occ]. lia. }
      apply Hall1 in Hin. lia.
Qed.

(** The row test of [AnyParallelSort], against the one of
    [AnyParallelMap]. *)
Lemma AnyParallelSort_row to :
  to ≠ [] →
  ∃ t0, at_ (sort_Sort to) 0 = Some t0 ∧
    match AnyParallelSort_scan t0 (drop 1 (sort_Sort to)) with
    | None => NoDup to
    | Some d => (2 ≤ occ d to)%nat ∧ ∀ x, (2 ≤ occ x to)%nat → d ≤ x
    end.
Proof.
  intros Hne. destruct (sort_Sort_sorted to) as [Hs Hp].
  destruct (sort_Sort to) as [|t0 t] eqn:Hsort.
  { symmetry in Hp. by apply Permutation_nil_r in Hp. }
  exists t0. split; [done|]. simpl. rewrite drop_0.
  destruct (AnyParallelSort_scan t0 t) as [d|] eqn:Hscan.
  - apply AnyParallelSort_scan_Some in Hscan as [Hd Hleast]; [|done].
    rewrite <- !(occ_Permutation _ _ _ Hp). split; [done|].
    intros x Hx. apply Hleast. by rewrite (occ_Permutation _ _ _ Hp).
  - rewrite <- Hp. by apply AnyParallelSort_scan_None.
Qed.

Lemma AnyParallelMap_from_rows n g has fr to :
  0 ≤ n → n + Z.of_nat (length g) ≤ 2 ^ 31 →
  AnyParallelMap_from n g = (has, fr, to) →
  (has = true → n ≤ fr ∧
     (∃ row, g !! Z.to_nat (fr - n) = Some row ∧ (2 ≤ occ to row)%nat) ∧
     ∀ (k : nat) row, (k < Z.to_nat (fr - n))%nat → g !! k = Some row →
       NoDup row) ∧
  (has = false → fr = -1 ∧ to = -1 ∧ ∀ row, row ∈ g → NoDup row).
Proof.
  revert n. induction g as [|row g IH]; intros n Hn Hlen; simpl.
  - intros [= <- <- <-]. split; [done|]. intros _.
    split_and!; [done..|]. by intros row ?%elem_of_nil.
  - simpl in Hlen.
    assert (NoDup row →
      AnyParallelMap_from (n + 1) g = (has, fr, to) →
      (has = true → n ≤ fr ∧
         (∃ row0, (row :: g) !! Z.to_nat (fr - n) = Some row0 ∧
                  (2 ≤ occ to row0)%nat) ∧
         ∀ (k : nat) row0, (k < Z.to_nat (fr - n))%nat →
           (row :: g) !! k = Some row0 → NoDup row0) ∧
      (has = false → fr = -1 ∧ to = -1 ∧
         ∀ row0, row0 ∈ row :: g → NoDup row0)) as Hnext.
    { intros Hnd [Ht Hf]%IH; [|lia..]. split.
      - intros Hb. destruct (Ht Hb) as (Hle & (row0 & Hrow0 & Hocc) & Hfirst).
        replace (Z.to_nat (fr - n)) with (S (Z.to_nat (fr - (n + 1)))) by lia.
        split_and!; [lia|by exists row0|].
        intros [|k] row1 Hk Hrow1; simpl in Hrow1; [by simplify_eq|].
        apply (Hfirst k); [lia|done].
      - intros Hb. destruct (Hf Hb) as (-> & -> & Hall).
        split_and!; [done..|].
        intros row0 [->|Hin]%elem_of_cons; [done|by apply Hall]. }
    destruct (decide (length row = 0%nat)) as [Hz|Hz].
    { apply Hnext. apply nil_length_inv in Hz as ->. constructor. }
    destruct (AnyParallelMap_arcs ∅ row) as [t|] eqn:Harcs.
    + intros [= <- <- <-]. split; [|done]. intros _.
      apply AnyParallelMap_arcs_Some in Harcs as [_ [Hin|Hocc]]; [by apply elem_of_empty in Hin|].
      rewrite toNI_small by lia. rewrite Z.sub_diag.
      split_and!; [lia|by exists row|]. intros k row0 Hk. simpl in Hk. lia.
    + apply Hnext. by apply AnyParallelMap_arcs_None in Harcs as [? _].
Qed.

(** [AnyParallelSort] finds parallel arcs where [AnyParallelMap] does. *)
Lemma AnyParallelSort_from_Map n g has fr to :
  AnyParallelMap_from n g = (has, fr, to) →
  ∃ to', AnyParallelSort_from n g = Some (has, fr, to') ∧
    (has = false → to' = -1) ∧
    (has = true → ∀ row, g !! Z.to_nat (fr - n) = Some row →
       0 ≤ n → n + Z.of_nat (length g) ≤ 2 ^ 31 →
       (2 ≤ occ to' row)%nat ∧ ∀ x, (2 ≤ occ x row)%nat → to' ≤ x).
Proof.
  revert n. induction g as [|row g IH]; intros n; simpl.
  - intros [= <- <- <-]. exists (-1). done.
  - assert (AnyParallelMap_arcs ∅ row = None →
      AnyParallelMap_from (n + 1) g = (has, fr, to) →
      ∃ to', AnyParallelSort_from (n + 1) g = Some (has, fr, to') ∧
        (has = false → to' = -1) ∧
        (has = true → ∀ row0, (row :: g) !! Z.to_nat (fr - n) = Some row0 →
           0 ≤ n → n + Z.of_nat (length (row :: g)) ≤ 2 ^ 31 →
           (2 ≤ occ to' row0)%nat ∧ ∀ x, (2 ≤ occ x row0)%nat → to' ≤ x))
      as Hnext.
    { intros Hnone Hmap. destruct (IH _ Hmap) as (to' & Hsort & Hf & Ht).
      exists to'. split_and!; [done..|]. intros Hb row0 Hrow0 Hn Hlen.
      simpl in Hlen.
      apply AnyParallelMap_from_rows in Hmap as [Hmt _]; [|lia..].
      destruct (Hmt Hb) as (Hle & _).
      replace (Z.to_nat (fr - n)) with (S (Z.to_nat (fr - (n + 1)))) in Hrow0
        by lia.
      apply (Ht Hb row0 Hrow0); lia. }
    destruct (decide (length row = 0%nat)) as [Hz|Hz].
    { apply Hnext. by apply nil_length_inv in Hz as ->. }
    destruct (AnyParallelSort_row row) as (t0 & -> & Hscan).
    { by intros ->. }
    simpl.
    destruct (AnyParallelMap_arcs ∅ row) as [t|] eqn:Harcs.
    + intros [= <- <- <-].
      apply AnyParallelMap_arcs_Some in Harcs as [_ [Hin|Hocc]]; [by apply elem_of_empty in Hin|].
      destruct (AnyParallelSort_scan t0 _) as [d|].
      * exists d. split_and!; [done..|]. intros _ row0 Hrow0 Hn Hlen.
        simpl in Hlen. rewrite toNI_small in Hrow0 by lia.
        rewrite Z.sub_diag in Hrow0. simpl in Hrow0. by simplify_eq.
      * pose proof (proj1 (occ_NoDup _) Hscan t). lia.
    + pose proof Harcs as [Hnd _]%AnyParallelMap_arcs_None.
      destruct (AnyParallelSort_scan t0 _) as [d|].
      * destruct Hscan as [Hd _]. pose proof (proj1 (occ_NoDup _) Hnd d). lia.
      * by apply Hnext.
Qed.

(** X6.  On a graph of at most 2^31 nodes, [AnyParallelMap] answers true
    exactly when some arc list has a node twice; then [fr] is the first
    node with such an arc list, and [to] is twice in it.  It answers false
    with -1 and -1. *)
Theorem AnyParallelMap_decides g :
  Z.of_nat (length g) ≤ 2 ^ 31 →
  ∃ has fr to, AnyParallelMap g = (has, fr, to) ∧
    (has = true ↔ ∃ row, row ∈ g ∧ ¬ NoDup row) ∧
    (has = true →
       (∃ row, at_ g fr = Some row ∧ (2 ≤ occ to row)%nat) ∧
       ∀ m row, 0 ≤ m < fr → at_ g m = Some row → NoDup row) ∧
    (has = false → fr = -1 ∧ to = -1).
Proof.
  intros Hlen. destruct (AnyParallelMap g) as [[has fr] to] eqn:Hm.
  exists has, fr, to. split; [done|].
  apply AnyParallelMap_from_rows in Hm as [Ht Hf]; [|lia..].
  assert (has = true →
    (∃ row, at_ g fr = Some row ∧ (2 ≤ occ to row)%nat) ∧
    ∀ m row, 0 ≤ m < fr → at_ g m = Some row → NoDup row) as Htrue.
  { intros Hb. destruct (Ht Hb) as (Hle & (row & Hrow & Hocc) & Hfirst).
    rewrite Z.sub_0_r in Hrow, Hfirst. split.
    - exists row. split; [by apply at_Some|done].
    - intros m row' Hm [_ Hrow']%at_Some. apply (Hfirst (Z.to_nat m)); [lia|done]. }
  split_and!; [|done|intros Hb; by destruct (Hf Hb) as (? & ? & _)].
  split.
  - intros Hb. destruct (Htrue Hb) as [(row & [_ Hrow]%at_Some & Hocc) _].
    exists row. split; [by eapply list_elem_of_lookup_2|].
    intros Hnd. pose proof (proj1 (occ_NoDup _) Hnd to). lia.
  - intros (row & Hin & Hnd). destruct has; [done|].
    destruct (Hf eq_refl) as (_ & _ & Hall). by apply Hall in Hin.
Qed.

(** X7.  On a graph of at most 2^31 nodes, [AnyParallelSort] does not
    panic; it answers as [AnyParallelMap] does but for the arc end: [to] is
    the least node that is twice in the arc list of [fr]. *)
Theorem AnyParallelSort_as_Map g :
  Z.of_nat (length g) ≤ 2 ^ 31 →
  ∃ has fr to to', AnyParallelMap g = (has, fr, to) ∧
    AnyParallelSort g = Some (has, fr, to') ∧
    (has = false → to' = -1) ∧
    (has = true → ∃ row, at_ g fr = Some row ∧
       (2 ≤ occ to' row)%nat ∧ ∀ x, (2 ≤ occ x row)%nat → to' ≤ x).
Proof.
  intros Hlen. destruct (AnyParallelMap g) as [[has fr] to] eqn:Hm.
  destruct (AnyParallelSort_from_Map 0 g has fr to Hm) as (to' & Hs & Hf & Ht).
  exists has, fr, to, to'. split_and!; [done..|].
  intros Hb. apply AnyParallelMap_from_rows in Hm as [Hmt _]; [|lia..].
  destruct (Hmt Hb) as (Hle & (row & Hrow & _) & _).
  exists row. rewrite Z.sub_0_r in Hrow. split; [by apply at_Some|].
  apply (Ht Hb row); [by rewrite Z.sub_0_r|lia..].
Qed.

(** X8.  On a graph of at most 2^31 nodes, [IsSimple] does not panic, and
    answers true (with the node -1) exactly when no node has an arc to
    itself and no arc list has a node twice; when it answers false, the
    node it gives has an arc to itself or has a node twice in its arc
    list. *)
Theorem IsSimple_decides g :
  Z.of_nat (length g) ≤ 2 ^ 31 →
  ∃ ok n, IsSimple g = Some (ok, n) ∧
    (ok = true ↔ (∀ u, ¬ arc g u u) ∧ ∀ row, row ∈ g → NoDup row) ∧
    (ok = true → n = -1) ∧
    (ok = false →
       arc g n n ∨ ∃ row, at_ g n = Some row ∧ ¬ NoDup row).
Proof.
  intros Hlen. unfold IsSimple.
  destruct (AnyLoop g) as [lp n] eqn:Hl.
  destruct (AnyLoop_answer g lp n Hlen Hl) as [Hlt Hlf].
  destruct lp.
  { destruct (Hlt eq_refl) as [Hloop _].
    exists false, n. split_and!; [done| |done|by left].
    split; [done|]. intros [Hno _]. by apply Hno in Hloop. }
  destruct (Hlf eq_refl) as [-> Hnoloop].
  destruct (AnyParallelMap g) as [[has fr] to] eqn:Hm.
  destruct (AnyParallelSort_from_Map 0 g has fr to Hm) as (to' & Hs & _ & _).
  unfold AnyParallelSort. rewrite Hs. simpl.
  apply AnyParallelMap_from_rows in Hm as [Hmt Hmf]; [|lia..].
  destruct has.
  - destruct (Hmt eq_refl) as (Hle & (row & Hrow & Hocc) & _).
    rewrite Z.sub_0_r in Hrow.
    assert (¬ NoDup row) as Hnd.
    { intros Hnd. pose proof (proj1 (occ_NoDup _) Hnd to). lia. }
    exists false, fr. split_and!; [done| |done|].
    + split; [done|]. intros [_ Hall]. destruct Hnd. apply Hall.
      by eapply list_elem_of_lookup_2.
    + right. exists row. split; [by apply at_Some|done].
  - destruct (Hmf eq_refl) as (_ & _ & Hall).
    exists true, (-1). split_and!; done.
Qed.

(** ** IsolatedNodes *)

Lemma IsolatedNodes_arcs_clears to (i : Bits) :
  (∀ t, t ∈ to → 0 ≤ t < Z.of_nat (length i)) →
  ∃ i' : Bits, IsolatedNodes_arcs to i = Some i' ∧ length i' = length i ∧
    ∀ n, at_ i' n = Some true ↔ at_ i n = Some true ∧ n ∉ to.
Proof.
  revert i. induction to as [|t to IH]; intros i Hr; simpl.
  - exists i. split_and!; [done..|]. intros n. split; [|tauto].
    intros Hn. split; [done|apply not_elem_of_nil].
  - unfold bits.SetBit, upd.
    rewrite decide_True by (apply Hr; by left). simpl.
    destruct (IH (<[Z.to_nat t := false]> i)) as (i' & -> & Hlen & Hbits).
    { intros t' Ht'. rewrite length_insert. apply Hr. by right. }
    exists i'. split_and!; [done|by rewrite Hlen, length_insert|].
    pose proof (Hr t ltac:(by left)) as Ht.
    intros n. rewrite Hbits, not_elem_of_cons.
    destruct (decide (t = n)) as [->|Hne].
    + rewrite at_insert_eq by done. split; [by intros [[=] _]|by intros [_ [? _]]].
    + rewrite at_insert_ne by lia. split; [intros [? ?]|intros [? [? ?]]]; done.
Qed.

Lemma IsolatedNodes_from_clears fr g (i : Bits) :
  0 ≤ fr → fr + Z.of_nat (length g) ≤ Z.of_nat (length i) →
  (∀ row t, row ∈ g → t ∈ row → 0 ≤ t < Z.of_nat (length i)) →
  ∃ i' : Bits, IsolatedNodes_from fr g i = Some i' ∧ length i' = length i ∧
    ∀ n, at_ i' n = Some true ↔
      at_ i n = Some true ∧
      ∀ (k : nat) row, g !! k = Some row → row ≠ [] →
        n ≠ fr + Z.of_nat k ∧ n ∉ row.
Proof.
  revert fr i. induction g as [|to g IH]; intros fr i Hfr Hlen Hr; simpl.
  - exists i. split_and!; [done..|]. intros n. split; [|tauto].
    intros Hn. split; [done|]. by intros k row.
  - simpl in Hlen.
    assert (∃ i1 : Bits,
      (if decide (0 < length to)%nat
       then i1 ← bits.SetBit i fr 0; IsolatedNodes_arcs to i1
       else Some i) = Some i1 ∧ length i1 = length i ∧
      ∀ n, at_ i1 n = Some true ↔
           at_ i n = Some true ∧ (to ≠ [] → n ≠ fr ∧ n ∉ to)) as (i1 & -> & Hl1 & Hb1).
    { destruct (decide (0 < length to)%nat) as [Hpos|Hz].
      - unfold bits.SetBit, upd. rewrite decide_True by lia. simpl.
        destruct (IsolatedNodes_arcs_clears to (<[Z.to_nat fr := false]> i))
          as (i1 & -> & Hl1 & Hb1).
        { intros t Ht. rewrite length_insert. apply (Hr to); [by left|done]. }
        exists i1. split_and!; [done|by rewrite Hl1, length_insert|].
        intros n. rewrite Hb1.
        assert (to ≠ []) as Hne by (intros ->; simpl in Hpos; lia).
        destruct (decide (fr = n)) as [->|Hnfr].
        + rewrite at_insert_eq by lia.
          split; [by intros [[=] _]|]. intros [_ Hno]. by destruct (Hno Hne).
        + rewrite at_insert_ne by lia. split; [intros [? ?]|intros [? Hno]].
          * split; [done|]. intros _. split; [congruence|done].
          * split; [done|]. by destruct (Hno Hne).
      - exists i. split_and!; [done..|]. intros n.
        assert (to = []) as -> by (destruct to; [done|simpl in Hz; lia]).
        split; [|tauto]. intros Hn. split; [done|]. done. }
    simpl.
    destruct (IH (fr + 1) i1) as (i' & -> & Hl' & Hb'); [lia|lia| |].
    { intros row t Hrow Ht. rewrite Hl1. apply (Hr row); [by right|done]. }
    exists i'. split_and!; [done|congruence|].
    intros n. rewrite Hb', Hb1. split.
    + intros [[Hn Hto] Hrest]. split; [done|].
      intros [|k] row Hrow Hne; simpl in Hrow.
      * simplify_eq. rewrite Z.add_0_r. by apply Hto.
      * replace (fr + Z.of_nat (S k)) with (fr + 1 + Z.of_nat k) by lia.
        by apply Hrest.
    + intros [Hn Hall]. split_and!; [done| |].
      * intros Hne. specialize (Hall 0%nat to eq_refl Hne).
        by rewrite Z.add_0_r in Hall.
      * intros k row Hrow Hne.
        replace (fr + 1 + Z.of_nat k) with (fr + Z.of_nat (S k)) by lia.
        by apply Hall.
Qed.

(** X9.  On a graph that meets the bounds condition, [IsolatedNodes] does
    not panic, and in the bitset it gives, of one bit for each node, the
    bit of a node is set exactly when the node has no arc from it and no
    arc to it. *)
Theorem IsolatedNodes_isolated g :
  bounds_ok g →
  ∃ i : Bits, IsolatedNodes g = Some i ∧ length i = length g ∧
    ∀ n, at_ i n = Some true ↔
      at_ g n = Some [] ∧ ∀ u, ¬ arc g u n.
Proof.
  intros Hb. unfold IsolatedNodes, bits.SetAll, bits.New.
  rewrite length_replicate.
  destruct (IsolatedNodes_from_clears 0 g (replicate (length g) true))
    as (i & -> & Hlen & Hbits); [done|rewrite length_replicate; lia| |].
  { intros row t [k Hk]%list_elem_of_lookup_1 Ht. rewrite length_replicate.
    apply (bounds_ok_arc g (Z.of_nat k) t Hb). exists row.
    by rewrite at_of_nat. }
  rewrite length_replicate in Hlen.
  exists i. split_and!; [done..|]. intros n. rewrite Hbits.
  assert (at_ (replicate (length g) true) n = Some true ↔
          0 ≤ n < Z.of_nat (length g)) as ->.
  { rewrite at_Some, lookup_replicate. lia. }
  split.
  - intros [Hn Hall].
    assert (is_Some (at_ g n)) as [row Hrow] by (by apply at_is_Some).
    pose proof Hrow as [_ Hrow']%at_Some.
    destruct (decide (row = [])) as [->|Hne].
    + split; [done|]. intros u (row' & [Hu Hrow'']%at_Some & Hin).
      destruct (Hall (Z.to_nat u) row' Hrow'') as [_ Hnot]; [|done].
      intros ->. by apply elem_of_nil in Hin.
    + destruct (Hall (Z.to_nat n) row Hrow' Hne) as [Hnn _]. lia.
  - intros [Hrow Hno]. split; [apply at_is_Some; eauto|].
    intros k row' Hk Hne. split.
    + intros ->. rewrite Z.add_0_l, at_of_nat in Hrow. congruence.
    + intros Hin. apply (Hno (Z.of_nat k)). exists row'.
      by rewrite at_of_nat.
Qed.

(** ** OneBits *)


(** ** IsUndirected *)

Lemma first_unpaired_example fr0 (U : list (list NI)) u a b :
  0 ≤ fr0 → fr0 + Z.of_nat (length U) ≤ 2 ^ 31 →
  first_unpaired fr0 U = (u, a, b) →
  (u = true → a = -1 ∧ b = -1 ∧ ∀ l, l ∈ U → l = []) ∧
  (u = false → fr0 ≤ a ∧ ∃ l, U !! Z.to_nat (a - fr0) = Some (b :: l)).
Proof.
  revert fr0. induction U as [|[|t l] U IH]; intros fr0 Hfr Hlen; simpl.
  - intros [= <- <- <-]. split; [|done]. intros _.
    split_and!; [done..|]. by intros l ?%elem_of_nil.
  - simpl in Hlen. intros [Ht Hf]%IH; [|lia..]. split.
    + intros Hu. destruct (Ht Hu) as (-> & -> & Hall). split_and!; [done..|].
      intros l [->|Hin]%elem_of_cons; [done|by apply Hall].
    + intros Hu. destruct (Hf Hu) as (Hle & l & Hl). split; [lia|]. exists l.
      by replace (Z.to_nat (a - fr0)) with (S (Z.to_nat (a - (fr0 + 1)))) by lia.
  - simpl in Hlen. intros [= <- <- <-]. split; [done|]. intros _.
    rewrite toNI_small by lia. split; [lia|]. exists l. by rewrite Z.sub_diag.
Qed.

(** The list [unpaired] at the end of the loops of [IsUndirected]. *)
Lemma IsUndirected_nodes_pairing g :
  Z.of_nat (length g) ≤ 2 ^ 31 → in_range g →
  ∃ U, IsUndirected_nodes 0 g (replicate (length g) []) = Some U ∧
       pairing (length g) (arcs_of 0 g) U.
Proof.
  intros Hn Hrange. rewrite IsUndirected_nodes_pair.
  destruct (pairing_run (length g) (arcs_of 0 g) [] (replicate (length g) []))
    as (U & HU & Hpair); [done| | |by exists U].
  - intros fr to Hin. apply arcs_of_range in Hin as (Hfr & l & Hl & Hto).
    rewrite Z.sub_0_r in Hl. split; [lia|].
    apply (Hrange fr l to); [|done]. apply at_Some. split; [lia|done].
  - assert (∀ a b, narcs (replicate (length g) ([] : list NI)) a b = 0%nat)
      as Hz.
    { intros a b. unfold narcs.
      destruct (at_ _ a) as [l|] eqn:Ha; [|done].
      apply at_Some in Ha as [_ Ha]. by apply lookup_replicate in Ha as [-> _]. }
    split.
    + apply length_replicate.
    + intros a l x Ha Hx. apply at_Some in Ha as [_ Ha].
      apply lookup_replicate in Ha as [-> _]. by apply elem_of_nil in Hx.
    + intros a. apply Hz.
    + intros a b _. by rewrite !Hz.
    + intros a b _. left. apply Hz.
Qed.

(** X11.  On a graph of at most 2^31 nodes that meets the bounds
    condition, [IsUndirected] does not panic; it answers true (with -1 and
    -1) exactly when between any two different nodes there are as many arcs
    one way as the other; and when it answers false, the arc it gives is
    between two different nodes and has more parallels than
    reciprocals. *)
Theorem IsUndirected_decides g :
  Z.of_nat (length g) ≤ 2 ^ 31 → bounds_ok g →
  ∃ u fr to, IsUndirected g = Some (u, fr, to) ∧
    (u = true ↔ symmetric g) ∧
    (u = true → fr = -1 ∧ to = -1) ∧
    (u = false → fr ≠ to ∧ (narcs g to fr < narcs g fr to)%nat).
Proof.
  intros Hn Hb.
  assert (in_range g) as Hrange.
  { intros a l x Ha Hx. apply (bounds_ok_arc g a x Hb). by exists l. }
  destruct (IsUndirected_nodes_pairing g Hn Hrange)
    as (U & HU & [Hlen HrU Hloops Hdiff Hone]).
  unfold IsUndirected. rewrite HU. simpl.
  destruct (first_unpaired 0 U) as [[u fr] to] eqn:Hfirst.
  exists u, fr, to. split; [done|].
  apply first_unpaired_example in Hfirst as [Ht Hf]; [|lia..].
  assert (∀ a b, a ≠ b →
    (narcs U a b + narcs g b a = narcs U b a + narcs g a b)%nat) as Hdiff'.
  { intros a b Hab. pose proof (Hdiff a b Hab) as Hd.
    simpl in Hd. by rewrite !narcs_arcs_of in Hd. }
  assert (u = false → fr ≠ to ∧ (narcs g to fr < narcs g fr to)%nat) as Hfalse.
  { intros Hu. destruct (Hf Hu) as (Hle & l & Hl). rewrite Z.sub_0_r in Hl.
    assert (0 < narcs U fr to)%nat as Hpos.
    { unfold narcs. rewrite (proj2 (at_Some U fr (to :: l))) by done.
      simpl. rewrite decide_True by done. lia. }
    assert (fr ≠ to) as Hne.
    { intros ->. rewrite Hloops in Hpos. lia. }
    split; [done|]. pose proof (Hdiff' fr to Hne).
    destruct (Hone fr to Hne); lia. }
  split_and!; [|intros Hu; by destruct (Ht Hu) as (? & ? & _)|done].
  split.
  - intros Hu a b Hab. destruct (Ht Hu) as (_ & _ & Hall).
    assert (∀ x y, narcs U x y = 0%nat) as Hz.
    { intros x y. unfold narcs. destruct (at_ U x) as [l|] eqn:Hx; [|done].
      apply at_Some in Hx as [_ Hx]. apply list_elem_of_lookup_2 in Hx.
      by rewrite (Hall l Hx). }
    pose proof (Hdiff' a b Hab) as Hd. rewrite !Hz in Hd. lia.
  - intros Hsym. destruct u; [done|]. destruct (Hfalse eq_refl) as [Hne Hlt].
    rewrite (Hsym to fr) in Hlt by done. lia.
Qed.

(** ** ShuffleArcLists *)

Lemma insert_head_Permutation {A} (l : list A) j x y :
  l !! j = Some y → y :: <[j := x]> l ≡ₚ x :: l.
Proof.
  revert j. induction l as [|b l IH]; intros [|j] Hj; simpl in *; simplify_eq.
  - apply perm_swap.
  - rewrite perm_swap, (IH j Hj). apply perm_swap.
Qed.

Lemma swap_Permutation {A} (l : list A) i j x y :
  l !! i = Some x → l !! j = Some y → <[j := x]> (<[i := y]> l) ≡ₚ l.
Proof.
  revert i j. induction l as [|a l IH]; intros [|i] [|j] Hi Hj;
    simpl in *; simplify_eq.
  - done.
  - by apply insert_head_Permutation.
  - by apply insert_head_Permutation.
  - by rewrite (IH i j).
Qed.

Section ShuffleFacts.
Context {R : Type} (Intn : R → Z → Z * R).
Hypothesis Intn_range : ∀ r n, 0 < n → 0 ≤ (Intn r n).1 < n.

Lemma shuffle_Permutation i (to : list NI) r :
  (i ≤ length to)%nat →
  ∃ to' r', shuffle Intn i to r = Some (to', r') ∧ to' ≡ₚ to.
Proof.
  revert to r. induction i as [|i IH]; intros to r Hi; [by exists to, r|].
  cbn [shuffle]. destruct (decide (1 < Z.of_nat (S i))) as [H1|]; [|by exists to, r].
  pose proof (Intn_range r (Z.of_nat (S i)) ltac:(lia)) as Hj.
  destruct (Intn r (Z.of_nat (S i))) as [j r']. simpl in Hj.
  assert (is_Some (at_ to j)) as [tj Htj] by (apply at_is_Some; lia).
  assert (is_Some (at_ to (Z.of_nat i))) as [ti Hti] by (apply at_is_Some; lia).
  rewrite Htj, Hti. simpl.
  unfold upd. rewrite decide_True by lia. simpl.
  rewrite decide_True by (rewrite length_insert; lia). simpl.
  destruct (IH (<[Z.to_nat j := ti]> (<[Z.to_nat (Z.of_nat i) := tj]> to)) r')
    as (to' & r'' & -> & Hp).
  { rewrite !length_insert. lia. }
  exists to', r''. split; [done|]. rewrite Hp.
  apply at_Some in Htj as [_ Htj]. apply at_Some in Hti as [_ Hti].
  by apply swap_Permutation.
Qed.

(** X12.  With a generator whose [Intn(n)] is from 0 to below [n],
    [ShuffleArcLists] does not panic, and leaves a graph in which the arc
    list of every node is a permutation of what it was: the graph has the
    same arcs. *)
Theorem ShuffleArcLists_permutes g r :
  ∃ g' r', ShuffleArcLists Intn g r = Some (g', r') ∧
    Forall2 (≡ₚ) g' g ∧
    (∀ u v, arc g' u v ↔ arc g u v) ∧
    ArcSize g' = ArcSize g.
Proof.
  assert (∃ g' r', ShuffleArcLists Intn g r = Some (g', r') ∧ Forall2 (≡ₚ) g' g)
    as (g' & r' & Hrun & Hperm).
  { revert r. induction g as [|to g IH]; intros r; simpl.
    - by exists [], r.
    - destruct (shuffle_Permutation (length to) to r) as (to' & r1 & -> & Hp);
        [done|].
      simpl. destruct (IH r1) as (g' & r2 & -> & Hg). simpl.
      exists (to' :: g'), r2. split; [done|]. by constructor. }
  exists g', r'. split_and!; [done..| |].
  - intros u v. unfold arc, at_. destruct (decide (0 ≤ u)); [|by split; intros (? & ? & ?)].
    split.
    + intros (to' & Hu & Hv).
      destruct (Forall2_lookup_l _ _ _ _ _ Hperm Hu) as (to & Hto & Hp).
      exists to. split; [done|]. by rewrite <- Hp.
    + intros (to & Hu & Hv).
      destruct (Forall2_lookup_r _ _ _ _ _ Hperm Hu) as (to' & Hto' & Hp).
      exists to'. split; [done|]. by rewrite Hp.
  - clear Hrun. unfold ArcSize. generalize 0. induction Hperm as [|to' to g' g Hp _ IH];
      intros m; simpl; [done|].
    by rewrite IH, (Permutation_length Hp).
Qed.
End ShuffleFacts.

(** ** Permute *)




(** ** What the depth-first traversal does *)

(** The nodes a trace has [NodeVisitor] called on, in order. *)
Definition visits (tr : list event) : list NI :=
  omap (λ e, match e with CallNodeVisitor n => Some n | _ => None end) tr.

(** The node of the last event of a trace, where that is a call of a
    conditional visitor that answered false. *)
Definition stop_node (tr : list event) : option NI :=
  match last tr with
  | Some (CallOkNodeVisitor n false) => Some n
  | Some (CallOkArcVisitor n _ false) => Some n
  | _ => None
  end.

(** Every node of the list has an arc to the next. *)
Fixpoint arc_chain (g : AdjacencyList) (c : list NI) : Prop :=
  match c with
  | x :: c' =>
      match c' with
      | y :: _ => arc g x y ∧ arc_chain g c'
      | [] => True
      end
  | [] => True
  end.

(** [x] is reached from [n] along arcs, through nodes of [P] only. *)
Inductive reach_in (g : AdjacencyList) (P : NI → Prop) (n : NI)
  : NI → Prop :=
  | reach_in_O : P n → reach_in g P n n
  | reach_in_S u v :
      reach_in g P n u → arc g u v → P v → reach_in g P n v.

(** The bits of [o'] are those of [o] and those of the nodes of [c]. *)
Definition marks (c : list NI) (o o' : option Bits) : Prop :=
  match o, o' with
  | None, None => True
  | Some pb, Some pb' =>
      length pb' = length pb ∧
      ∀ x, at_ pb' x = Some true ↔ at_ pb x = Some true ∨ x ∈ c
  | _, _ => False
  end.

(** The conditional arc visitor, if any, never answers false. *)
Definition never_stops_arc {V R} (cf : config V R) : Prop :=
  ∀ f, okArcVisitor cf = Some f → ∀ n x v, (f n x v).1 = true.

(** A conditional visitor of the configuration can answer false. *)
Definition stops {V R} (cf : config V R) : Prop :=
  (∃ f n v, okNodeVisitor cf = Some f ∧ (f n v).1 = false) ∨
  (∃ f n x v, okArcVisitor cf = Some f ∧ (f n x v).1 = false).

Lemma visits_app tr tr' : visits (tr ++ tr') = visits tr ++ visits tr'.
Proof. apply omap_app. Qed.

Lemma reach_in_P g P n x : reach_in g P n x → P x.
Proof. by destruct 1. Qed.

Lemma reach_in_mono g (P Q : NI → Prop) n x :
  (∀ y, P y → Q y) → reach_in g P n x → reach_in g Q n x.
Proof.
  intros HPQ. induction 1 as [|u v _ IH Ha Hv].
  - apply reach_in_O. auto.
  - eapply reach_in_S; eauto.
Qed.

Lemma reach_in_cons g (P : NI → Prop) n t x :
  P n → arc g n t → reach_in g P t x → reach_in g P n x.
Proof.
  intros Hn Ha. induction 1 as [Ht|u v _ IH Ha' Hv].
  - eapply reach_in_S; [by apply reach_in_O|done..].
  - eapply reach_in_S; eauto.
Qed.

Lemma reach_in_reach g P n x : reach_in g P n x → reachable g n x.
Proof.
  induction 1 as [|u v _ [k IH] Ha _].
  - exists 0%nat. constructor.
  - exists (S k). by econstructor.
Qed.

Lemma marks_refl o : marks [] o o.
Proof.
  destruct o as [pb|]; simpl; [|done]. split; [done|].
  intros x. split; [by left|]. by intros [?|?%elem_of_nil].
Qed.

Lemma stop_node_snoc_node tr n : stop_node (tr ++ [CallOkNodeVisitor n false]) = Some n.
Proof. unfold stop_node. by rewrite last_snoc. Qed.

Lemma stop_node_snoc_arc tr n x :
  stop_node (tr ++ [CallOkArcVisitor n x false]) = Some n.
Proof. unfold stop_node. by rewrite last_snoc. Qed.

Section DepthFirstRuns.
Context {V R : Type} (Perm : R → nat → list nat * R).
Variables (g : AdjacencyList) (cf : config V R).
Hypothesis Hbounds : bounds_ok g.
Hypothesis Hperm : ∀ r n, (Perm r n).1 ≡ₚ seq 0 n.
Implicit Types (st : dfs_state V R) (w : world V R).

(** The bit of a node is set, or clear, in the visited bits. *)
Definition seen st (x : NI) : Prop := at_ (vis st) x = Some true.
Definition unseen st (x : NI) : Prop := at_ (vis st) x = Some false.

(** Both bitsets have a bit for every node, and only nodes that are
    visited have their path bit set. *)
Definition good st : Prop :=
  (length g ≤ length (vis st))%nat ∧
  ∀ pb, path st = Some pb →
    (length g ≤ length pb)%nat ∧ ∀ x, at_ pb x = Some true → seen st x.

(** From [st] to [st']: visited nodes stay so; the nodes visited since are
    reached from a node of [roots] through nodes not visited at [st]; and
    [NodeVisitor] was called on each of them once, and on no other. *)
Record grown (roots : NI → Prop) st st' : Prop := {
  g_len : length (vis st') = length (vis st);
  g_seen : ∀ x, seen st x → seen st' x;
  g_from : ∀ x, unseen st x → seen st' x →
    ∃ t, roots t ∧ reach_in g (unseen st) t x;
  g_trace : ∃ evs, w_trace (dw st') = w_trace (dw st) ++ evs ∧
    NoDup (visits evs) ∧
    (∀ x, x ∈ visits evs → unseen st x ∧ seen st' x) ∧
    (is_Some (nodeVisitor cf) → ∀ x, unseen st x → seen st' x →
       x ∈ visits evs)
}.

(** The same, where the calls of [df] between [st] and [st'] have all
    returned true: the arcs of the nodes visited since lead to visited
    nodes, and the path bits are what they were. *)
Record finished (roots : NI → Prop) st st' : Prop := {
  f_grown : grown roots st st';
  f_closed : ∀ x y, unseen st x → seen st' x → arc g x y → seen st' y;
  f_path : path st' = path st;
  f_clear : (clear (vis st') ≤ clear (vis st))%nat;
  f_good : good st'
}.

(** A conditional visitor has answered false at the last node of [chain],
    and the path bits of the nodes [marked] have been set. *)
Record halted (chain marked : list NI) st st' : Prop := {
  s_chain : arc_chain g chain;
  s_node : ∃ v, last chain = Some v ∧ stop_node (w_trace (dw st')) = Some v;
  s_marks : marks marked (path st) (path st');
  s_stops : stops cf
}.

Lemma seen_or_unseen st st' x :
  length (vis st') = length (vis st) → unseen st x →
  seen st' x ∨ unseen st' x.
Proof.
  intros Hlen Hx.
  assert (is_Some (at_ (vis st') x)) as [[] ?].
  { apply at_is_Some. rewrite Hlen. apply at_is_Some. by eexists. }
  - by left.
  - by right.
Qed.

Lemma unseen_before st st' x :
  length (vis st') = length (vis st) → (∀ y, seen st y → seen st' y) →
  unseen st' x → unseen st x.
Proof.
  intros Hlen Hseen Hx.
  assert (is_Some (at_ (vis st) x)) as [[] Hv].
  { apply at_is_Some. rewrite <- Hlen. apply at_is_Some. by eexists. }
  - apply Hseen in Hv. unfold seen, unseen in *. congruence.
  - done.
Qed.

Lemma grown_trans (R1 R2 Rt : NI → Prop) st st1 st2 :
  grown R1 st st1 → grown R2 st1 st2 →
  (∀ t, R1 t → Rt t) →
  (∀ t x, R2 t → reach_in g (unseen st1) t x →
     ∃ t', Rt t' ∧ reach_in g (unseen st) t' x) →
  grown Rt st st2.
Proof.
  intros [Hl1 Hs1 Hf1 (evs1 & Htr1 & Hnd1 & Hin1 & Hall1)]
         [Hl2 Hs2 Hf2 (evs2 & Htr2 & Hnd2 & Hin2 & Hall2)] HR1 HR2.
  assert (∀ y, unseen st1 y → unseen st y) as Hback
    by (intros y; by apply unseen_before).
  split.
  - congruence.
  - auto.
  - intros x Hx Hx2. destruct (seen_or_unseen st st1 x Hl1 Hx) as [Hx1|Hx1].
    + destruct (Hf1 x Hx Hx1) as (t & Ht & Hr). exists t. auto.
    + destruct (Hf2 x Hx1 Hx2) as (t & Ht & Hr). by apply (HR2 t).
  - exists (evs1 ++ evs2). rewrite Htr2, Htr1, visits_app, <- app_assoc.
    split_and!; [done| | |].
    + apply NoDup_app. split_and!; [done| |done].
      intros x [_ Hx1]%Hin1 [Hx1' _]%Hin2. unfold seen, unseen in *. congruence.
    + intros x [Hx|Hx]%elem_of_app.
      * destruct (Hin1 x Hx). auto.
      * destruct (Hin2 x Hx). auto.
    + intros Hnv x Hx Hx2. apply elem_of_app.
      destruct (seen_or_unseen st st1 x Hl1 Hx) as [Hx1|Hx1]; [left|right]; auto.
Qed.

Lemma grown_weaken (R1 R2 : NI → Prop) st st' :
  (∀ t, R1 t → R2 t) → grown R1 st st' → grown R2 st st'.
Proof.
  intros HR [Hl Hs Hf Ht]. split; [done..| |done].
  intros x Hx Hx'. destruct (Hf x Hx Hx') as (t & ? & ?). exists t. auto.
Qed.

(** A step that changes neither bitset, and calls no node visitor. *)
Lemma grown_calls roots st st' evs :
  vis st' = vis st → w_trace (dw st') = w_trace (dw st) ++ evs →
  visits evs = [] → grown roots st st'.
Proof.
  intros Hv Htr Hevs. split.
  - by rewrite Hv.
  - unfold seen. by rewrite Hv.
  - unfold seen, unseen. rewrite Hv. congruence.
  - exists evs. rewrite Hevs. split_and!; [done|constructor|..].
    + by intros x ?%elem_of_nil.
    + unfold seen, unseen. rewrite Hv. congruence.
Qed.

Lemma finished_calls roots st st' evs :
  vis st' = vis st → path st' = path st →
  w_trace (dw st') = w_trace (dw st) ++ evs → visits evs = [] →
  good st → finished roots st st'.
Proof.
  intros Hv Hp Htr Hevs Hgood. split.
  - by eapply grown_calls.
  - unfold seen, unseen. rewrite Hv. congruence.
  - done.
  - by rewrite Hv.
  - unfold good, seen in *. by rewrite Hv, Hp.
Qed.

Lemma finished_trans (R1 R2 Rt : NI → Prop) st st1 st2 :
  finished R1 st st1 → finished R2 st1 st2 →
  (∀ t, R1 t → Rt t) →
  (∀ t x, R2 t → reach_in g (unseen st1) t x →
     ∃ t', Rt t' ∧ reach_in g (unseen st) t' x) →
  finished Rt st st2.
Proof.
  intros [Hg1 Hc1 Hp1 Hcl1 Hgd1] [Hg2 Hc2 Hp2 Hcl2 Hgd2] HR1 HR2. split.
  - by eapply grown_trans.
  - intros x y Hx Hx2 Ha.
    destruct (seen_or_unseen st st1 x (g_len _ _ _ Hg1) Hx) as [Hx1|Hx1].
    + apply (g_seen _ _ _ Hg2). by eapply Hc1.
    + by eapply Hc2.
  - congruence.
  - lia.
  - done.
Qed.

Lemma visitArc_trace n x w :
  ∃ evs, w_trace (visitArc cf n x w) = w_trace w ++ evs ∧ visits evs = [].
Proof.
  unfold visitArc. destruct (arcVisitor cf).
  - by exists [CallArcVisitor n x].
  - exists []. by rewrite app_nil_r.
Qed.

Lemma visitOkArc_trace n x w ok w' :
  visitOkArc cf n x w = (ok, w') →
  ∃ evs, w_trace w' = w_trace w ++ evs ∧ visits evs = [] ∧
    (ok = false → stop_node (w_trace w') = Some n ∧ stops cf).
Proof.
  unfold visitOkArc. destruct (okArcVisitor cf) as [f|] eqn:Hf.
  - destruct (f n x (w_vis w)) as [ok' v] eqn:Hfn. intros [= <- <-].
    exists [CallOkArcVisitor n x ok']. split_and!; [done..|].
    intros ->. split; [apply stop_node_snoc_arc|].
    right. exists f, n, x, (w_vis w). by rewrite Hfn.
  - intros [= <- <-]. exists []. by rewrite app_nil_r.
Qed.

Lemma visitNode_trace n w :
  ∃ evs, w_trace (visitNode cf n w) = w_trace w ++ evs ∧
    visits evs = match nodeVisitor cf with Some _ => [n] | None => [] end.
Proof.
  unfold visitNode. destruct (nodeVisitor cf).
  - by exists [CallNodeVisitor n].
  - exists []. by rewrite app_nil_r.
Qed.

Lemma visitOkNode_trace n w ok w' :
  visitOkNode cf n w = (ok, w') →
  ∃ evs, w_trace w' = w_trace w ++ evs ∧ visits evs = [] ∧
    (ok = false → stop_node (w_trace w') = Some n ∧ stops cf).
Proof.
  unfold visitOkNode. destruct (okNodeVisitor cf) as [f|] eqn:Hf.
  - destruct (f n (w_vis w)) as [ok' v] eqn:Hfn. intros [= <- <-].
    exists [CallOkNodeVisitor n ok']. split_and!; [done..|].
    intros ->. split; [apply stop_node_snoc_node|].
    left. exists f, n, (w_vis w). by rewrite Hfn.
  - intros [= <- <-]. exists []. by rewrite app_nil_r.
Qed.

(** How a call [df(n)] ends. *)
Definition df_out (n : NI) st (r : result (dfs_state V R)) : Prop :=
  match r with
  | Ok st' => finished (eq n) st st' ∧ seen st' n
  | Stop st' => ∃ c, grown (eq n) st st' ∧ halted (n :: c) (n :: c) st st'
  | _ => False
  end.

(** How a loop over arcs of [n] ends, with the arc ends [T] done. *)
Definition arcs_out (n : NI) (T : NI → Prop) st
    (r : result (dfs_state V R)) : Prop :=
  match r with
  | Ok st' => finished (arc g n) st st' ∧ ∀ t, T t → seen st' t
  | Stop st' => ∃ c, grown (arc g n) st st' ∧ halted (n :: c) c st st'
  | _ => False
  end.

(** What the loops assume of the recursive call. *)
Definition df_below (fuel : nat)
    (rec : NI → dfs_state V R → result (dfs_state V R)) : Prop :=
  ∀ t st0, good st0 → unseen st0 t → 0 ≤ t < Z.of_nat (length g) →
    (clear (vis st0) ≤ fuel)%nat → df_out t st0 (rec t st0).

Lemma arcs_reach_back n st st1 t x :
  length (vis st1) = length (vis st) → (∀ y, seen st y → seen st1 y) →
  arc g n t → reach_in g (unseen st1) t x →
  ∃ t', arc g n t' ∧ reach_in g (unseen st) t' x.
Proof.
  intros Hl Hs Ha Hr. exists t. split; [done|].
  eapply reach_in_mono; [|done]. intros y. by apply unseen_before.
Qed.

Lemma dfs_arc_out rec fuel n x t st :
  df_below fuel rec → good st → arc g n t → (clear (vis st) ≤ fuel)%nat →
  arcs_out n (eq t) st (dfs_arc rec cf n x (Some t) st).
Proof.
  intros Hrec Hgood Harc Hfuel. unfold dfs_arc.
  pose proof (bounds_ok_arc _ _ _ Hbounds Harc) as Ht.
  destruct (visitArc_trace n x (dw st)) as (evs1 & Htr1 & Hv1).
  set (st1 := dfs_world (visitArc cf n x) st).
  destruct (visitOkArc cf n x (dw st1)) as [ok w2] eqn:Hok.
  destruct (visitOkArc_trace _ _ _ _ _ Hok) as (evs2 & Htr2 & Hv2 & Hstop).
  set (st2 := dfs_world (λ _, w2) st1).
  assert (w_trace (dw st2) = w_trace (dw st) ++ (evs1 ++ evs2)) as Htr.
  { cbn. rewrite Htr2. cbn. by rewrite Htr1, app_assoc. }
  assert (visits (evs1 ++ evs2) = []) as Hv by (by rewrite visits_app, Hv1, Hv2).
  assert (vis st2 = vis st) as Hvis by done.
  assert (path st2 = path st) as Hpath by done.
  assert (finished (arc g n) st st2) as F0 by (by eapply finished_calls).
  destruct ok; cbn [bind].
  2:{ exists []. split; [apply F0|]. destruct (Hstop eq_refl) as [Hsn Hs].
      split; [done|by exists n| |done]. rewrite Hpath. apply marks_refl. }
  assert (is_Some (at_ (vis st) t)) as [b Hb].
  { apply at_is_Some. destruct Hgood. lia. }
  unfold bits.Bit. rewrite Hvis, Hb. cbn [mbind option_bind].
  destruct b.
  - destruct (decide (1 ≠ 0)); [|exfalso; lia]. split; [exact F0|].
    intros ? <-. unfold seen. by rewrite Hvis.
  - destruct (decide (0 ≠ 0)); [exfalso; lia|].
    specialize (Hrec t st2 (f_good _ _ _ F0)).
    unfold unseen in Hrec. rewrite Hvis in Hrec.
    specialize (Hrec Hb Ht Hfuel).
    destruct (rec t st2) as [st'|st'|st'|]; cbn in Hrec |- *; [| |done..].
    + destruct Hrec as [Hfin Hseen]. split; [|by intros ? <-].
      eapply finished_trans; [exact F0|exact Hfin|done|].
      intros t' x' <- Hr.
      eapply arcs_reach_back; [| |done|done]; [by rewrite Hvis|].
      unfold seen. by rewrite Hvis.
    + destruct Hrec as (c & Hg & [Hch Hn Hm Hs]). exists (t :: c). split.
      * eapply grown_trans; [apply F0|exact Hg|done|].
        intros t' x' <- Hr.
        eapply arcs_reach_back; [| |done|done]; [by rewrite Hvis|].
        unfold seen. by rewrite Hvis.
      * split; [by split| |by rewrite <- Hpath|done].
        destruct Hn as (v & Hlast & Hsn). exists v. split; [|done].
        by rewrite last_cons_cons.
Qed.

Lemma arcs_out_seq n (T1 T2 : NI → Prop) st r k :
  arcs_out n T1 st r →
  (∀ st1, finished (arc g n) st st1 → arcs_out n T2 st1 (k st1)) →
  arcs_out n (λ t, T1 t ∨ T2 t) st (bind r k).
Proof.
  intros Hr Hk. destruct r as [st1|st1|st1|]; cbn in Hr |- *; [|done..].
  destruct Hr as [F1 HT1]. specialize (Hk st1 F1).
  pose proof (g_len _ _ _ (f_grown _ _ _ F1)) as Hl.
  pose proof (g_seen _ _ _ (f_grown _ _ _ F1)) as Hs.
  destruct (k st1) as [st2|st2|st2|]; cbn in Hk |- *; [| |done..].
  - destruct Hk as [F2 HT2]. split.
    + eapply finished_trans; [exact F1|exact F2|done|].
      intros t x. by apply arcs_reach_back.
    + intros t [Ht|Ht]; [|by apply HT2].
      apply (g_seen _ _ _ (f_grown _ _ _ F2)). by apply HT1.
  - destruct Hk as (c & G2 & [Hch Hn Hm Hst]). exists c. split.
    + eapply grown_trans; [apply F1|exact G2|done|].
      intros t x. by apply arcs_reach_back.
    + split; [done..| |done]. by rewrite <- (f_path _ _ _ F1).
Qed.

Lemma arcs_out_impl n (T1 T2 : NI → Prop) st r :
  (∀ t, T2 t → T1 t) → arcs_out n T1 st r → arcs_out n T2 st r.
Proof.
  intros HT. destruct r; cbn; [|done..]. intros [? ?]. split; auto.
Qed.

Lemma finished_refl roots st : good st → finished roots st st.
Proof.
  intros Hgood. apply (finished_calls roots st st []); try done.
  by rewrite app_nil_r.
Qed.

Lemma dfs_arcs_out rec fuel n x to st :
  df_below fuel rec → good st → (∀ t, t ∈ to → arc g n t) →
  (clear (vis st) ≤ fuel)%nat →
  arcs_out n (λ t, t ∈ to) st (dfs_arcs rec cf n x to st).
Proof.
  intros Hrec. revert x st.
  induction to as [|t to IH]; intros x st Hgood Harcs Hfuel; cbn [dfs_arcs].
  - split; [by apply finished_refl|]. by intros t ?%elem_of_nil.
  - eapply arcs_out_impl;
      [|apply (arcs_out_seq n (eq t) (λ t', t' ∈ to))].
    + intros t' [->|Hin]%elem_of_cons; [by left|by right].
    + eapply (dfs_arc_out rec fuel); [done..|apply Harcs; by left|done].
    + intros st1 F1. apply IH; [apply F1|intros; apply Harcs; by right|].
      pose proof (f_clear _ _ _ F1). lia.
Qed.

Lemma dfs_arcs_perm_out rec fuel n to p st :
  df_below fuel rec → good st → (∀ t, t ∈ to → arc g n t) →
  (∀ x, x ∈ p → (x < length to)%nat) →
  (clear (vis st) ≤ fuel)%nat →
  arcs_out n (λ t, ∃ x, x ∈ p ∧ to !! x = Some t) st
    (dfs_arcs_perm rec cf n to p st).
Proof.
  intros Hrec. revert st.
  induction p as [|x p IH]; intros st Hgood Harcs Hp Hfuel;
    cbn [dfs_arcs_perm].
  - split; [by apply finished_refl|]. by intros t (x & ?%elem_of_nil & _).
  - destruct (lookup_lt_is_Some_2 to x) as [t Ht]; [apply Hp; by left|].
    rewrite Ht.
    eapply arcs_out_impl;
      [|apply (arcs_out_seq n (eq t) (λ t', ∃ x', x' ∈ p ∧ to !! x' = Some t'))].
    + intros t' (x' & [->|Hin]%elem_of_cons & Hx').
      * left. congruence.
      * right. by exists x'.
    + eapply (dfs_arc_out rec fuel); [done..| |done].
      apply Harcs. by eapply list_elem_of_lookup_2.
    + intros st1 F1. apply IH; [apply F1|done| |].
      * intros x' Hx'. apply Hp. by right.
      * pose proof (f_clear _ _ _ F1). lia.
Qed.

Lemma setPathBit_set n (v : Z) st :
  (∀ pb, path st = Some pb → 0 ≤ n < Z.of_nat (length pb)) →
  ∃ st', setPathBit n v st = Some st' ∧ vis st' = vis st ∧ dw st' = dw st ∧
    path st' = (λ pb, <[Z.to_nat n := negb (v =? 0)]> pb) <$> path st.
Proof.
  intros Hr. unfold setPathBit. destruct (path st) as [pb|] eqn:Hp.
  - unfold bits.SetBit, upd. rewrite decide_True by auto. cbn.
    eexists. split; [done|]. done.
  - by exists st.
Qed.

Lemma grown_same roots st st5 st6 :
  grown roots st st5 → vis st6 = vis st5 → dw st6 = dw st5 →
  grown roots st st6.
Proof.
  intros [Hl Hs Hf Ht] Hv Hd. split; unfold seen in *; rewrite ?Hv, ?Hd; done.
Qed.

Lemma marks_cons n c (o o4 o' : option Bits) :
  (∀ pb, o = Some pb → 0 ≤ n < Z.of_nat (length pb)) →
  o4 = (λ pb, <[Z.to_nat n := true]> pb) <$> o →
  marks c o4 o' → marks (n :: c) o o'.
Proof.
  intros Hr -> Hm. destruct o as [pb|], o' as [pb'|]; cbn in *; try done.
  destruct Hm as [Hl Hm]. rewrite length_insert in Hl. split; [done|].
  specialize (Hr pb eq_refl).
  intros x. rewrite Hm, elem_of_cons.
  destruct (decide (n = x)) as [->|Hne].
  - rewrite at_insert_eq by done. split; [intros _; right; by left|by left].
  - rewrite at_insert_ne by lia. split; [intros [?|?]; auto|].
    intros [?|[?|?]]; [by left|congruence|by right].
Qed.

(** What a call [df(n)] does, where the bit of [n] is clear. *)
Lemma df_run fuel n st :
  good st → unseen st n → 0 ≤ n < Z.of_nat (length g) →
  (clear (vis st) ≤ fuel)%nat →
  df_out n st (df Perm fuel g cf n st).
Proof.
  revert n st.
  induction fuel as [|fuel IH]; intros n st Hgood Hn Hrange Hfuel.
  { apply at_Some in Hn as [_ Hn]. pose proof (clear_insert _ _ Hn). lia. }
  cbn [df]. pose proof Hgood as [Hlv Hpb].
  destruct (bits.SetBit (vis st) n 1) as [b|] eqn:Hb.
  2:{ assert (is_Some (bits.SetBit (vis st) n 1)) as [? ?]; [|congruence].
      apply upd_is_Some, at_is_Some. by eexists. }
  apply SetBit_1 in Hb as [Hnv ->].
  pose proof Hn as [_ Hn']%at_Some. pose proof (clear_insert _ _ Hn') as Hclear.
  set (st1 := {| vis := <[Z.to_nat n := true]> (vis st); path := path st;
                 dw := dw st |}).
  destruct (setPathBit_set n 1 st1) as (st2 & -> & Hv2 & Hd2 & Hp2).
  { intros pb Hpath. destruct (Hpb pb Hpath). lia. }
  change (negb (1 =? 0)) with true in Hp2.
  destruct (visitNode_trace n (dw st2)) as (evsN & HtrN & HvN).
  set (st3 := dfs_world (visitNode cf n) st2).
  destruct (visitOkNode cf n (dw st3)) as [ok w] eqn:Hok.
  destruct (visitOkNode_trace _ _ _ _ Hok) as (evsO & HtrO & HvO & Hstop).
  set (st4 := dfs_world (λ _, w) st3).
  (* the state at the loop over the arcs of [n] *)
  assert (∀ s4,
    vis s4 = <[Z.to_nat n := true]> (vis st) →
    path s4 = (λ pb, <[Z.to_nat n := true]> pb) <$> path st →
    w_trace (dw s4) = w_trace (dw st) ++ (evsN ++ evsO) →
    grown (eq n) st s4 ∧ good s4 ∧ seen s4 n ∧
    S (clear (vis s4)) = clear (vis st) ∧
    (∀ y, y ≠ n → unseen st y → unseen s4 y) ∧
    (∀ y, unseen s4 y → unseen st y) ∧
    marks [n] (path st) (path s4)) as Henter.
  { intros s4 Hv4 Hp4 Htr4.
    assert (seen s4 n) as Hsn.
    { unfold seen. rewrite Hv4. by apply at_insert_eq. }
    assert (∀ y, y ≠ n → at_ (vis s4) y = at_ (vis st) y) as Hother.
    { intros y Hy. rewrite Hv4. apply at_insert_ne; [lia|done]. }
    assert (∀ y, seen st y → seen s4 y) as Hseen.
    { intros y Hy. unfold seen. rewrite Hother; [done|].
      intros ->. unfold seen, unseen in *. congruence. }
    assert (∀ y, unseen st y → seen s4 y → y = n) as Hnew.
    { intros y Hy Hy4. destruct (decide (y = n)) as [|Hne]; [done|].
      unfold seen, unseen in *. rewrite Hother in Hy4 by done. congruence. }
    split_and!; [split| |done| | | |].
    - by rewrite Hv4, length_insert.
    - done.
    - intros y Hy Hy4. apply (Hnew y Hy) in Hy4 as ->. exists n.
      split; [done|]. by apply reach_in_O.
    - exists (evsN ++ evsO). rewrite visits_app, HvN, HvO, app_nil_r.
      split_and!; [done|..].
      + destruct (nodeVisitor cf); [apply NoDup_singleton|constructor].
      + intros y Hy. assert (y = n) as ->; [|done].
        destruct (nodeVisitor cf); [by apply list_elem_of_singleton in Hy|].
        by apply elem_of_nil in Hy.
      + intros [f Hf] y Hy Hy4. apply (Hnew y Hy) in Hy4 as ->.
        rewrite Hf. by apply list_elem_of_singleton.
    - split; [by rewrite Hv4, length_insert|].
      intros pb' Hpb'. rewrite Hp4 in Hpb'.
      destruct (path st) as [pb|] eqn:Hpath; [|done]. cbn in Hpb'.
      injection Hpb' as <-. destruct (Hpb pb eq_refl) as [Hlpb Hset].
      split; [by rewrite length_insert|]. intros y Hy.
      destruct (decide (n = y)) as [<-|Hne]; [done|].
      rewrite at_insert_ne in Hy by lia. auto.
    - by rewrite Hv4.
    - intros y Hy Hyst. unfold unseen. by rewrite Hother.
    - intros y Hy. destruct (decide (y = n)) as [->|Hne].
      + unfold seen, unseen in *. congruence.
      + unfold unseen in *. by rewrite <- Hother.
    - eapply marks_cons; [|exact Hp4|apply marks_refl].
      intros pb Hpath. destruct (Hpb pb Hpath). lia. }
  assert (w_trace (dw st4) = w_trace (dw st) ++ (evsN ++ evsO)) as Htr4.
  { cbn. rewrite HtrO. cbn. rewrite HtrN, Hd2. cbn. by rewrite app_assoc. }
  assert (vis st4 = <[Z.to_nat n := true]> (vis st)) as Hv4 by (by cbn; rewrite Hv2).
  assert (path st4 = (λ pb, <[Z.to_nat n := true]> pb) <$> path st) as Hp4
    by (by cbn; rewrite Hp2).
  destruct ok; cbn [bind].
  2:{ destruct (Henter st4 Hv4 Hp4 Htr4) as (G0 & _ & _ & _ & _ & _ & Hm).
      destruct (Hstop eq_refl) as [Hsn Hs].
      exists []. split; [done|]. split; [done|by exists n|done|done]. }
  assert (is_Some (at_ g n)) as [to Hto] by (by apply at_is_Some).
  rewrite Hto.
  assert (∀ t, t ∈ to → arc g n t) as Harcs by (intros t Ht; by exists to).
  (* after the loop *)
  assert (∀ s4 r,
    vis s4 = <[Z.to_nat n := true]> (vis st) →
    path s4 = (λ pb, <[Z.to_nat n := true]> pb) <$> path st →
    w_trace (dw s4) = w_trace (dw st) ++ (evsN ++ evsO) →
    arcs_out n (λ t, t ∈ to) s4 r →
    df_out n st
      (st5 ←! r;
       match setPathBit n 0 st5 with
       | Some st6 => Ok st6
       | None => Panic st5
       end)) as Hleave.
  { intros s4 r Hv Hp Htr Hr.
    destruct (Henter s4 Hv Hp Htr) as (G0 & Hg4 & Hsn4 & Hcl4 & Hfw & Hbw & Hm).
    assert (∀ t x, arc g n t → reach_in g (unseen s4) t x →
              ∃ t', n = t' ∧ reach_in g (unseen st) t' x) as Hback.
    { intros t x Ha Hreach. exists n. split; [done|].
      eapply reach_in_cons; [exact Hn|exact Ha|].
      by eapply reach_in_mono. }
    destruct r as [st5|st5|st5|]; cbn in Hr |- *; [| |done..].
    - destruct Hr as [F5 Hdone].
      destruct (setPathBit_set n 0 st5) as (st6 & -> & Hv6 & Hd6 & Hp6).
      { intros pb Hpath. destruct (f_good _ _ _ F5) as [_ Hpb5].
        destruct (Hpb5 pb Hpath). lia. }
      change (negb (0 =? 0)) with false in Hp6.
      assert (path st6 = path st) as Hpath6.
      { rewrite Hp6, (f_path _ _ _ F5), Hp.
        destruct (path st) as [pb|] eqn:Hpath; [|done]. cbn. f_equal.
        rewrite list_insert_insert_eq. apply list_insert_id.
        destruct (Hpb pb eq_refl) as [Hlpb Hset].
        assert (is_Some (at_ pb n)) as [[] Hbit] by (apply at_is_Some; lia).
        - apply Hset in Hbit. unfold seen, unseen in *. congruence.
        - by apply at_Some in Hbit as [_ ?]. }
      assert (∀ y, seen st6 y ↔ seen st5 y) as H65
        by (intros y; unfold seen; by rewrite Hv6).
      cbn. split; [split|].
      + eapply grown_trans; [exact G0| |done|exact Hback].
        eapply grown_same; [apply F5|done..].
      + intros x y Hx Hx6 Ha. apply H65. apply H65 in Hx6.
        destruct (decide (x = n)) as [->|Hne].
        * apply Hdone. destruct Ha as (to' & Hto' & Hy). congruence.
        * eapply (f_closed _ _ _ F5); [|done..]. by apply Hfw.
      + done.
      + rewrite Hv6. pose proof (f_clear _ _ _ F5). lia.
      + destruct (f_good _ _ _ F5) as [Hl5 _]. split; [by rewrite Hv6|].
        intros pb Hpath. rewrite Hpath6 in Hpath.
        destruct (Hpb pb Hpath) as [Hlpb Hset]. split; [done|].
        intros y Hy. apply H65, (g_seen _ _ _ (f_grown _ _ _ F5)).
        apply (g_seen _ _ _ G0). auto.
      + apply H65, (g_seen _ _ _ (f_grown _ _ _ F5)). done.
    - destruct Hr as (c & G5 & [Hch Hnode Hm5 Hs]). exists c. split.
      + eapply grown_trans; [exact G0|exact G5|done|exact Hback].
      + split; [done..| |done].
        eapply marks_cons; [|exact Hp|done].
        intros pb Hpath. destruct (Hpb pb Hpath). lia. }
  destruct (Henter st4 Hv4 Hp4 Htr4) as (_ & Hg4 & _ & Hcl4 & _).
  assert (df_below fuel (df Perm fuel g cf)) as Hrec.
  { intros t st0 ? ? ? ?. by apply IH. }
  assert (clear (vis st4) ≤ fuel)%nat as Hf4 by lia.
  destruct (w_rand (dw st4)) as [r0|] eqn:Hrand.
  - unfold callPerm. pose proof (Hperm r0 (length to)) as Hp.
    destruct (Perm r0 (length to)) as [p r']. cbn in Hp.
    set (s4 := dfs_world _ st4).
    assert (arcs_out n (λ t, ∃ x, x ∈ p ∧ to !! x = Some t) s4
              (dfs_arcs_perm (df Perm fuel g cf) cf n to p s4)) as Hloop.
    { apply (dfs_arcs_perm_out _ fuel); [done|exact Hg4|done| |exact Hf4].
      intros x Hx. rewrite Hp in Hx. apply elem_of_seq in Hx. lia. }
    apply (Hleave s4); [done..|].
    eapply arcs_out_impl; [|exact Hloop].
    intros t [x Hx]%list_elem_of_lookup_1. exists x. split; [|done].
    rewrite Hp. apply elem_of_seq. apply lookup_lt_Some in Hx. lia.
  - apply (Hleave st4); [done..|]. by apply (dfs_arcs_out _ fuel).
Qed.

Lemma stops_never : stops cf → never_stops cf → never_stops_arc cf → False.
Proof.
  intros [(f & n & v & Hf & Hfalse)|(f & n & x & v & Hf & Hfalse)] Hn Ha.
  - rewrite (Hn f Hf n v) in Hfalse. done.
  - rewrite (Ha f Hf n x v) in Hfalse. done.
Qed.

(** The visited bits [DepthFirst] starts from, and whether both bitsets of
    the configuration have a bit for every node. *)
Definition vis0 : Bits := default (bits.New (length g)) (visBits cf).

Definition fits : Prop :=
  (length g ≤ length vis0)%nat ∧
  ∀ pb, pathBits cf = Some pb → (length g ≤ length pb)%nat.

(** The state in which [DepthFirst] calls [df(cf.start)]. *)
Definition dfs_init (v : V) : dfs_state V R :=
  {| vis := vis0; path := bits.ClearAll <$> pathBits cf;
     dw := {| w_vis := v; w_rand := rand cf; w_trace := [] |} |}.

Lemma DepthFirst_run v :
  0 ≤ start cf < Z.of_nat (length g) → fits →
  at_ vis0 (start cf) = Some false →
  df_out (start cf) (dfs_init v) (DepthFirst Perm g cf v).
Proof.
  intros Hs [Hlv Hlp] Hclear.
  assert (DepthFirst Perm g cf v =
          df Perm (S (length vis0)) g cf (start cf) (dfs_init v)) as ->.
  { unfold DepthFirst, dfs_init, vis0 in *.
    destruct (visBits cf) as [b|]; [|done]. cbn in *.
    unfold bits.Bit. rewrite Hclear. cbn.
    destruct (decide (0 ≠ 0)); [exfalso; lia|done]. }
  apply df_run; [|done|done|].
  - split; [done|]. intros pb Hpb. cbn in Hpb.
    destruct (pathBits cf) as [pb0|] eqn:Hp0; [|done].
    cbn in Hpb. injection Hpb as <-. unfold bits.ClearAll.
    rewrite length_replicate. split; [by apply Hlp|].
    intros x [_ Hx]%at_Some. by apply lookup_replicate in Hx as [? _].
  - cbn. pose proof (clear_le_length vis0). lia.
Qed.

Lemma finished_closed st st' n x :
  finished (eq n) st st' → seen st' n →
  reach_in g (unseen st) n x → seen st' x.
Proof.
  intros F Hn. induction 1 as [|u v Hr IH Ha Hv]; [done|].
  eapply (f_closed _ _ _ F); [|exact IH|exact Ha]. by eapply reach_in_P.
Qed.

(** What the visited bits are after a traversal no visitor stops. *)
Lemma DepthFirst_marks v :
  never_stops cf → never_stops_arc cf →
  0 ≤ start cf < Z.of_nat (length g) → fits →
  at_ vis0 (start cf) = Some false →
  ∃ st', DepthFirst Perm g cf v = Ok st' ∧
    length (vis st') = length vis0 ∧
    ∀ x, at_ (vis st') x = Some true ↔
      at_ vis0 x = Some true ∨
      reach_in g (λ y, at_ vis0 y = Some false) (start cf) x.
Proof.
  intros Hnn Hna Hs Hfits Hclear.
  pose proof (DepthFirst_run v Hs Hfits Hclear) as Hrun.
  destruct (DepthFirst Perm g cf v) as [st'|st'|st'|]; cbn in Hrun; [| |done..].
  2:{ destruct Hrun as (c & _ & [_ _ _ Hst]). destruct (stops_never Hst Hnn Hna). }
  destruct Hrun as [F Hseen]. exists st'. split; [done|].
  pose proof (g_len _ _ _ (f_grown _ _ _ F)) as Hlen. split; [done|].
  intros x. split.
  - intros Hx.
    assert (is_Some (at_ vis0 x)) as [[] Hx0].
    { apply at_is_Some. cbn in Hlen. rewrite <- Hlen. apply at_is_Some.
      by eexists. }
    + by left.
    + right. destruct (g_from _ _ _ (f_grown _ _ _ F) x Hx0 Hx) as (t & <- & Hr).
      done.
  - intros [Hx0|Hr].
    + by apply (g_seen _ _ _ (f_grown _ _ _ F)).
    + by eapply finished_closed.
Qed.

(** X14.  On a graph that meets the bounds condition, with a start node
    of the graph and bitsets (if any are passed) that have a bit for every
    node, [DepthFirst] does not panic, whatever the visitors do: it runs
    to its end, or a conditional visitor stops it. *)
Theorem DepthFirst_safe v :
  0 ≤ start cf < Z.of_nat (length g) → fits →
  ∃ st', DepthFirst Perm g cf v = Ok st' ∨ DepthFirst Perm g cf v = Stop st'.
Proof.
  intros Hs Hfits.
  assert (is_Some (at_ vis0 (start cf))) as [[] Hbit].
  { apply at_is_Some. destruct Hfits. lia. }
  - unfold DepthFirst, vis0 in *. destruct (visBits cf) as [b|]; cbn in Hbit.
    + unfold bits.Bit. rewrite Hbit. cbn.
      destruct (decide (1 ≠ 0)); [|exfalso; lia]. eexists. by left.
    + apply at_Some in Hbit as [_ Hbit].
      by apply lookup_replicate in Hbit as [? _].
  - pose proof (DepthFirst_run v Hs Hfits Hbit) as Hrun.
    destruct (DepthFirst Perm g cf v) as [st'|st'|st'|]; cbn in Hrun;
      [| |done..]; exists st'; [by left|by right].
Qed.

(** X15.  On a graph that meets the bounds condition, from a start node of
    the graph, without a visited bitset passed and with no visitor that
    stops the traversal, [DepthFirst] runs to its end, and the nodes whose
    bit is then set in the visited bitset are exactly the nodes that can be
    reached from the start node. *)
Theorem DepthFirst_reaches v :
  never_stops cf → never_stops_arc cf → visBits cf = None →
  (∀ pb, pathBits cf = Some pb → (length g ≤ length pb)%nat) →
  0 ≤ start cf < Z.of_nat (length g) →
  ∃ st', DepthFirst Perm g cf v = Ok st' ∧
    ∀ x, at_ (vis st') x = Some true ↔ reachable g (start cf) x.
Proof.
  intros Hnn Hna Hvb Hpb Hs.
  assert (vis0 = replicate (length g) false) as Hv0.
  { unfold vis0. by rewrite Hvb. }
  assert (∀ y, at_ vis0 y = Some false ↔ 0 ≤ y < Z.of_nat (length g)) as Hall.
  { intros y. rewrite Hv0, at_Some, lookup_replicate. lia. }
  destruct (DepthFirst_marks v Hnn Hna Hs) as (st' & Hrun & _ & Hbits).
  { split; [|done]. by rewrite Hv0, length_replicate. }
  { by apply Hall. }
  exists st'. split; [done|]. intros x. rewrite Hbits. split.
  - intros [Hx|Hr]; [|by eapply reach_in_reach].
    rewrite Hv0 in Hx. apply at_Some in Hx as [_ Hx].
    by apply lookup_replicate in Hx as [? _].
  - intros [k Hr]. right. induction Hr as [|k u y Hr IH Ha].
    + apply reach_in_O. by apply Hall.
    + eapply reach_in_S; [exact IH|exact Ha|].
      apply Hall. by eapply bounds_ok_arc.
Qed.



(** X18.  Under the conditions of X14, where the bit of the start node is
    clear at first: when [DepthFirst] has run to its end, all bits of the
    path bitset (if one is passed) are clear. *)
Theorem DepthFirst_clears_PathBits v st' :
  0 ≤ start cf < Z.of_nat (length g) → fits →
  at_ vis0 (start cf) = Some false →
  DepthFirst Perm g cf v = Ok st' →
  path st' = bits.ClearAll <$> pathBits cf.
Proof.
  intros Hs Hfits Hclear Hok.
  pose proof (DepthFirst_run v Hs Hfits Hclear) as Hrun.
  rewrite Hok in Hrun. destruct Hrun as [F _]. apply (f_path _ _ _ F).
Qed.

(** X19.  Under the same conditions, when a conditional visitor has
    stopped the traversal: the trace ends with the call that answered
    false, at a node [v]; there is a chain of arcs from the start node to
    [v]; and the bits set in the path bitset (if one is passed) are exactly
    those of the nodes of this chain. *)
Theorem DepthFirst_stop_path v st' :
  0 ≤ start cf < Z.of_nat (length g) → fits →
  at_ vis0 (start cf) = Some false →
  DepthFirst Perm g cf v = Stop st' →
  ∃ c n, arc_chain g (start cf :: c) ∧ last (start cf :: c) = Some n ∧
    stop_node (w_trace (dw st')) = Some n ∧
    (is_Some (path st') ↔ is_Some (pathBits cf)) ∧
    ∀ pb, path st' = Some pb →
      ∀ x, at_ pb x = Some true ↔ x ∈ start cf :: c.
Proof.
  intros Hs Hfits Hclear Hstop.
  pose proof (DepthFirst_run v Hs Hfits Hclear) as Hrun.
  rewrite Hstop in Hrun. destruct Hrun as (c & _ & [Hch (n & Hl & Hn) Hm _]).
  exists c, n. split_and!; [done..| |].
  - cbn in Hm. destruct (pathBits cf) as [pb0|], (path st') as [pb'|];
      cbn in Hm; done.
  - intros pb Hpb x. rewrite Hpb in Hm. cbn in Hm.
    destruct (pathBits cf) as [pb0|]; cbn in Hm; [|done].
    destruct Hm as [_ Hm]. rewrite Hm. split; [|by right].
    intros [[_ Hx]%at_Some|?]; [|done]. unfold bits.ClearAll in Hx.
    by apply lookup_replicate in Hx as [? _].
Qed.
End DepthFirstRuns.

(** ** What the breadth-first traversal does *)

Section BreadthFirstRuns.
Context {V R : Type} (Perm : R → nat → list nat * R).
Variables (g : AdjacencyList) (cf : config V R).
Hypothesis Hbounds : bounds_ok g.
Hypothesis Hperm : ∀ r n, (Perm r n).1 ≡ₚ seq 0 n.
Implicit Types (st : bfs_state V R).

(** The path list has an entry for every node, and [next] holds nodes. *)
Definition bfs_good st : Prop :=
  (length g ≤ length (rp st))%nat ∧
  ∀ x, x ∈ next st → 0 ≤ x < Z.of_nat (length g).

(** No panic. *)
Definition bfs_safe (r : result (bfs_state V R)) : Prop :=
  match r with
  | Ok st' => bfs_good st'
  | Panic _ => False
  | _ => True
  end.

Lemma bfs_safe_bind r k :
  bfs_safe r → (∀ st, bfs_good st → bfs_safe (k st)) → bfs_safe (bind r k).
Proof. destruct r; cbn; auto. Qed.

Lemma bfs_arc_safe n level nb st :
  bfs_good st → 0 ≤ nb < Z.of_nat (length g) →
  bfs_safe (bfs_arc n level nb st).
Proof.
  intros [Hl Hn] Hnb. unfold bfs_arc.
  assert (is_Some (at_ (rp st) nb)) as [p ->] by (apply at_is_Some; lia).
  destruct (decide (Len p = 0)); cbn; [|done].
  split; cbn; [by rewrite length_insert|].
  intros x [?|Hx%list_elem_of_singleton]%elem_of_app; [auto|by subst].
Qed.

Lemma bfs_arcs_safe n level to st :
  bfs_good st → (∀ nb, nb ∈ to → 0 ≤ nb < Z.of_nat (length g)) →
  bfs_safe (bfs_arcs n level to st).
Proof.
  revert st. induction to as [|nb to IH]; intros st Hgood Hto; cbn; [done|].
  apply bfs_safe_bind; [apply bfs_arc_safe; [done|apply Hto; by left]|].
  intros st' Hgood'. apply IH; [done|]. intros; apply Hto; by right.
Qed.

Lemma bfs_node_safe level n st :
  bfs_good st → 0 ≤ n < Z.of_nat (length g) →
  bfs_safe (bfs_node g cf level n st).
Proof.
  intros Hgood Hn. unfold bfs_node.
  destruct (visitOkNode cf n _) as [ok w2]. destruct ok; cbn; [|done].
  assert (is_Some (at_ g n)) as [to Hto] by (by apply at_is_Some).
  rewrite Hto. apply bfs_arcs_safe; [done|].
  intros nb Hnb. apply (bounds_ok_arc g n nb Hbounds). by exists to.
Qed.

Lemma bfs_frontier_safe level frontier st :
  bfs_good st → (∀ n, n ∈ frontier → 0 ≤ n < Z.of_nat (length g)) →
  bfs_safe (bfs_frontier g cf level frontier st).
Proof.
  revert st. induction frontier as [|n frontier IH]; intros st Hgood Hf; cbn;
    [done|].
  apply bfs_safe_bind; [apply bfs_node_safe; [done|apply Hf; by left]|].
  intros st' Hgood'. apply IH; [done|]. intros; apply Hf; by right.
Qed.

Lemma bfs_frontier_perm_safe level frontier p st :
  bfs_good st → (∀ n, n ∈ frontier → 0 ≤ n < Z.of_nat (length g)) →
  (∀ i, i ∈ p → (i < length frontier)%nat) →
  bfs_safe (bfs_frontier_perm g cf level frontier p st).
Proof.
  intros Hgood Hf. revert st Hgood.
  induction p as [|i p IH]; intros st Hgood Hp; cbn; [done|].
  destruct (lookup_lt_is_Some_2 frontier i) as [n Hn]; [apply Hp; by left|].
  rewrite Hn. apply bfs_safe_bind.
  - apply bfs_node_safe; [done|]. apply Hf. by eapply list_elem_of_lookup_2.
  - intros st' Hgood'. apply IH; [done|]. intros; apply Hp; by right.
Qed.

Lemma bfs_level_safe level frontier st :
  (length g ≤ length (rp st))%nat →
  (∀ n, n ∈ frontier → 0 ≤ n < Z.of_nat (length g)) →
  bfs_safe (bfs_level Perm g cf level frontier st).
Proof.
  intros Hl Hf. unfold bfs_level.
  assert (bfs_good (bfs_take level frontier st)) as Hgood.
  { split; [done|]. by intros x ?%elem_of_nil. }
  destruct (w_rand (bw (bfs_take level frontier st))) as [r|].
  - unfold callPerm. pose proof (Hperm r (length frontier)) as Hp.
    destruct (Perm r (length frontier)) as [p r']. cbn in Hp.
    apply bfs_frontier_perm_safe; [done..|].
    intros i Hi. rewrite Hp in Hi. apply elem_of_seq in Hi. lia.
  - by apply bfs_frontier_safe.
Qed.

Lemma bfs_loop_safe fuel level frontier st :
  (length g ≤ length (rp st))%nat →
  (∀ n, n ∈ frontier → 0 ≤ n < Z.of_nat (length g)) →
  bfs_safe (bfs_loop Perm fuel g cf level frontier st).
Proof.
  revert level frontier st.
  induction fuel as [|fuel IH]; intros level frontier st Hl Hf; cbn; [done|].
  apply bfs_safe_bind; [by apply bfs_level_safe|].
  intros st' [Hl' Hn']. destruct (next st') as [|n nx] eqn:Hnx.
  - split; [done|]. rewrite Hnx. by intros x ?%elem_of_nil.
  - by apply IH.
Qed.

(** X20.  On a graph that meets the bounds condition, with a start node
    of the graph, and a tree (if one is passed with a path list) that has
    an entry for every node, [BreadthFirst] does not panic, whatever the
    visitors do: it runs to its end, or a conditional visitor stops it. *)
Theorem BreadthFirst_safe v :
  0 ≤ start cf < Z.of_nat (length g) →
  (∀ f paths, fromList cf = Some f → Paths f = Some paths →
     (length g ≤ length paths)%nat) →
  ∃ st', BreadthFirst Perm g cf v = Ok st' ∨
         BreadthFirst Perm g cf v = Stop st'.
Proof.
  intros Hs Htree.
  pose proof (BreadthFirst_terminates Perm g cf v) as Hterm.
  assert (length g ≤ length (tree_paths (bfs_tree g cf)))%nat as Hl.
  { unfold bfs_tree.
    destruct (fromList cf) as [f|] eqn:Hf; [|cbn; by rewrite length_replicate].
    destruct (Paths f) as [paths|] eqn:Hp; [|cbn; by rewrite length_replicate].
    unfold tree_paths. rewrite Hp. cbn. by eapply Htree. }
  assert (bfs_safe (BreadthFirst Perm g cf v)) as Hsafe.
  { unfold BreadthFirst. unfold upd. rewrite decide_True by lia.
    apply bfs_loop_safe; [cbn; by rewrite length_insert|].
    by intros n ->%list_elem_of_singleton. }
  destruct (BreadthFirst Perm g cf v) as [st'|st'|st'|]; [| |done..];
    exists st'; [by left|by right].
Qed.

(** The nodes whose entry a trace has written, in order. *)
Definition written (tr : list event) : list NI :=
  omap (λ e, match e with SetPath n _ => Some n | _ => None end) tr.

Lemma written_app tr tr' : written (tr ++ tr') = written tr ++ written tr'.
Proof. apply omap_app. Qed.

Lemma omap_lookup_seq {A} (k l : list A) :
  omap ((k ++ l) !!.) (seq (length k) (length l)) = l.
Proof.
  revert k. induction l as [|x l IH]; intros k; [done|].
  cbn. rewrite list_lookup_middle by done. cbn. f_equal.
  rewrite cons_middle, app_assoc.
  specialize (IH (k ++ [x])). rewrite length_app in IH. cbn in IH.
  by rewrite Nat.add_1_r in IH.
Qed.

(** The order of the visits against the order of the writes: the same
    nodes, and in the same order while no generator has been used. *)
Definition same_nodes st (a b : list NI) : Prop :=
  a ≡ₚ b ∧ (w_rand (bw st) = None → a = b).

(** With the nodes [rem] of the frontier left: the nodes visited, those
    left and those of [next] are the nodes written; no node was written
    twice; and the nodes written have a length. *)
Definition bfs_visiting (rem : list NI) st : Prop :=
  same_nodes st (visits (w_trace (bw st)) ++ rem ++ next st)
    (written (w_trace (bw st))) ∧
  NoDup (written (w_trace (bw st))) ∧
  ∀ x, x ∈ written (w_trace (bw st)) →
    ∃ e, at_ (rp st) x = Some e ∧ Len e ≠ 0.

Definition bfs_visits_out (rem : list NI) (r : result (bfs_state V R))
  : Prop :=
  match r with
  | Ok st' => bfs_visiting rem st'
  | Stop st' => ∃ rem', bfs_visiting rem' st'
  | _ => True
  end.

Lemma bfs_visits_bind rem rem' r k :
  bfs_visits_out rem r →
  (∀ st, bfs_visiting rem st → bfs_visits_out rem' (k st)) →
  bfs_visits_out rem' (bind r k).
Proof. destruct r; cbn; auto. Qed.

Lemma bfs_arc_visits rem n level nb st :
  level ≠ 0 → bfs_visiting rem st →
  bfs_visits_out rem (bfs_arc n level nb st).
Proof.
  intros Hlevel ([Hp He] & Hnd & Hlen). unfold bfs_arc.
  destruct (at_ (rp st) nb) as [p|] eqn:Hnb; cbn; [|done].
  destruct (decide (Len p = 0)) as [Hz|]; cbn; [|done].
  assert (nb ∉ written (w_trace (bw st))) as Hnew.
  { intros (e & He' & Hne)%Hlen. congruence. }
  unfold bfs_visiting, same_nodes. cbn.
  rewrite written_app, visits_app. cbn. rewrite app_nil_r.
  split_and!.
  - by rewrite !app_assoc, <- (app_assoc _ rem), Hp.
  - intros Hr. by rewrite !app_assoc, <- (app_assoc _ rem), He.
  - apply NoDup_app. split_and!; [done| |apply NoDup_singleton].
    intros x Hx ->%list_elem_of_singleton. done.
  - intros x [Hx|Hx%list_elem_of_singleton]%elem_of_app; [|subst x].
    + destruct (Hlen x Hx) as (e & Hxe & Hne). exists e. split; [|done].
      rewrite at_insert_ne; [done|by apply at_Some in Hnb as [? _]|].
      intros ->. done.
    + eexists. split; [apply at_insert_eq; apply at_is_Some; by eexists|done].
Qed.

Lemma bfs_arcs_visits rem n level to st :
  level ≠ 0 → bfs_visiting rem st →
  bfs_visits_out rem (bfs_arcs n level to st).
Proof.
  intros Hlevel. revert st. induction to as [|nb to IH]; intros st HJ; cbn;
    [done|].
  eapply bfs_visits_bind; [by apply bfs_arc_visits|]. auto.
Qed.

Section Visits.
Hypothesis Hnv : is_Some (nodeVisitor cf).

Lemma bfs_node_visits rem level n st :
  level ≠ 0 → bfs_visiting (n :: rem) st →
  bfs_visits_out rem (bfs_node g cf level n st).
Proof.
  intros Hlevel ([Hp He] & Hnd & Hlen). unfold bfs_node.
  set (st1 := bfs_world (visitNode cf n) st).
  assert (bfs_visiting rem st1) as H1.
  { unfold bfs_visiting, same_nodes, st1, visitNode.
    destruct Hnv as [f ->]. cbn.
    rewrite written_app, visits_app. cbn. rewrite app_nil_r.
    rewrite <- app_assoc. by split_and!. }
  destruct (visitOkNode cf n (bw st1)) as [ok w2] eqn:Hok.
  set (st2 := bfs_world (λ _, w2) st1).
  assert (bfs_visiting rem st2) as H2.
  { unfold visitOkNode in Hok.
    destruct (okNodeVisitor cf) as [f|]; [|by injection Hok as _ <-].
    destruct (f n (w_vis (bw st1))) as [ok' v']. injection Hok as _ <-.
    destruct H1 as ([Hp1 He1] & Hnd1 & Hlen1).
    unfold bfs_visiting, same_nodes. cbn.
    rewrite written_app, visits_app. cbn. rewrite !app_nil_r.
    by split_and!. }
  destruct ok; cbn; [|by exists rem].
  destruct (at_ g n) as [to|]; [|done]. by apply bfs_arcs_visits.
Qed.

Lemma bfs_frontier_visits level frontier st :
  level ≠ 0 → bfs_visiting frontier st →
  bfs_visits_out [] (bfs_frontier g cf level frontier st).
Proof.
  intros Hlevel. revert st.
  induction frontier as [|n frontier IH]; intros st HJ; cbn; [done|].
  eapply bfs_visits_bind; [by apply bfs_node_visits|]. auto.
Qed.

Lemma bfs_frontier_perm_visits level frontier p st :
  level ≠ 0 → bfs_visiting (omap (frontier !!.) p) st →
  bfs_visits_out [] (bfs_frontier_perm g cf level frontier p st).
Proof.
  intros Hlevel. revert st.
  induction p as [|i p IH]; intros st HJ; cbn; [done|].
  cbn in HJ. destruct (frontier !! i) as [n|]; [|done]. cbn in HJ.
  eapply bfs_visits_bind; [by apply bfs_node_visits|]. auto.
Qed.

(** At the top of the outer loop, [next] is the frontier. *)
Definition bfs_visiting_top (frontier : list NI) st : Prop :=
  bfs_visiting [] {| rp := rp st; maxLen := maxLen st; next := frontier;
                     bw := bw st |}.

Lemma bfs_level_visits level frontier st :
  level + 1 ≠ 0 → bfs_visiting_top frontier st →
  bfs_visits_out [] (bfs_level Perm g cf level frontier st).
Proof.
  intros Hlevel ([Hp He] & Hnd & Hlen). cbn in *. unfold bfs_level.
  set (st0 := bfs_take level frontier st).
  assert (bfs_visiting frontier st0) as H0.
  { unfold bfs_visiting, same_nodes. cbn.
    rewrite written_app, visits_app. cbn. rewrite !app_nil_r. by split_and!. }
  destruct (w_rand (bw st0)) as [r|] eqn:Hr.
  - unfold callPerm. pose proof (Hperm r (length frontier)) as Hpm.
    destruct (Perm r (length frontier)) as [p r']. cbn in Hpm.
    apply bfs_frontier_perm_visits; [done|].
    destruct H0 as ([Hp0 _] & Hnd0 & Hlen0).
    unfold bfs_visiting, same_nodes. cbn in *. split_and!; [|done..].
    pose proof (omap_lookup_seq [] frontier) as Hseq. cbn in Hseq.
    rewrite Hpm, Hseq. done.
  - by apply bfs_frontier_visits.
Qed.

Lemma bfs_loop_visits fuel level frontier st :
  0 < level → bfs_visiting_top frontier st →
  bfs_visits_out [] (bfs_loop Perm fuel g cf level frontier st).
Proof.
  revert level frontier st.
  induction fuel as [|fuel IH]; intros level frontier st Hl HJ; cbn; [done|].
  eapply bfs_visits_bind; [apply bfs_level_visits; [lia|done]|].
  intros st' HJ'. destruct (next st') as [|n nx] eqn:Hnx; [done|].
  apply IH; [lia|]. unfold bfs_visiting_top. rewrite <- Hnx.
  by destruct st'.
Qed.

Lemma bfs_arcs_rand n level to st st' :
  bfs_arcs n level to st = Ok st' → w_rand (bw st') = w_rand (bw st).
Proof.
  revert st. induction to as [|nb to IH]; intros st; cbn.
  - by intros [= <-].
  - unfold bfs_arc. destruct (at_ (rp st) nb) as [p|]; [|done].
    destruct (decide (Len p = 0)); cbn; [|by apply IH].
    intros Hrun. by apply IH in Hrun.
Qed.

Lemma bfs_node_rand level n st st' :
  bfs_node g cf level n st = Ok st' → w_rand (bw st') = w_rand (bw st).
Proof.
  unfold bfs_node. set (st1 := bfs_world (visitNode cf n) st).
  assert (w_rand (bw st1) = w_rand (bw st)) as Hr1.
  { unfold st1, visitNode. by destruct (nodeVisitor cf). }
  destruct (visitOkNode cf n (bw st1)) as [ok w2] eqn:Hok.
  assert (w_rand w2 = w_rand (bw st1)) as Hr2.
  { unfold visitOkNode in Hok. destruct (okNodeVisitor cf) as [f|].
    - destruct (f n _) as [ok' v']. by injection Hok as _ <-.
    - by injection Hok as _ <-. }
  destruct ok; [|done]. destruct (at_ g n) as [to|]; [|done].
  intros Hrun%bfs_arcs_rand. cbn in Hrun. congruence.
Qed.

Lemma bfs_frontier_rand level frontier st st' :
  bfs_frontier g cf level frontier st = Ok st' →
  w_rand (bw st') = w_rand (bw st).
Proof.
  revert st. induction frontier as [|n frontier IH]; intros st; cbn.
  - by intros [= <-].
  - destruct (bfs_node g cf level n st) as [st1| | |] eqn:Hn; cbn; [|done..].
    intros Hrun%IH. apply bfs_node_rand in Hn. congruence.
Qed.

Lemma bfs_loop_norand fuel level frontier st st' :
  w_rand (bw st) = None →
  bfs_loop Perm fuel g cf level frontier st = Ok st' →
  w_rand (bw st') = None.
Proof.
  revert level frontier st.
  induction fuel as [|fuel IH]; intros level frontier st Hr; [done|].
  cbn [bfs_loop]. unfold bfs_level. cbn. rewrite Hr.
  destruct (bfs_frontier g cf (level + 1) frontier _) as [st1| | |] eqn:Hf;
    cbn; [|done..].
  apply bfs_frontier_rand in Hf. cbn in Hf.
  destruct (next st1); [intros [= <-]; congruence|apply IH; congruence].
Qed.

Lemma bfs_loop_next fuel level frontier st st' :
  bfs_loop Perm fuel g cf level frontier st = Ok st' → next st' = [].
Proof.
  revert level frontier st.
  induction fuel as [|fuel IH]; intros level frontier st; [done|]. cbn.
  destruct (bfs_level Perm g cf level frontier st) as [st1| | |]; cbn;
    [|done..].
  destruct (next st1) eqn:Hn1; [|apply IH].
  intros [= <-]. done.
Qed.

(** X21.  Where a [NodeVisitor] is passed: when [BreadthFirst] has run to
    its end, [NodeVisitor] has been called exactly once on every node whose
    entry of the path list the call has written, the start node among them,
    and on no other node, and without [Rand] in the order in which the
    entries were written; when a conditional visitor has stopped the
    traversal, it has been called at most once on such nodes. *)
Theorem BreadthFirst_visits_once v :
  (∀ st', BreadthFirst Perm g cf v = Ok st' →
     visits (w_trace (bw st')) ≡ₚ written (w_trace (bw st')) ∧
     NoDup (written (w_trace (bw st'))) ∧
     (rand cf = None →
        visits (w_trace (bw st')) = written (w_trace (bw st')))) ∧
  (∀ st', BreadthFirst Perm g cf v = Stop st' →
     NoDup (visits (w_trace (bw st'))) ∧
     ∀ x, x ∈ visits (w_trace (bw st')) → x ∈ written (w_trace (bw st'))).
Proof.
  assert (bfs_visits_out [] (BreadthFirst Perm g cf v)) as Hout.
  { unfold BreadthFirst.
    destruct (upd _ (start cf) _) as [p'|] eqn:Hupd; [|done].
    apply upd_Some in Hupd as [Hs ->].
    apply bfs_loop_visits; [done|].
    unfold bfs_visiting_top, bfs_visiting, same_nodes. cbn.
    split_and!; [done|done|apply NoDup_singleton|].
    intros x ->%list_elem_of_singleton. eexists.
    split; [by apply at_insert_eq|done]. }
  split.
  - intros st' Hrun. rewrite Hrun in Hout.
    destruct Hout as ([Hp He] & Hnd & _).
    unfold BreadthFirst in Hrun. destruct (upd _ _ _) as [p'|]; [|done].
    rewrite (bfs_loop_next _ _ _ _ _ Hrun) in Hp, He.
    cbn in Hp, He. rewrite app_nil_r in Hp, He. split_and!; [done..|].
    intros Hnone. apply He. eapply bfs_loop_norand; [|exact Hrun]. exact Hnone.
  - intros st' Hrun. rewrite Hrun in Hout.
    destruct Hout as (rem & [Hp _] & Hnd & _).
    rewrite <- Hp in Hnd. apply NoDup_app in Hnd as (Hnd & _ & _).
    split; [done|]. intros x Hx. rewrite <- Hp. apply elem_of_app. by left.
Qed.
End Visits.
End BreadthFirstRuns.

(** ** The theorems on the rest of the package at concrete inputs *)

(** A graph of two nodes with an arc to a node 2 it does not have. *)
Definition g_out : AdjacencyList := [[1]; [2]].

Lemma BoundsOk_decides_witness :
  ∃ ok fr to, BoundsOk g_out = (ok, fr, to) ∧
    (ok = true ↔ ∀ u v, arc g_out u v → 0 ≤ v < 2) ∧
    (ok = true → fr = -1 ∧ to = 0) ∧
    (ok = false → arc g_out fr to ∧ ¬ (0 ≤ to < 2)).
Proof. apply (BoundsOk_decides g_out). cbn. lia. Defined.

(** [BoundsOk] finds the arc from 1 to 2. *)
Example BoundsOk_g_out : BoundsOk g_out = (false, 1, 2).
Proof. reflexivity. Qed.

Lemma HasArc_first_witness :
  ∃ b x, HasArc g5 2 0 = Some (b, x) ∧
    (b = true ↔ arc g5 2 0) ∧
    (b = true → at_ [3; 0] x = Some 0 ∧ ∀ y, 0 ≤ y < x → at_ [3; 0] y ≠ Some 0) ∧
    (b = false → x = -1).
Proof. apply (HasArc_first g5 2 0 [3; 0]). reflexivity. Defined.

(** A node with two arcs to node 1, and one to node 2. *)
Definition g_par1 : AdjacencyList := [[1; 2; 1]; []; []].

Lemma ParallelArcs_indexes_witness :
  ∃ p, ParallelArcs g_par1 0 1 = Some p ∧
    (∀ x, x ∈ p ↔ at_ [1; 2; 1] x = Some 1) ∧
    StronglySorted Z.lt p ∧
    length p = occ 1 [1; 2; 1] ∧
    HasArc g_par1 0 1 =
      Some match p with [] => (false, -1) | x :: _ => (true, x) end.
Proof. apply (ParallelArcs_indexes g_par1 0 1 [1; 2; 1]). reflexivity. Defined.

Example ParallelArcs_g_par1 : ParallelArcs g_par1 0 1 = Some [0; 2].
Proof. reflexivity. Qed.

(** A graph whose node 1 has an arc to itself. *)
Definition g_loop : AdjacencyList := [[1]; [0; 1]].

Lemma AnyLoop_first_witness :
  ∃ b n, AnyLoop g_loop = (b, n) ∧
    (b = true ↔ ∃ u, arc g_loop u u) ∧
    (b = true → arc g_loop n n ∧ ∀ m, 0 ≤ m < n → ¬ arc g_loop m m) ∧
    (b = false → n = -1).
Proof. apply (AnyLoop_first g_loop). cbn. lia. Defined.

(** A graph whose node 1 has two arcs to node 2 and two to node 0. *)
Definition g_par : AdjacencyList := [[1; 2]; [2; 0; 2; 0]; []].

Lemma AnyParallelMap_decides_witness :
  ∃ has fr to, AnyParallelMap g_par = (has, fr, to) ∧
    (has = true ↔ ∃ row, row ∈ g_par ∧ ¬ NoDup row) ∧
    (has = true →
       (∃ row, at_ g_par fr = Some row ∧ (2 ≤ occ to row)%nat) ∧
       ∀ m row, 0 ≤ m < fr → at_ g_par m = Some row → NoDup row) ∧
    (has = false → fr = -1 ∧ to = -1).
Proof. apply (AnyParallelMap_decides g_par). cbn. lia. Defined.

Lemma AnyParallelSort_as_Map_witness :
  ∃ has fr to to', AnyParallelMap g_par = (has, fr, to) ∧
    AnyParallelSort g_par = Some (has, fr, to') ∧
    (has = false → to' = -1) ∧
    (has = true → ∃ row, at_ g_par fr = Some row ∧
       (2 ≤ occ to' row)%nat ∧ ∀ x, (2 ≤ occ x row)%nat → to' ≤ x).
Proof. apply (AnyParallelSort_as_Map g_par). cbn. lia. Defined.

(** The two methods name different arc ends: the first that comes twice,
    and the least that comes twice. *)
Example AnyParallel_g_par :
  AnyParallelMap g_par = (true, 1, 2) ∧
  AnyParallelSort g_par = Some (true, 1, 0).
Proof. split; vm_compute; reflexivity. Qed.

Lemma IsSimple_decides_witness :
  ∃ ok n, IsSimple g5 = Some (ok, n) ∧
    (ok = true ↔ (∀ u, ¬ arc g5 u u) ∧ ∀ row, row ∈ g5 → NoDup row) ∧
    (ok = true → n = -1) ∧
    (ok = false →
       arc g5 n n ∨ ∃ row, at_ g5 n = Some row ∧ ¬ NoDup row).
Proof. apply (IsSimple_decides g5). cbn. lia. Defined.

Example IsSimple_examples :
  IsSimple g5 = Some (true, -1) ∧ IsSimple g_loop = Some (false, 1) ∧
  IsSimple g_par = Some (false, 1).
Proof. split_and!; vm_compute; reflexivity. Qed.

(** A graph whose node 2 has no arc from it or to it. *)
Definition g_iso : AdjacencyList := [[1]; []; []].

Lemma IsolatedNodes_isolated_witness :
  ∃ i : Bits, IsolatedNodes g_iso = Some i ∧ length i = 3%nat ∧
    ∀ n, at_ i n = Some true ↔
      at_ g_iso n = Some [] ∧ ∀ u, ¬ arc g_iso u n.
Proof. apply (IsolatedNodes_isolated g_iso). reflexivity. Defined.

Example IsolatedNodes_g_iso : IsolatedNodes g_iso = Some [false; false; true].
Proof. reflexivity. Qed.


Lemma IsUndirected_decides_witness :
  ∃ u fr to, IsUndirected g5 = Some (u, fr, to) ∧
    (u = true ↔ symmetric g5) ∧
    (u = true → fr = -1 ∧ to = -1) ∧
    (u = false → fr ≠ to ∧ (narcs g5 to fr < narcs g5 fr to)%nat).
Proof. apply (IsUndirected_decides g5); [cbn; lia|reflexivity]. Defined.

Example IsUndirected_g5 : IsUndirected g5 = Some (false, 0, 1).
Proof. reflexivity. Qed.

(** A generator whose [Intn] is always 0. *)
Definition Intn_0 (r : unit) (n : Z) : Z * unit := (0, r).

Lemma ShuffleArcLists_permutes_witness :
  ∃ g' r', ShuffleArcLists Intn_0 g5 () = Some (g', r') ∧
    Forall2 (≡ₚ) g' g5 ∧
    (∀ u v, arc g' u v ↔ arc g5 u v) ∧
    ArcSize g' = ArcSize g5.
Proof.
  apply (ShuffleArcLists_permutes Intn_0). intros r n Hn. cbn. lia.
Defined.

Example ShuffleArcLists_g5 :
  ShuffleArcLists Intn_0 g5 () = Some ([[2; 1]; [3]; [0; 3]; []; [0]], ()).
Proof. reflexivity. Qed.

(** The permutation that takes 0 to 2, 1 to 0, 2 to 1, 3 to 4, 4 to 3. *)
Definition p5 : list Z := [2; 0; 1; 4; 3].


Example Permute_g5 :
  Permute g5 p5 = Some [[4]; [4; 2]; [0; 1]; [2]; []].
Proof. reflexivity. Qed.

(** Where [p] is no permutation, nodes share arc lists: the graph
    0 → 1, 1 → 0 with [p = [0, 0]]. *)
Example Permute_no_permutation :
  Permute [[1]; [0]] [0; 0] = Some [[0]; [0]].
Proof. reflexivity. Qed.

(** [DepthFirst(0, NodeVisitor(v), ArcVisitor(a), PathBits(&b), Rand(r))],
    the visitors counting their calls. *)
Definition cf_dfs : config nat unit :=
  configure 0 [OptNodeVisitor (Some (λ _ v, S v));
               OptArcVisitor (Some (λ _ _ v, S v));
               OptPathBits (Some [true; true; true; true; true]);
               OptRand (Some ())].

Lemma fits_cf_dfs : fits g5 cf_dfs.
Proof. split; [cbn; lia|]. intros pb [= <-]. cbn. lia. Qed.

Lemma DepthFirst_safe_witness :
  ∃ st', DepthFirst Perm_rev path5 (third_config 0 None None) 0%nat = Ok st' ∨
         DepthFirst Perm_rev path5 (third_config 0 None None) 0%nat = Stop st'.
Proof.
  apply (DepthFirst_safe Perm_rev path5 (third_config 0 None None)).
  - reflexivity.
  - apply Perm_rev_ok.
  - cbn. lia.
  - split; [cbn; lia|]. intros pb Hpb. discriminate Hpb.
Defined.

Lemma DepthFirst_reaches_witness :
  ∃ st', DepthFirst Perm_rev g5 cf_dfs 0%nat = Ok st' ∧
    ∀ x, at_ (vis st') x = Some true ↔ reachable g5 0 x.
Proof.
  apply (DepthFirst_reaches Perm_rev g5 cf_dfs).
  - reflexivity.
  - apply Perm_rev_ok.
  - intros f Hf. discriminate Hf.
  - intros f Hf. discriminate Hf.
  - reflexivity.
  - intros pb [= <-]. cbn. lia.
  - cbn. lia.
Defined.

(** From 0, the nodes 0, 1, 2, 3 are reached, and 4 is not. *)
Example DepthFirst_g5 :
  ends (λ st', vis st' = [true; true; true; true; false])
    (DepthFirst Perm_rev g5 cf_dfs 0%nat).
Proof. vm_compute. done. Qed.




Lemma DepthFirst_clears_PathBits_witness :
  ∃ st', DepthFirst Perm_rev g5 cf_dfs 0%nat = Ok st' ∧
    path st' = bits.ClearAll <$> pathBits cf_dfs.
Proof.
  eexists. split.
  - vm_compute. reflexivity.
  - apply (DepthFirst_clears_PathBits Perm_rev g5 cf_dfs eq_refl Perm_rev_ok
             0%nat).
    + cbn. lia.
    + apply fits_cf_dfs.
    + reflexivity.
    + vm_compute. reflexivity.
Defined.

Lemma DepthFirst_stop_path_witness :
  ∃ st',
    DepthFirst Perm_rev path5
      (third_config 0 (Some [true; false; true; false; true]) None) 0%nat =
    Stop st' ∧
    ∃ c n, arc_chain path5 (0 :: c) ∧ last (0 :: c) = Some n ∧
      stop_node (w_trace (dw st')) = Some n ∧
      (is_Some (path st') ↔
       is_Some (Some [true; false; true; false; true] : option Bits)) ∧
      ∀ pb, path st' = Some pb →
        ∀ x, at_ pb x = Some true ↔ x ∈ 0 :: c.
Proof.
  eexists. split.
  - vm_compute. reflexivity.
  - apply (DepthFirst_stop_path Perm_rev path5
             (third_config 0 (Some [true; false; true; false; true]) None)
             eq_refl Perm_rev_ok 0%nat).
    + cbn. lia.
    + split; [cbn; lia|]. intros pb [= <-]. cbn. lia.
    + reflexivity.
    + vm_compute. reflexivity.
Defined.

(** Stopped at the third node of the path 0 → 1 → 2 → 3 → 4, the path
    bits are those of 0, 1 and 2. *)
Example DepthFirst_stop_path5 :
  ends (λ st', path st' = Some [true; true; true; false; false])
    (DepthFirst Perm_rev path5
       (third_config 0 (Some [true; false; true; false; true]) None) 0%nat).
Proof. vm_compute. done. Qed.

(** [BreadthFirst(0, From(&tree_23), NodeVisitor(v),
    OkNodeVisitor(stop_at_third))] *)
Definition cf_bfs : config nat unit :=
  configure 0 [OptFrom (Some tree_23); OptNodeVisitor (Some (λ _ v, v));
               OptOkNodeVisitor (Some stop_at_third)].

Lemma BreadthFirst_safe_witness :
  ∃ st', BreadthFirst Perm_rev g5 cf_bfs 0%nat = Ok st' ∨
         BreadthFirst Perm_rev g5 cf_bfs 0%nat = Stop st'.
Proof.
  apply (BreadthFirst_safe Perm_rev g5 cf_bfs).
  - reflexivity.
  - apply Perm_rev_ok.
  - cbn. lia.
  - intros f paths [= <-] [= <-]. cbn. lia.
Defined.

(** [BreadthFirst(4, NodeVisitor(v))] *)
Definition cf_bfs_visit : config nat unit :=
  configure 4 [OptNodeVisitor (Some (λ _ v, S v))].

Lemma BreadthFirst_visits_once_witness :
  (∀ st', BreadthFirst Perm_rev g5 cf_bfs_visit 0%nat = Ok st' →
     visits (w_trace (bw st')) ≡ₚ written (w_trace (bw st')) ∧
     NoDup (written (w_trace (bw st'))) ∧
     (rand cf_bfs_visit = None →
        visits (w_trace (bw st')) = written (w_trace (bw st')))) ∧
  (∀ st', BreadthFirst Perm_rev g5 cf_bfs_visit 0%nat = Stop st' →
     NoDup (visits (w_trace (bw st'))) ∧
     ∀ x, x ∈ visits (w_trace (bw st')) → x ∈ written (w_trace (bw st'))).
Proof.
  apply (BreadthFirst_visits_once Perm_rev g5 cf_bfs_visit).
  - apply Perm_rev_ok.
  - by eexists.
Defined.

(** From 4, the nodes are written and visited in the order 4, 0, 1, 2,
    3. *)
Example BreadthFirst_g5_order :
  ends (λ st', visits (w_trace (bw st')) = [4; 0; 1; 2; 3] ∧
               written (w_trace (bw st')) = [4; 0; 1; 2; 3])
    (BreadthFirst Perm_rev g5 cf_bfs_visit 0%nat).
Proof. vm_compute. done. Qed.
